(** * looper-pedal: the audio engine of the looper emulator

    A shallow embedding of [lib/utils.py], [lib/tracks.py] and the engine
    part of [lib/lem.py], with the properties of the recording state
    machine, the circular pre-roll buffer and the quantization step.

    Python integers are [Z]; arrays of audio frames are lists of frames;
    Python exceptions are the [Raise] case of [result]. *)

From stdpp Require Import prelude.
From Stdlib Require Import ZArith Lia.

#[local] Open Scope Z_scope.

(** ** Python values and exceptions *)

Inductive exn :=
| ZeroDivisionError
| NotImplementedError
| ValueError
| IncompleteRecordedTrackError.

Inductive result (A : Type) :=
| Ok (a : A)
| Raise (e : exn).
Arguments Ok {A} a.
Arguments Raise {A} e.

#[global] Instance result_ret : MRet result := fun A a => Ok a.
#[global] Instance result_bind : MBind result :=
  fun A B f m => match m with Ok a => f a | Raise e => Raise e end.

(** [len(l)]. *)
Definition len {A} (l : list A) : Z := Z.of_nat (length l).

(** [a % b]: the result has the sign of [b], as [Z.modulo] has. *)
Definition py_mod (a b : Z) : result Z :=
  if decide (b = 0) then Raise ZeroDivisionError else Ok (a `mod` b).

(** [int(a / b)] on integers: the true quotient truncated towards zero.
    The quotient goes through a double in Python; for the magnitudes of
    this program (below 2^53) the truncation of the double is that of the
    exact quotient. *)
Definition py_int_truediv (a b : Z) : result Z :=
  if decide (b = 0) then Raise ZeroDivisionError else Ok (Z.quot a b).

(** A slice bound of a sequence of length [n]: negative bounds count from
    the end, and everything is clamped to [0..n]. *)
Definition py_bound (n i : Z) : Z :=
  if decide (i < 0) then Z.max (i + n) 0 else Z.min i n.

(** [l[a:b]]; [None] is an omitted bound. *)
Definition py_slice {A} (l : list A) (a b : option Z) : list A :=
  let n := len l in
  let s := from_option (py_bound n) 0 a in
  let e := from_option (py_bound n) n b in
  take (Z.to_nat (e - s)) (drop (Z.to_nat s) l).

(** [l[a:b] = src] on a numpy array: the array keeps its size, so [src]
    must have the length of the slice, or be a single row, which is
    broadcast. *)
Definition py_setslice {A} (l : list A) (a b : option Z) (src : list A)
  : result (list A) :=
  let n := len l in
  let s := from_option (py_bound n) 0 a in
  let e := Z.max s (from_option (py_bound n) n b) in
  if decide (len src = e - s) then
    Ok (take (Z.to_nat s) l ++ src ++ drop (Z.to_nat e) l)
  else
    match src with
    | [x] => Ok (take (Z.to_nat s) l ++ replicate (Z.to_nat (e - s)) x
                   ++ drop (Z.to_nat e) l)
    | _ => Raise ValueError
    end.

(** ** lib/constants.py *)

Definition SAMPLERATE : Z := 44100.
Definition BLOCKSIZE : Z := 100.
Definition CHANNELS : Z := 2.

(** One frame: [CHANNELS] samples of [DTYPE] (int16). *)
Definition Frame : Type := Z * Z.

(** A row of [np.zeros(shape=(n, CHANNELS))]. *)
Definition silence : Frame := (0, 0).

(** [np.zeros(shape=(n, CHANNELS), dtype=DTYPE)]. *)
Definition np_zeros (n : Z) : result (list Frame) :=
  if decide (n < 0) then Raise ValueError
  else Ok (replicate (Z.to_nat n) silence).

(** ** lib/utils.py *)

Inductive UserRecordingEvents := START | STOP.

#[global] Instance UserRecordingEvents_eq_dec : EqDecision UserRecordingEvents.
Proof. solve_decision. Defined.

Module Queue.
Section Queue.
Context {A : Type}.

Definition t := list A.

Definition init : t := [].

Definition push (self : t) (item : A) : t := self ++ [item].

(** [self._items.pop(0)]; the callers test [empty()] first. *)
Definition pop (self : t) : option (A * t) :=
  match self with
  | [] => None
  | x :: q => Some (x, q)
  end.

Definition empty (self : t) : bool :=
  match self with
  | [] => true
  | _ => false
  end.

End Queue.
Arguments t : clear implicits.
End Queue.

Module AudioCircularBuffer.

Record t := mk {
  _length : Z;
  _data : list Frame;
  _index : Z
}.

(** [np.empty] leaves the array uninitialised: [mem] is what the memory
    holds, [length] frames of it. *)
Definition init (length : Z) (mem : list Frame) : t :=
  {| _length := length; _data := mem; _index := 0 |}.

Definition write (self : t) (data : list Frame) : result t :=
  let len_data := len data in
  let total_len := _index self + len_data in
  if decide (len_data > _length self) then Raise NotImplementedError
  else
    d ← (if decide (total_len > _length self) then
           let left := _length self - _index self in
           let overflown := len_data - left in
           d1 ← py_setslice (_data self) (Some (_index self)) None
                  (py_slice data None (Some left));
           py_setslice d1 None (Some overflown)
             (py_slice data (Some left) None)
         else
           py_setslice (_data self) (Some (_index self)) (Some total_len)
             data);
    i ← py_mod total_len (_length self);
    mret {| _length := _length self; _data := d; _index := i |}.

Definition start_to_index (self : t) : list Frame :=
  py_slice (_data self) None (Some (_index self)).

Definition position (self : t) : Z := _index self.

(** Several calls of [write], one after the other. *)
Fixpoint write_all (self : t) (chunks : list (list Frame)) : result t :=
  match chunks with
  | [] => Ok self
  | c :: cs => self' ← write self c; write_all self' cs
  end.

(** The buffer owns [_length] frames and its cursor is inside them. *)
Definition wf (self : t) : Prop :=
  len (_data self) = _length self ∧ 0 <= _index self < _length self.

End AudioCircularBuffer.

Definition on_beat (current_frame len_beat frames : Z) : result bool :=
  position_in_beat ← py_mod current_frame len_beat;
  if decide (position_in_beat + frames >= len_beat) then mret true
  else mret false.

Definition is_in_first_half_of_beat (current_frame len_beat : Z)
  : result bool :=
  half_beat ← py_int_truediv len_beat 2;
  position_in_beat ← py_mod current_frame len_beat;
  if decide (position_in_beat <= half_beat) then mret true
  else mret false.

(** ** lib/tracks.py *)

Module RecordedTrack.

Record t := mk {
  data : list Frame;
  first_frame_time : option Z;
  start_rec_time : option Z;
  stop_rec_time : option Z
}.

Definition init : t :=
  {| data := []; first_frame_time := None; start_rec_time := None;
     stop_rec_time := None |}.

Definition set_data (self : t) (d : list Frame) : t :=
  {| data := d; first_frame_time := first_frame_time self;
     start_rec_time := start_rec_time self;
     stop_rec_time := stop_rec_time self |}.

Definition set_first_frame_time (self : t) (v : Z) : t :=
  {| data := data self; first_frame_time := Some v;
     start_rec_time := start_rec_time self;
     stop_rec_time := stop_rec_time self |}.

Definition set_start_rec_time (self : t) (v : Z) : t :=
  {| data := data self; first_frame_time := first_frame_time self;
     start_rec_time := Some v; stop_rec_time := stop_rec_time self |}.

Definition set_stop_rec_time (self : t) (v : Z) : t :=
  {| data := data self; first_frame_time := first_frame_time self;
     start_rec_time := start_rec_time self; stop_rec_time := Some v |}.

(** [np.concatenate] builds a new array: nothing is shared with [d]. *)
Definition append (self : t) (d : list Frame) : t :=
  set_data self (data self ++ d).

(** [data.size] counts samples: frames times [CHANNELS]. *)
Definition is_complete (self : t) : bool :=
  bool_decide (first_frame_time self ≠ None)
  && bool_decide (start_rec_time self ≠ None)
  && bool_decide (stop_rec_time self ≠ None)
  && bool_decide (len (data self) * CHANNELS ≠ 0).

End RecordedTrack.

Module PlayingTrack.

Record t := mk {
  data : list Frame;
  _playing_from_frame : Z;
  _length : Z
}.

Definition init (data : list Frame) (playing_from_frame : Z) : t :=
  {| data := data; _playing_from_frame := playing_from_frame;
     _length := len data |}.

Definition set_playing_from_frame (self : t) (playing_from_frame : Z) : t :=
  {| data := data self; _playing_from_frame := playing_from_frame;
     _length := _length self |}.

Definition slice (self : t) (from_frame frames : Z) : result (list Frame) :=
  let from_frame := from_frame - _playing_from_frame self in
  start ← py_mod from_frame (_length self);
  end_ ← py_mod (from_frame + frames) (_length self);
  if decide (end_ < start) then
    mret (py_slice (data self) (Some start) None
            ++ py_slice (data self) None (Some end_))
  else
    mret (py_slice (data self) (Some start) (Some end_)).

End PlayingTrack.

(** ** lib/lem.py *)

Module Lem.

(** The beat length of [Lem.__init__]: [int(60*SAMPLERATE/bpm)]. *)
Definition _len_beat (bpm : Z) : result Z :=
  py_int_truediv (60 * SAMPLERATE) bpm.

End Lem.

(** The fields of [sd.CallbackFlags]. *)
Record CallbackFlags := mkFlags {
  input_underflow : bool;
  input_overflow : bool;
  output_underflow : bool;
  output_overflow : bool;
  priming_output : bool
}.

(** [np.mean(a, axis=0)] of arrays of frames, stored into an int16 array:
    all arrays must have one shape; each sample of the result is the mean
    of the samples at its place, truncated towards zero by the store. *)
Definition add_frame (x y : Frame) : Frame := (x.1 + y.1, x.2 + y.2).

Definition div_frame (k : Z) (x : Frame) : Frame :=
  (Z.quot x.1 k, Z.quot x.2 k).

Definition add_frames (a b : list Frame) : list Frame :=
  zip_with add_frame a b.

Definition np_mean (arrays : list (list Frame)) : result (list Frame) :=
  match arrays with
  | [] => Raise ValueError
  | a :: rest =>
      if forallb (fun r => bool_decide (len r = len a)) rest then
        Ok (div_frame (len arrays) <$> foldl add_frames a rest)
      else Raise ValueError
  end.

Module LoopStreamManager.

Record t := mk {
  _len_beat : Z;
  _current_frame : Z;
  _event_queue : Queue.t UserRecordingEvents;
  _recording : bool;
  _stopping_recording : bool;
  _tracks : list PlayingTrack.t;
  _tracks_copy : list PlayingTrack.t;
  _last_beat : AudioCircularBuffer.t;
  _recorded_track : RecordedTrack.t;
  _recorded_tracks_queue : Queue.t RecordedTrack.t
}.

(** The fields as [__init__] sets them; [mem] is the uninitialised memory
    of the pre-roll buffer. *)
Definition fresh (len_beat : Z) (mem : list Frame) : t :=
  {| _len_beat := len_beat;
     _current_frame := 0;
     _event_queue := Queue.init;
     _recording := false;
     _stopping_recording := false;
     _tracks := [];
     _tracks_copy := [];
     _last_beat := AudioCircularBuffer.init len_beat mem;
     _recorded_track := RecordedTrack.init;
     _recorded_tracks_queue := Queue.init |}.

Definition init (len_beat : Z) (mem : list Frame) : result t :=
  if decide (len_beat < 0) then Raise ValueError
  else mret (fresh len_beat mem).

Definition set_current_frame (self : t) (v : Z) : t :=
  mk (_len_beat self) v (_event_queue self) (_recording self)
     (_stopping_recording self) (_tracks self) (_tracks_copy self)
     (_last_beat self) (_recorded_track self) (_recorded_tracks_queue self).

Definition set_event_queue (self : t) (v : Queue.t UserRecordingEvents) : t :=
  mk (_len_beat self) (_current_frame self) v (_recording self)
     (_stopping_recording self) (_tracks self) (_tracks_copy self)
     (_last_beat self) (_recorded_track self) (_recorded_tracks_queue self).

Definition set_recording (self : t) (v : bool) : t :=
  mk (_len_beat self) (_current_frame self) (_event_queue self) v
     (_stopping_recording self) (_tracks self) (_tracks_copy self)
     (_last_beat self) (_recorded_track self) (_recorded_tracks_queue self).

Definition set_stopping_recording (self : t) (v : bool) : t :=
  mk (_len_beat self) (_current_frame self) (_event_queue self)
     (_recording self) v (_tracks self) (_tracks_copy self)
     (_last_beat self) (_recorded_track self) (_recorded_tracks_queue self).

Definition set_tracks (self : t) (v w : list PlayingTrack.t) : t :=
  mk (_len_beat self) (_current_frame self) (_event_queue self)
     (_recording self) (_stopping_recording self) v w
     (_last_beat self) (_recorded_track self) (_recorded_tracks_queue self).

Definition set_last_beat (self : t) (v : AudioCircularBuffer.t) : t :=
  mk (_len_beat self) (_current_frame self) (_event_queue self)
     (_recording self) (_stopping_recording self) (_tracks self)
     (_tracks_copy self) v (_recorded_track self)
     (_recorded_tracks_queue self).

Definition set_recorded_track (self : t) (v : RecordedTrack.t) : t :=
  mk (_len_beat self) (_current_frame self) (_event_queue self)
     (_recording self) (_stopping_recording self) (_tracks self)
     (_tracks_copy self) (_last_beat self) v (_recorded_tracks_queue self).

Definition set_recorded_tracks_queue (self : t)
  (v : Queue.t RecordedTrack.t) : t :=
  mk (_len_beat self) (_current_frame self) (_event_queue self)
     (_recording self) (_stopping_recording self) (_tracks self)
     (_tracks_copy self) (_last_beat self) (_recorded_track self) v.

(** *** The control context *)

Definition update_tracks (self : t) (tracks : list PlayingTrack.t) : t :=
  set_tracks self tracks (_tracks self).

Definition start_recording (self : t) : t :=
  set_event_queue self (Queue.push (_event_queue self) START).

Definition post_production (self : t) (recorded_track : RecordedTrack.t)
  : result (option PlayingTrack.t) :=
  if negb (RecordedTrack.is_complete recorded_track) then
    Raise IncompleteRecordedTrackError
  else
    match RecordedTrack.first_frame_time recorded_track,
          RecordedTrack.start_rec_time recorded_track,
          RecordedTrack.stop_rec_time recorded_track with
    | Some first, Some start, Some stop =>
        let data := RecordedTrack.data recorded_track in
        (* the debug message computes the frames over a beat *)
        _ ← py_mod (len data) (_len_beat self);
        let length := len data in
        half_beat ← py_int_truediv (_len_beat self) 2;
        (* round the start *)
        let '(start, first) :=
          if decide (start - first < half_beat) then (0, first)
          else (_len_beat self, first + _len_beat self) in
        (* round the stop *)
        offset ← py_mod (stop - first) (_len_beat self);
        let stop :=
          if decide (offset < half_beat) then length - _len_beat self
          else length in
        (* cut the audio *)
        let data := py_slice data (Some start) (Some stop) in
        if decide (len data ≠ 0) then
          mret (Some (PlayingTrack.init data first))
        else mret None
    | _, _, _ => Raise IncompleteRecordedTrackError
    end.

(** [stop_recording] up to its wait loop: the STOP event is pushed. *)
Definition stop_recording_push (self : t) : t :=
  set_event_queue self (Queue.push (_event_queue self) STOP).

(** [stop_recording] after its wait loop, which ends when the queue of
    recorded tracks is not empty: the raw track is popped and handed to
    [post_production].  [None] while the loop is still waiting. *)
Definition stop_recording_pop (self : t)
  : option (t * result (option PlayingTrack.t)) :=
  match Queue.pop (_recorded_tracks_queue self) with
  | None => None
  | Some (raw_track, q) =>
      Some (set_recorded_tracks_queue self q, post_production self raw_track)
  end.

(** *** The stream thread *)

Definition _prepare_new_recording (self : t) : t :=
  set_stopping_recording
    (set_recording (set_recorded_track self RecordedTrack.init) false) false.

Definition _finish_recording (self : t) : t :=
  _prepare_new_recording
    (set_recorded_tracks_queue self
       (Queue.push (_recorded_tracks_queue self) (_recorded_track self))).

Definition _initialize_recording (self : t) : t :=
  let self :=
    if _stopping_recording self then _prepare_new_recording self else self in
  let rt := _recorded_track self in
  let rt := RecordedTrack.set_first_frame_time rt
              (_current_frame self
               - AudioCircularBuffer.position (_last_beat self)) in
  let rt := RecordedTrack.set_start_rec_time rt (_current_frame self) in
  let rt := RecordedTrack.append rt
              (AudioCircularBuffer.start_to_index (_last_beat self)) in
  set_recording (set_recorded_track self rt) true.

Definition _stop_recording (self : t) : result t :=
  let self :=
    set_recorded_track self
      (RecordedTrack.set_stop_rec_time (_recorded_track self)
         (_current_frame self)) in
  first_half ←
    is_in_first_half_of_beat (_current_frame self) (_len_beat self);
  match first_half with
  | true =>
      (* fill the track to a beat *)
      position_in_beat ← py_mod (_current_frame self) (_len_beat self);
      zeros ← np_zeros (_len_beat self - position_in_beat);
      mret (_finish_recording
              (set_recorded_track self
                 (RecordedTrack.append (_recorded_track self) zeros)))
  | false =>
      mret (set_stopping_recording self true)
  end.

Fixpoint slices (tracks : list PlayingTrack.t) (from_frame frames : Z)
  : result (list (list Frame)) :=
  match tracks with
  | [] => mret []
  | track :: rest =>
      s ← PlayingTrack.slice track from_frame frames;
      ss ← slices rest from_frame frames;
      mret (s :: ss)
  end.

(** [locked] is what [self._tracks_lock.locked()] answers in this cycle. *)
Definition slice_and_mix (self : t) (locked : bool) (indata : list Frame)
  (frames : Z) : result (list Frame) :=
  let tracks := if negb locked then _tracks self else _tracks_copy self in
  sliced_data ← slices tracks (_current_frame self) frames;
  np_mean (indata :: sliced_data).

(** The events of the queue change the state. *)
Definition handle_event (self : t) : result t :=
  match Queue.pop (_event_queue self) with
  | None => mret self
  | Some (event, q) =>
      let self := set_event_queue self q in
      match event with
      | START => mret (_initialize_recording self)
      | STOP => _stop_recording self
      end
  end.

(** Cut off the few frames over a beat and finish, when the beat falls into
    this cycle. *)
Definition finish_on_beat (self : t) (frames : Z) : result t :=
  if _stopping_recording self then
    beat ← on_beat (_current_frame self) (_len_beat self) frames;
    match beat with
    | true =>
        let data := RecordedTrack.data (_recorded_track self) in
        over ← py_mod (len data) (_len_beat self);
        mret (_finish_recording
                (set_recorded_track self
                   (RecordedTrack.set_data (_recorded_track self)
                      (py_slice data None (Some (len data - over))))))
    | false => mret self
    end
  else mret self.

(** While recording, the input is stored. *)
Definition record_indata (self : t) (indata : list Frame) : t :=
  if _recording self then
    set_recorded_track self
      (RecordedTrack.append (_recorded_track self) indata)
  else self.

(** The stream's callback; it returns the new state and the new content of
    [outdata].  The [time] argument is not used. *)
Definition callback (self : t) (locked : bool) (indata outdata : list Frame)
  (frames : Z) (status : CallbackFlags) : result (t * list Frame) :=
  if output_underflow status then
    mret (self, (fun _ => silence) <$> outdata)
  else
    self ← handle_event self;
    let self := record_indata self indata in
    self ← finish_on_beat self frames;
    last_beat ← AudioCircularBuffer.write (_last_beat self) indata;
    let self := set_last_beat self last_beat in
    mixed ← slice_and_mix self locked indata frames;
    outdata ← py_setslice outdata None None mixed;
    mret (set_current_frame self (_current_frame self + frames), outdata).

End LoopStreamManager.

(** ** Executions of the engine *)

(** The two-state record button of [lib/gui_classes.py]. *)
Module RecordButton.

Inductive state := waiting | recording.

(** [_clicked]: the command the click sends, and the new state. *)
Definition _clicked (_state : state) : UserRecordingEvents * state :=
  match _state with
  | waiting => (START, recording)
  | recording => (STOP, waiting)
  end.

End RecordButton.

Module Engine.

(** What the stream hands to one call of the callback: the buffers, both of
    [frames] rows, the flags, and whether the lock of the tracks is held. *)
Record Cycle := mkCycle {
  indata : list Frame;
  outdata : list Frame;
  status : CallbackFlags;
  locked : bool
}.

(** What happens to a stream manager: the control context pushes a command
    ([start_recording], [stop_recording]), takes a recorded track
    ([stop_recording] after its wait), changes the lists of tracks
    ([update_tracks], or an append to the list the manager shares), or the
    stream calls the callback. *)
Inductive action :=
| Push (e : UserRecordingEvents)
| Pop
| Tracks (tracks tracks_copy : list PlayingTrack.t)
| Tick (c : Cycle).

(** One action; with the state come the recorded tracks the action pushed
    to the queue of recorded tracks. *)
Definition step (self : LoopStreamManager.t) (a : action)
  : result (LoopStreamManager.t * list RecordedTrack.t) :=
  match a with
  | Push START => mret (LoopStreamManager.start_recording self, [])
  | Push STOP => mret (LoopStreamManager.stop_recording_push self, [])
  | Pop =>
      match LoopStreamManager.stop_recording_pop self with
      | None => mret (self, [])
      | Some (self', _) => mret (self', [])
      end
  | Tracks tracks tracks_copy =>
      mret (LoopStreamManager.set_tracks self tracks tracks_copy, [])
  | Tick c =>
      r ← LoopStreamManager.callback self (locked c) (indata c) (outdata c)
            (len (indata c)) (status c);
      mret (r.1,
            drop (length (LoopStreamManager._recorded_tracks_queue self))
              (LoopStreamManager._recorded_tracks_queue r.1))
  end.

Fixpoint run (self : LoopStreamManager.t) (acts : list action)
  : result (LoopStreamManager.t * list RecordedTrack.t) :=
  match acts with
  | [] => mret (self, [])
  | a :: rest =>
      r1 ← step self a;
      r2 ← run r1.1 rest;
      mret (r2.1, r1.2 ++ r2.2)
  end.

(** The commands of [acts] are those of clicks on the record button, which
    is in state [b] before them: START and STOP take turns. *)
Fixpoint clicked (b : RecordButton.state) (acts : list action) : bool :=
  match acts with
  | [] => true
  | Push e :: rest =>
      bool_decide (e = (RecordButton._clicked b).1)
      && clicked (RecordButton._clicked b).2 rest
  | _ :: rest => clicked b rest
  end.

End Engine.

(** ** Invariants *)

(** [b] holds the last [_length] frames of the stream [w] written to it,
    each at its place modulo [_length]. *)
Definition holds (b : AudioCircularBuffer.t) (w : list Frame) : Prop :=
  AudioCircularBuffer.wf b
  ∧ AudioCircularBuffer._index b
    = len w `mod` AudioCircularBuffer._length b
  ∧ ∀ j : nat,
      len w - AudioCircularBuffer._length b <= Z.of_nat j < len w →
      AudioCircularBuffer._data b
        !! Z.to_nat (Z.of_nat j `mod` AudioCircularBuffer._length b)
      = w !! j.

(** The rounding of the spec: [n] is an integer nearest to the quotient
    [a / b], for [b > 0]. *)
Definition nearest_integer (a b n : Z) : Prop := 2 * Z.abs (n * b - a) <= b.

(** The stream manager can run its callback: the beat has a length, and
    the pre-roll buffer is one beat long. *)
Definition sound (self : LoopStreamManager.t) : Prop :=
  0 < LoopStreamManager._len_beat self
  ∧ AudioCircularBuffer.wf (LoopStreamManager._last_beat self)
  ∧ AudioCircularBuffer._length (LoopStreamManager._last_beat self)
    = LoopStreamManager._len_beat self.

(** The part of the state that the handling of events and the recording
    leave alone. *)
Definition same_engine (s s' : LoopStreamManager.t) : Prop :=
  LoopStreamManager._len_beat s' = LoopStreamManager._len_beat s
  ∧ LoopStreamManager._current_frame s' = LoopStreamManager._current_frame s
  ∧ LoopStreamManager._tracks s' = LoopStreamManager._tracks s
  ∧ LoopStreamManager._tracks_copy s' = LoopStreamManager._tracks_copy s
  ∧ LoopStreamManager._last_beat s' = LoopStreamManager._last_beat s.

(** The cycle fits the engine: the block is at most one beat long, the
    output block is as long as the input block, and the tracks can be
    mixed. *)
Definition fits (self : LoopStreamManager.t) (locked : bool)
  (indata outdata : list Frame) (frames : Z) : Prop :=
  len indata <= LoopStreamManager._len_beat self
  ∧ len outdata = len indata
  ∧ ∃ mixed,
      LoopStreamManager.slice_and_mix self locked indata frames = Ok mixed.

(** The cursor of the pre-roll buffer is the place of the current frame in
    its beat. *)
Definition on_grid (self : LoopStreamManager.t) : Prop :=
  sound self
  ∧ AudioCircularBuffer._index (LoopStreamManager._last_beat self)
    = LoopStreamManager._current_frame self
        `mod` LoopStreamManager._len_beat self.

(** The state of the record button after the clicks that sent the commands
    [q], from the state [p]; nothing if [q] is not what clicks send. *)
Fixpoint clicks (p : RecordButton.state) (q : list UserRecordingEvents)
  : option RecordButton.state :=
  match q with
  | [] => Some p
  | e :: q =>
      if decide (e = (RecordButton._clicked p).1)
      then clicks (RecordButton._clicked p).2 q
      else None
  end.

(** The state of the record button that the machine has followed so far:
    it records, with no Stop yet, when the button was last clicked to
    record. *)
Definition phase (self : LoopStreamManager.t) : RecordButton.state :=
  if LoopStreamManager._recording self
     && negb (LoopStreamManager._stopping_recording self)
  then RecordButton.recording
  else RecordButton.waiting.

(** While the machine records, the capture begins on a beat and holds the
    frames from its first frame to [now]. *)
Definition capturing (now : Z) (self : LoopStreamManager.t) : Prop :=
  LoopStreamManager._recording self = true →
  ∃ first start,
    RecordedTrack.first_frame_time (LoopStreamManager._recorded_track self)
    = Some first
    ∧ RecordedTrack.start_rec_time (LoopStreamManager._recorded_track self)
      = Some start
    ∧ first `mod` LoopStreamManager._len_beat self = 0
    ∧ first <= now
    ∧ len (RecordedTrack.data (LoopStreamManager._recorded_track self))
      = now - first.

(** While the machine does not record, it does not drain, and its capture
    is a new one. *)
Definition idle (self : LoopStreamManager.t) : Prop :=
  LoopStreamManager._recording self = false →
  LoopStreamManager._stopping_recording self = false
  ∧ LoopStreamManager._recorded_track self = RecordedTrack.init.

(** While the machine drains, the capture has its stop time. *)
Definition draining (self : LoopStreamManager.t) : Prop :=
  LoopStreamManager._stopping_recording self = true →
  is_Some
    (RecordedTrack.stop_rec_time (LoopStreamManager._recorded_track self)).

(** The state of the machine at time [now], apart from its queues. *)
Definition recorder (now : Z) (self : LoopStreamManager.t) : Prop :=
  capturing now self ∧ idle self ∧ draining self.

(** The state of an engine whose commands come from the record button,
    which is in state [b]. *)
Definition disciplined (b : RecordButton.state) (self : LoopStreamManager.t)
  : Prop :=
  on_grid self
  ∧ recorder (LoopStreamManager._current_frame self) self
  ∧ clicks (phase self) (LoopStreamManager._event_queue self) = Some b.

(** A recorded track as the queue of recorded tracks should get it:
    complete, and whole beats long. *)
Definition finished (len_beat : Z) (rt : RecordedTrack.t) : Prop :=
  RecordedTrack.is_complete rt = true
  ∧ len (RecordedTrack.data rt) `mod` len_beat = 0.

(** The state of the record button after the action. *)
Definition after (b : RecordButton.state) (a : Engine.action)
  : RecordButton.state :=
  match a with
  | Engine.Push _ => (RecordButton._clicked b).2
  | _ => b
  end.

(** Running the binds of [result]. *)
Ltac bind := unfold mret, result_ret; cbn [mbind result_bind fst snd].
Tactic Notation "bind" "in" hyp(H) :=
  unfold mret, result_ret in H; cbn [mbind result_bind fst snd] in H.

(** The frames that the cycles of [acts] process: the blocks of the cycles
    without output underflow. *)
Fixpoint processed (acts : list Engine.action) : Z :=
  match acts with
  | [] => 0
  | Engine.Tick c :: rest =>
      (if output_underflow (Engine.status c) then 0
       else len (Engine.indata c))
      + processed rest
  | _ :: rest => processed rest
  end.

(** [n] calls of [pop], with the items they return, oldest first; nothing
    if the queue runs out. *)
Fixpoint pops {A} (n : nat) (q : Queue.t A) : option (list A * Queue.t A) :=
  match n with
  | O => Some ([], q)
  | S n =>
      match Queue.pop q with
      | None => None
      | Some (x, q') =>
          match pops n q' with
          | None => None
          | Some (xs, q'') => Some (x :: xs, q'')
          end
      end
  end.

(** The beat of the grid at or before the frame [x]. *)
Definition beat_floor (len_beat x : Z) : Z := x - x `mod` len_beat.

(** The beat of the grid that [post_production] takes for the frame [x]:
    the beat before [x] when [x] is in the first half of its beat, short of
    the middle, and the beat after [x] otherwise. *)
Definition beat_round (len_beat x : Z) : Z :=
  if decide (x `mod` len_beat < len_beat `div` 2)
  then beat_floor len_beat x
  else beat_floor len_beat x + len_beat.

(** While the machine records, at time [now], the capture began on the
    beat before its Start command; while it drains, the Stop command came
    in the beat that is running. *)
Definition timed (now : Z) (self : LoopStreamManager.t) : Prop :=
  LoopStreamManager._recording self = true →
  ∃ start,
    RecordedTrack.first_frame_time (LoopStreamManager._recorded_track self)
    = Some (beat_floor (LoopStreamManager._len_beat self) start)
    ∧ RecordedTrack.start_rec_time (LoopStreamManager._recorded_track self)
      = Some start
    ∧ start <= now
    ∧ (LoopStreamManager._stopping_recording self = true →
       ∃ stop,
         RecordedTrack.stop_rec_time (LoopStreamManager._recorded_track self)
         = Some stop
         ∧ start <= stop
         ∧ beat_floor (LoopStreamManager._len_beat self) stop
           = beat_floor (LoopStreamManager._len_beat self) now).

(** A recorded track as the machine makes it from a Start at frame [start]
    and a Stop at frame [stop]: it begins on the beat before the Start and
    ends on the beat after the Stop. *)
Definition raw (len_beat : Z) (rt : RecordedTrack.t) : Prop :=
  ∃ start stop,
    RecordedTrack.start_rec_time rt = Some start
    ∧ RecordedTrack.stop_rec_time rt = Some stop
    ∧ start <= stop
    ∧ RecordedTrack.first_frame_time rt = Some (beat_floor len_beat start)
    ∧ len (RecordedTrack.data rt)
      = beat_floor len_beat stop + len_beat - beat_floor len_beat start.

(** ** lib/lem.py, class [Lem] *)

(** [l.pop(i)] on a Python list: a negative index counts from the end;
    nothing ([IndexError]) when the index is out of range. *)
Definition py_pop {A} (l : list A) (i : Z) : option (A * list A) :=
  let j := if decide (i < 0) then i + len l else i in
  if decide (0 <= j < len l) then
    match l !! Z.to_nat j with
    | Some x => Some (x, delete (Z.to_nat j) l)
    | None => None
    end
  else None.

Module LemState.

(** The exceptions of the class: its own, that of [list.pop], and those of
    the stream manager and of the arithmetic. *)
Inductive error :=
| InvalidSamplerateError
| IndexError
| Other (e : exn).

Inductive outcome (A : Type) :=
| Done (a : A)
| Failed (e : error).
Arguments Done {A} a.
Arguments Failed {A} e.

Definition lift {A} (r : result A) : outcome A :=
  match r with
  | Ok a => Done a
  | Raise e => Failed (Other e)
  end.

Definition and_then {A B} (m : outcome A) (f : A → outcome B) : outcome B :=
  match m with
  | Done a => f a
  | Failed e => Failed e
  end.

(** The object and what it refers to.  The list [_tracks] is one object,
    changed in place by [append] and [pop]; [update_tracks] hands that same
    object to the stream manager, whose [_tracks] and [_tracks_copy] are
    then references to it.  [shares_tracks] and [shares_tracks_copy] tell
    whether the manager's [_tracks] and [_tracks_copy] are this object
    (if not, they are the manager's own first list, which nothing
    changes). *)
Record t := mk {
  _len_beat : Z;
  _stream_manager : LoopStreamManager.t;
  _tracks : list PlayingTrack.t;
  shares_tracks : bool;
  shares_tracks_copy : bool
}.

Definition set_stream_manager (self : t) (m : LoopStreamManager.t) : t :=
  mk (_len_beat self) m (_tracks self) (shares_tracks self)
     (shares_tracks_copy self).

(** A change of the list object in place: every reference to it sees the
    new content. *)
Definition change_tracks (self : t) (tracks : list PlayingTrack.t) : t :=
  let m := _stream_manager self in
  mk (_len_beat self)
     (LoopStreamManager.set_tracks m
        (if shares_tracks self then tracks
         else LoopStreamManager._tracks m)
        (if shares_tracks_copy self then tracks
         else LoopStreamManager._tracks_copy m))
     tracks (shares_tracks self) (shares_tracks_copy self).

(** [self._stream_manager.update_tracks(tracks=self._tracks)]: the
    manager's [_tracks_copy] becomes what its [_tracks] referred to, and
    its [_tracks] the list object of [self]. *)
Definition _update_tracks (self : t) : t :=
  mk (_len_beat self)
     (LoopStreamManager.update_tracks (_stream_manager self) (_tracks self))
     (_tracks self) true (shares_tracks self).

(** [sample] and [samplerate] are what [sf.read] returns for the file of
    the metronome, a stereo file. *)
Definition initialize_metronome (self : t) (sample : list Frame)
  (samplerate : Z) : outcome t :=
  if decide (samplerate ≠ SAMPLERATE) then Failed InvalidSamplerateError
  else
    and_then
      (if decide (len sample <= _len_beat self) then
         and_then (lift (np_zeros (_len_beat self - len sample)))
           (fun zeros => Done (sample ++ zeros))
       else Done (py_slice sample None (Some (_len_beat self))))
      (fun sample =>
         Done (_update_tracks
                 (change_tracks self
                    (_tracks self ++ [PlayingTrack.init sample 0])))).

(** [Lem.__init__]; the start of the stream thread changes no field. *)
Definition init (bpm : Z) (mem sample : list Frame) (samplerate : Z)
  : outcome t :=
  and_then (lift (Lem._len_beat bpm)) (fun len_beat =>
  and_then (lift (LoopStreamManager.init len_beat mem)) (fun manager =>
  initialize_metronome (mk len_beat manager [] false false)
    sample samplerate)).

Definition start_recording (self : t) : t :=
  set_stream_manager self
    (LoopStreamManager.start_recording (_stream_manager self)).

(** [stop_recording] up to the wait loop of the manager. *)
Definition stop_recording_push (self : t) : t :=
  set_stream_manager self
    (LoopStreamManager.stop_recording_push (_stream_manager self)).

(** [stop_recording] after the wait loop: with the new state, what the
    method returns.  [None] while the loop is still waiting. *)
Definition stop_recording_finish (self : t) : option (outcome (t * bool)) :=
  match LoopStreamManager.stop_recording_pop (_stream_manager self) with
  | None => None
  | Some (manager, recorded_track) =>
      let self := set_stream_manager self manager in
      Some (and_then (lift recorded_track) (fun recorded_track =>
              match recorded_track with
              | None => Done (self, false)
              | Some track =>
                  Done (_update_tracks
                          (change_tracks self (_tracks self ++ [track])),
                        true)
              end))
  end.

Definition delete_track (self : t) (idx : Z) : outcome t :=
  match py_pop (_tracks self) (idx + 1) with
  | None => Failed IndexError
  | Some (_, tracks) => Done (_update_tracks (change_tracks self tracks))
  end.

(** One call of the callback of the stream. *)
Definition tick (self : t) (c : Engine.Cycle) : outcome t :=
  and_then
    (lift (LoopStreamManager.callback (_stream_manager self)
             (Engine.locked c) (Engine.indata c) (Engine.outdata c)
             (len (Engine.indata c)) (Engine.status c)))
    (fun r => Done (set_stream_manager self r.1)).

(** What happens to the object: the methods the record button and the
    list of tracks call, and the cycles of the stream. *)
Inductive action :=
| StartRecording
| StopRecording
| Finish
| DeleteTrack (idx : Z)
| Tick (c : Engine.Cycle).

Definition step (self : t) (a : action) : outcome t :=
  match a with
  | StartRecording => Done (start_recording self)
  | StopRecording => Done (stop_recording_push self)
  | Finish =>
      match stop_recording_finish self with
      | None => Done self
      | Some r => and_then r (fun r => Done r.1)
      end
  | DeleteTrack idx => delete_track self idx
  | Tick c => tick self c
  end.

Fixpoint run (self : t) (acts : list action) : outcome t :=
  match acts with
  | [] => Done self
  | a :: rest => and_then (step self a) (fun self => run self rest)
  end.

(** The commands of [acts] are those of clicks on the record button, which
    is in state [b] before them. *)
Fixpoint clicked (b : RecordButton.state) (acts : list action) : bool :=
  match acts with
  | [] => true
  | StartRecording :: rest =>
      bool_decide ((RecordButton._clicked b).1 = START)
      && clicked (RecordButton._clicked b).2 rest
  | StopRecording :: rest =>
      bool_decide ((RecordButton._clicked b).1 = STOP)
      && clicked (RecordButton._clicked b).2 rest
  | _ :: rest => clicked b rest
  end.

End LemState.

(** The stream manager plays the list of the [Lem] object: its [_tracks]
    is that list, and its [_tracks_copy] is that list too, or still the
    empty list it began with. *)
Definition in_sync (self : LemState.t) : Prop :=
  LemState.shares_tracks self = true
  ∧ LoopStreamManager._tracks (LemState._stream_manager self)
    = LemState._tracks self
  ∧ LoopStreamManager._tracks_copy (LemState._stream_manager self)
    = (if LemState.shares_tracks_copy self then LemState._tracks self
       else []).

(** A track that can loop on the grid: it knows its length, it is not
    empty, and it is whole beats long. *)
Definition whole_beats (len_beat : Z) (t : PlayingTrack.t) : Prop :=
  PlayingTrack._length t = len (PlayingTrack.data t)
  ∧ 0 < PlayingTrack._length t
  ∧ PlayingTrack._length t `mod` len_beat = 0.

(** The state of a [Lem] object whose commands come from the record
    button, which is in state [b]. *)
Definition looping (b : RecordButton.state) (self : LemState.t) : Prop :=
  in_sync self
  ∧ disciplined b (LemState._stream_manager self)
  ∧ LoopStreamManager._len_beat (LemState._stream_manager self)
    = LemState._len_beat self
  ∧ Forall (finished (LemState._len_beat self))
      (LoopStreamManager._recorded_tracks_queue
         (LemState._stream_manager self))
  ∧ Forall (whole_beats (LemState._len_beat self)) (LemState._tracks self).

(** The state of the record button after the action on the [Lem]
    object. *)
Definition after_lem (b : RecordButton.state) (a : LemState.action)
  : RecordButton.state :=
  match a with
  | LemState.StartRecording | LemState.StopRecording =>
      (RecordButton._clicked b).2
  | _ => b
  end.

(** * Properties *)

(** ** Slices *)

Section slices.
Context {A : Type}.
Implicit Types l src : list A.

Lemma len_nonneg l : 0 <= len l.
Proof. unfold len. lia. Qed.

Lemma len_app l1 l2 : len (l1 ++ l2) = len l1 + len l2.
Proof. unfold len. rewrite length_app. lia. Qed.

Lemma len_replicate (n : Z) (x : A) :
  0 <= n → len (replicate (Z.to_nat n) x) = n.
Proof. intros. unfold len. rewrite length_replicate. lia. Qed.

Lemma py_bound_in (n i : Z) : 0 <= i <= n → py_bound n i = i.
Proof. intros. unfold py_bound. case_decide; lia. Qed.

Lemma py_slice_to l k :
  0 <= k <= len l → py_slice l None (Some k) = take (Z.to_nat k) l.
Proof.
  intros Hk. unfold py_slice. cbn [from_option].
  rewrite py_bound_in by lia. by rewrite Z.sub_0_r.
Qed.

Lemma py_slice_from l k :
  0 <= k <= len l → py_slice l (Some k) None = drop (Z.to_nat k) l.
Proof.
  intros Hk. unfold py_slice. cbn [from_option].
  rewrite py_bound_in by lia.
  apply take_ge. rewrite length_drop. unfold len in *. lia.
Qed.

Lemma py_slice_range l a b :
  0 <= a → a <= b → b <= len l →
  py_slice l (Some a) (Some b) = take (Z.to_nat (b - a)) (drop (Z.to_nat a) l).
Proof.
  intros Ha Hab Hb. unfold py_slice. cbn [from_option].
  by rewrite !py_bound_in by lia.
Qed.

Lemma py_setslice_range l a b src :
  0 <= a → a <= b → b <= len l → len src = b - a →
  py_setslice l (Some a) (Some b) src
  = Ok (take (Z.to_nat a) l ++ src ++ drop (Z.to_nat b) l).
Proof.
  intros Ha Hab Hb Hs. unfold py_setslice. cbn [from_option].
  rewrite !py_bound_in by lia. rewrite Z.max_r by lia.
  by rewrite decide_True by lia.
Qed.

Lemma py_setslice_from l a src :
  0 <= a <= len l → len src = len l - a →
  py_setslice l (Some a) None src = Ok (take (Z.to_nat a) l ++ src).
Proof.
  intros Ha Hs. unfold py_setslice. cbn [from_option].
  rewrite !py_bound_in by lia. rewrite Z.max_r by lia.
  rewrite decide_True by lia.
  rewrite drop_ge; [by rewrite app_nil_r | unfold len; lia].
Qed.

Lemma py_setslice_to l b src :
  0 <= b <= len l → len src = b →
  py_setslice l None (Some b) src = Ok (src ++ drop (Z.to_nat b) l).
Proof.
  intros Hb Hs. unfold py_setslice. cbn [from_option].
  rewrite !py_bound_in by lia. rewrite Z.max_r by lia.
  by rewrite decide_True by lia.
Qed.

Lemma py_setslice_all l src :
  len src = len l → py_setslice l None None src = Ok src.
Proof.
  intros Hs. pose proof (len_nonneg l). unfold py_setslice.
  cbn [from_option]. rewrite Z.max_r by lia.
  rewrite decide_True by lia. cbn [Z.to_nat take app].
  rewrite drop_ge; [by rewrite app_nil_r | unfold len; lia].
Qed.

End slices.

(** ** The circular buffer *)

Lemma mod_sub_cases (C p i : Z) :
  0 <= p < C → 0 <= i < C →
  (p - i) `mod` C = if decide (i <= p) then p - i else p - i + C.
Proof.
  intros Hp Hi. case_decide.
  - apply Z.mod_small. lia.
  - rewrite <- (Z_mod_plus_full (p - i) 1 C).
    rewrite Z.mul_1_l. apply Z.mod_small. lia.
Qed.

Lemma write_lookup (b : AudioCircularBuffer.t) (chunk : list Frame) :
  AudioCircularBuffer.wf b →
  len chunk <= AudioCircularBuffer._length b →
  ∃ b', AudioCircularBuffer.write b chunk = Ok b'
    ∧ AudioCircularBuffer._length b' = AudioCircularBuffer._length b
    ∧ len (AudioCircularBuffer._data b') = AudioCircularBuffer._length b
    ∧ AudioCircularBuffer._index b'
      = (AudioCircularBuffer._index b + len chunk)
          `mod` AudioCircularBuffer._length b
    ∧ ∀ p : nat, Z.of_nat p < AudioCircularBuffer._length b →
        AudioCircularBuffer._data b' !! p
        = let t := (Z.of_nat p - AudioCircularBuffer._index b)
                     `mod` AudioCircularBuffer._length b in
          if decide (t < len chunk) then chunk !! Z.to_nat t
          else AudioCircularBuffer._data b !! p.
Proof.
  destruct b as [C l i]. unfold AudioCircularBuffer.wf. cbn.
  intros [Hl Hi] Hm. pose proof (len_nonneg chunk) as Hc.
  unfold AudioCircularBuffer.write. cbn.
  rewrite decide_False by lia.
  unfold py_mod. rewrite (decide_False (P := C = 0)) by lia.
  destruct (decide (i + len chunk > C)) as [Hw|Hw].
  - (* the data wraps *)
    rewrite (py_slice_to chunk) by lia.
    rewrite (py_slice_from chunk) by lia.
    rewrite py_setslice_from; [|lia|].
    2:{ unfold len in *. rewrite length_take. lia. }
    cbn. rewrite py_setslice_to.
    2:{ rewrite len_app. unfold len in *. rewrite length_take. lia. }
    2:{ unfold len in *. rewrite length_drop. lia. }
    cbn. eexists. split; [reflexivity|]. cbn.
    split; [done|]. split.
    { unfold len in *.
      rewrite !length_app, !length_drop, !length_app, !length_take. lia. }
    split; [done|].
    intros p Hp. rewrite mod_sub_cases by lia. cbv zeta.
    destruct (decide (i <= Z.of_nat p)) as [Hip|Hip].
    + rewrite decide_True by lia.
      rewrite lookup_app_r by (unfold len in *; rewrite length_drop; lia).
      rewrite lookup_drop, length_drop.
      rewrite lookup_app_r by (unfold len in *; rewrite length_take; lia).
      rewrite length_take. rewrite lookup_take_lt by (unfold len in *; lia).
      f_equal. unfold len in *. lia.
    + destruct (decide (Z.of_nat p - i + C < len chunk)) as [Hlt|Hge].
      * rewrite lookup_app_l by (unfold len in *; rewrite length_drop; lia).
        rewrite lookup_drop. f_equal. lia.
      * rewrite lookup_app_r by (unfold len in *; rewrite length_drop; lia).
        rewrite lookup_drop, length_drop.
        rewrite lookup_app_l by (unfold len in *; rewrite length_take; lia).
        rewrite lookup_take_lt by (unfold len in *; lia).
        f_equal. unfold len in *. lia.
  - (* the data fits *)
    rewrite py_setslice_range by lia.
    cbn. eexists. split; [reflexivity|]. cbn.
    split; [done|]. split.
    { unfold len in *. rewrite !length_app, length_drop, length_take. lia. }
    split; [done|].
    intros p Hp. rewrite mod_sub_cases by lia. cbv zeta.
    destruct (decide (i <= Z.of_nat p)) as [Hip|Hip].
    + rewrite lookup_app_r by (unfold len in *; rewrite length_take; lia).
      rewrite length_take.
      destruct (decide (Z.of_nat p - i < len chunk)) as [Hlt|Hge].
      * rewrite lookup_app_l by (unfold len in *; lia).
        f_equal. unfold len in *. lia.
      * rewrite lookup_app_r by (unfold len in *; lia).
        rewrite lookup_drop. f_equal. unfold len in *. lia.
    + rewrite decide_False by lia.
      rewrite lookup_app_l by (unfold len in *; rewrite length_take; lia).
      by rewrite lookup_take_lt by lia.
Qed.

Lemma holds_init (C : Z) (mem : list Frame) :
  0 < C → len mem = C → holds (AudioCircularBuffer.init C mem) [].
Proof.
  intros HC Hmem. split; [|split].
  - split; cbn; [done | lia].
  - cbn. by rewrite Z.mod_0_l by lia.
  - unfold len. cbn. intros j Hj. lia.
Qed.

Lemma holds_write (b : AudioCircularBuffer.t) (w chunk : list Frame) :
  holds b w → len chunk <= AudioCircularBuffer._length b →
  ∃ b', AudioCircularBuffer.write b chunk = Ok b'
    ∧ AudioCircularBuffer._length b' = AudioCircularBuffer._length b
    ∧ holds b' (w ++ chunk).
Proof.
  intros (Hwf & Hi & Hw) Hm.
  destruct (write_lookup b chunk Hwf Hm) as (b' & Hb' & HC & Hl & Hi' & Hd).
  exists b'. split; [done|]. split; [done|].
  pose proof Hwf as [Hlen Hidx].
  set (C := AudioCircularBuffer._length b) in *.
  assert (0 < C) as HC0 by lia.
  pose proof (len_nonneg chunk) as Hc.
  split; [|split].
  - split; [congruence|]. rewrite HC, Hi'. apply Z.mod_pos_bound. lia.
  - rewrite HC, Hi', Hi, len_app. by rewrite Zplus_mod_idemp_l.
  - rewrite HC. intros j Hj. rewrite len_app in Hj.
    pose proof (Z.mod_pos_bound (Z.of_nat j) C HC0) as Hjm.
    rewrite Hd by lia. cbv zeta.
    rewrite Z2Nat.id by lia. rewrite Hi, <- Zminus_mod.
    destruct (decide (len w <= Z.of_nat j)) as [Hjw|Hjw].
    + rewrite Z.mod_small by lia. rewrite decide_True by lia.
      rewrite lookup_app_r by (unfold len in *; lia).
      f_equal. unfold len. lia.
    + rewrite <- (Z_mod_plus_full _ 1 C), Z.mul_1_l.
      rewrite Z.mod_small by lia. rewrite decide_False by lia.
      rewrite lookup_app_l by (unfold len in *; lia).
      apply Hw. lia.
Qed.

Lemma holds_write_all (chunks : list (list Frame)) :
  ∀ (b : AudioCircularBuffer.t) (w : list Frame),
    holds b w →
    Forall (fun c => len c <= AudioCircularBuffer._length b) chunks →
    ∃ b', AudioCircularBuffer.write_all b chunks = Ok b'
      ∧ AudioCircularBuffer._length b' = AudioCircularBuffer._length b
      ∧ holds b' (w ++ concat chunks).
Proof.
  induction chunks as [|c cs IH]; intros b w Hb Hall.
  - exists b. cbn. by rewrite app_nil_r.
  - apply Forall_cons in Hall as [Hc Hcs].
    destruct (holds_write b w c Hb Hc) as (b1 & Hb1 & HC1 & Hh1).
    destruct (IH b1 (w ++ c) Hh1) as (b' & Hb' & HC' & Hh').
    { by rewrite HC1. }
    exists b'. cbn. rewrite Hb1. cbn. rewrite Hb'.
    split; [done|]. split; [congruence|]. by rewrite app_assoc.
Qed.

(** C9: after [C + k] frames were written to a circular buffer of capacity
    [C] (with [0 <= k < C]), in calls of at most [C] frames each,
    [position()] is [k] and [start_to_index()] is the last [k] frames
    written, in their order. *)
Theorem write_all_keeps_the_last_frames (C k : Z) (mem : list Frame)
  (chunks : list (list Frame)) :
  0 < C → len mem = C →
  Forall (fun c => len c <= C) chunks →
  len (concat chunks) = C + k → 0 <= k < C →
  ∃ b, AudioCircularBuffer.write_all (AudioCircularBuffer.init C mem) chunks
       = Ok b
    ∧ AudioCircularBuffer.position b = k
    ∧ len (AudioCircularBuffer.start_to_index b) = k
    ∧ AudioCircularBuffer.start_to_index b
      = drop (length (concat chunks) - Z.to_nat k) (concat chunks).
Proof.
  intros HC Hmem Hall Htot Hk.
  destruct (holds_write_all chunks (AudioCircularBuffer.init C mem) []
              (holds_init C mem HC Hmem) Hall) as (b & Hb & HCb & Hh).
  cbn in HCb, Hh. destruct Hh as ([Hlen Hidx] & Hi & Hw).
  rewrite HCb in *. rewrite Htot in Hi, Hw.
  assert (AudioCircularBuffer._index b = k) as Hik.
  { rewrite Hi. replace (C + k) with (k + 1 * C) by lia.
    rewrite Z_mod_plus_full. apply Z.mod_small. lia. }
  exists b. split; [done|]. split; [done|].
  unfold AudioCircularBuffer.start_to_index. rewrite Hik.
  rewrite py_slice_to by lia.
  assert (take (Z.to_nat k) (AudioCircularBuffer._data b)
          = drop (length (concat chunks) - Z.to_nat k) (concat chunks)) as ->.
  { apply list_eq. intros p.
    rewrite lookup_drop.
    destruct (decide (p < Z.to_nat k)%nat) as [Hp|Hp].
    - rewrite lookup_take_lt by done.
      specialize (Hw (Z.to_nat C + p)%nat).
      replace (Z.of_nat (Z.to_nat C + p)) with (Z.of_nat p + 1 * C) in Hw
        by lia.
      rewrite Z_mod_plus_full, Z.mod_small, Nat2Z.id in Hw by lia.
      rewrite Hw by lia. f_equal. unfold len in *. lia.
    - rewrite lookup_take_ge by lia. symmetry.
      apply lookup_ge_None. unfold len in *. lia. }
  split; [|done].
  unfold len in *. rewrite length_drop. lia.
Qed.

Lemma write_all_keeps_the_last_frames_witness :
  ∃ b, AudioCircularBuffer.write_all
         (AudioCircularBuffer.init 2 [(7, 7); (8, 8)])
         [[(1, 1); (2, 2)]; [(3, 3)]] = Ok b
    ∧ AudioCircularBuffer.position b = 1
    ∧ len (AudioCircularBuffer.start_to_index b) = 1
    ∧ AudioCircularBuffer.start_to_index b = [(3, 3)].
Proof.
  apply (write_all_keeps_the_last_frames 2 1 [(7, 7); (8, 8)]
           [[(1, 1); (2, 2)]; [(3, 3)]]).
  - lia.
  - reflexivity.
  - repeat constructor; vm_compute; discriminate.
  - reflexivity.
  - lia.
Defined.

(** ** Slices of a playing track *)

Lemma slice_length (data : list Frame) (pff from_frame frames : Z) :
  0 <= frames < len data →
  ∃ s, PlayingTrack.slice (PlayingTrack.init data pff) from_frame frames
       = Ok s
    ∧ len s = frames.
Proof.
  intros Hn. unfold PlayingTrack.slice, PlayingTrack.init, py_mod. cbn.
  rewrite !decide_False by lia. cbn.
  assert (0 < len data) as HL by lia.
  pose proof (Z.mod_pos_bound (from_frame - pff) (len data) HL) as Hs.
  rewrite <- (Zplus_mod_idemp_l (from_frame - pff)).
  set (start := (from_frame - pff) `mod` len data) in *.
  destruct (decide (start + frames < len data)) as [Hfit|Hwrap].
  - rewrite (Z.mod_small (start + frames)) by lia.
    rewrite decide_False by lia. cbn. eexists. split; [reflexivity|].
    rewrite py_slice_range by lia.
    unfold len in *. rewrite length_take, length_drop. lia.
  - replace (start + frames) with (start + frames - len data + 1 * len data)
      by lia.
    rewrite Z_mod_plus_full, Z.mod_small by lia.
    rewrite decide_True by lia. cbn. eexists. split; [reflexivity|].
    rewrite py_slice_from, py_slice_to by lia. rewrite len_app.
    unfold len in *. rewrite length_take, length_drop. lia.
Qed.

Lemma slice_whole_length (data : list Frame) (pff from_frame : Z) :
  0 < len data →
  PlayingTrack.slice (PlayingTrack.init data pff) from_frame (len data)
  = Ok [].
Proof.
  intros HL. unfold PlayingTrack.slice, PlayingTrack.init, py_mod. cbn.
  rewrite !decide_False by lia. cbn.
  pose proof (Z.mod_pos_bound (from_frame - pff) (len data) HL) as Hs.
  replace (from_frame - pff + len data)
    with (from_frame - pff + 1 * len data) by lia.
  rewrite Z_mod_plus_full.
  rewrite decide_False by lia. cbn. f_equal.
  rewrite py_slice_range by lia.
  by rewrite Z.sub_diag.
Qed.

(** C3: on a track of one frame, [slice(0, 1)] returns no frame at all,
    where its docstring promises a slice as long as [frames]: with
    [frames] the length of the track, [end] equals [start] and the branch
    taken is the empty [data[start:end]]. *)
Theorem slice_of_a_whole_track_is_empty :
  PlayingTrack.slice (PlayingTrack.init [(1, 2)] 0) 0 1 = Ok []
  ∧ PlayingTrack.slice (PlayingTrack.init [(1, 2); (3, 4); (5, 6)] 0) 7 3
    = Ok [].
Proof. split; reflexivity. Qed.

(** ** Quantization *)

Lemma half_beat_div (len_beat : Z) :
  0 < len_beat → py_int_truediv len_beat 2 = Ok (len_beat `div` 2).
Proof.
  intros H. unfold py_int_truediv. rewrite decide_False by lia.
  by rewrite Z.quot_div_nonneg by lia.
Qed.

Lemma is_complete_true (rt : RecordedTrack.t) :
  RecordedTrack.is_complete rt = true ↔
  is_Some (RecordedTrack.first_frame_time rt)
  ∧ is_Some (RecordedTrack.start_rec_time rt)
  ∧ is_Some (RecordedTrack.stop_rec_time rt)
  ∧ RecordedTrack.data rt ≠ [].
Proof.
  unfold RecordedTrack.is_complete.
  rewrite !andb_true_iff, !bool_decide_eq_true.
  rewrite <- !not_eq_None_Some.
  assert (len (RecordedTrack.data rt) * CHANNELS ≠ 0
          ↔ RecordedTrack.data rt ≠ []) as ->; [|tauto].
  unfold len, CHANNELS. destruct (RecordedTrack.data rt); cbn; split;
    intros; try done; lia.
Qed.

(** C1: on a complete recorded track, with [half = len_beat / 2], the start
    is rounded to [0] if [start - first < half], else to [len_beat] with
    [first] a beat later; the stop is rounded to [N - len_beat] if
    [(stop - first) mod len_beat < half] (with the new [first]), else to
    [N]; the result is nothing if [data[start:stop]] is empty, else the
    playing track of that data, playing from the new [first]. *)
Theorem post_production_rounds (self : LoopStreamManager.t)
  (rt : RecordedTrack.t) (first start stop : Z) :
  0 < LoopStreamManager._len_beat self →
  RecordedTrack.first_frame_time rt = Some first →
  RecordedTrack.start_rec_time rt = Some start →
  RecordedTrack.stop_rec_time rt = Some stop →
  RecordedTrack.data rt ≠ [] →
  let len_beat := LoopStreamManager._len_beat self in
  let data := RecordedTrack.data rt in
  let half := len_beat `div` 2 in
  let start' := if decide (start - first < half) then 0 else len_beat in
  let first' :=
    if decide (start - first < half) then first else first + len_beat in
  let stop' :=
    if decide ((stop - first') `mod` len_beat < half)
    then len data - len_beat else len data in
  let cut := py_slice data (Some start') (Some stop') in
  LoopStreamManager.post_production self rt
  = Ok (if decide (cut = []) then None
        else Some {| PlayingTrack.data := cut;
                     PlayingTrack._playing_from_frame := first';
                     PlayingTrack._length := len cut |}).
Proof.
  intros Hlb Hf Hs Hp Hd. cbv zeta.
  unfold LoopStreamManager.post_production.
  assert (RecordedTrack.is_complete rt = true) as ->.
  { apply is_complete_true. rewrite Hf, Hs, Hp. eauto. }
  cbn [negb]. rewrite Hf, Hs, Hp.
  unfold py_mod. rewrite !decide_False by lia. cbn [mbind result_bind].
  rewrite half_beat_div by done. cbn [mbind result_bind].
  destruct (decide (start - first < _)) as [H1|H1];
    cbn [mbind result_bind];
    rewrite (decide_False (P := LoopStreamManager._len_beat self = 0))
      by lia;
    cbn [mbind result_bind];
    destruct (decide (_ `mod` _ < _)) as [H2|H2];
    match goal with
    | |- context [py_slice ?d ?a ?b] => generalize (py_slice d a b)
    end; intros cut; unfold PlayingTrack.init;
    destruct cut; cbn; try done.
Qed.

Lemma post_production_rounds_witness :
  LoopStreamManager.post_production
    (LoopStreamManager.fresh 2 [silence; silence])
    {| RecordedTrack.data := [(1, 1); (2, 2); (3, 3); (4, 4); (5, 5); (6, 6)];
       RecordedTrack.first_frame_time := Some 4;
       RecordedTrack.start_rec_time := Some 5;
       RecordedTrack.stop_rec_time := Some 8 |}
  = Ok (Some {| PlayingTrack.data := [(3, 3); (4, 4)];
                PlayingTrack._playing_from_frame := 6;
                PlayingTrack._length := 2 |}).
Proof.
  apply (post_production_rounds
           (LoopStreamManager.fresh 2 [silence; silence])
           {| RecordedTrack.data :=
                [(1, 1); (2, 2); (3, 3); (4, 4); (5, 5); (6, 6)];
              RecordedTrack.first_frame_time := Some 4;
              RecordedTrack.start_rec_time := Some 5;
              RecordedTrack.stop_rec_time := Some 8 |} 4 5 8).
  - cbn. lia.
  - reflexivity.
  - reflexivity.
  - reflexivity.
  - discriminate.
Defined.

(** ** Output underflow *)

Lemma fill_silence (outdata : list Frame) :
  (fun _ => silence) <$> outdata = replicate (length outdata) silence.
Proof. induction outdata as [|x l IH]; cbn; [done | by rewrite IH]. Qed.

(** C7: a callback whose status reports output underflow fills the output
    block with zeros and leaves the whole state of the engine as it was. *)
Theorem callback_output_underflow (self : LoopStreamManager.t)
  (locked : bool) (indata outdata : list Frame) (frames : Z)
  (status : CallbackFlags) :
  output_underflow status = true →
  LoopStreamManager.callback self locked indata outdata frames status
  = Ok (self, replicate (length outdata) silence).
Proof.
  intros Hu. unfold LoopStreamManager.callback. rewrite Hu.
  cbn. by rewrite fill_silence.
Qed.

Lemma callback_output_underflow_witness :
  LoopStreamManager.callback
    (LoopStreamManager.fresh 4 [silence; silence; silence; silence]) false
    [(1, 1); (2, 2)] [(5, 5); (6, 6)] 2
    (mkFlags false false true false false)
  = Ok (LoopStreamManager.fresh 4 [silence; silence; silence; silence],
        [silence; silence]).
Proof.
  apply (callback_output_underflow
           (LoopStreamManager.fresh 4 [silence; silence; silence; silence])
           false [(1, 1); (2, 2)] [(5, 5); (6, 6)] 2
           (mkFlags false false true false false)).
  reflexivity.
Defined.

(** ** The beat length *)

Lemma len_beat_31 : Lem._len_beat 31 = Ok 85354.
Proof. reflexivity. Qed.

(** C2, as the spec states it, fails at 31 beats per minute: the quotient is
    85354.8..., the beat length 85354. *)
Lemma len_beat_not_rounded :
  ¬ ∀ bpm : Z, 0 < bpm →
      ∃ n, Lem._len_beat bpm = Ok n
        ∧ nearest_integer (60 * SAMPLERATE) bpm n.
Proof.
  intros H. destruct (H 31) as (n & Hn & Hr); [lia|].
  rewrite len_beat_31 in Hn. injection Hn as <-.
  unfold nearest_integer, SAMPLERATE in Hr. lia.
Qed.

(** C2, amended: the beat length is the quotient [60 * 44100 / bpm] rounded
    down. *)
Theorem len_beat_truncated (bpm : Z) :
  0 < bpm →
  ∃ n, Lem._len_beat bpm = Ok n
    ∧ n * bpm <= 60 * SAMPLERATE < (n + 1) * bpm.
Proof.
  intros Hb. unfold Lem._len_beat, py_int_truediv.
  rewrite decide_False by lia. eexists. split; [reflexivity|].
  rewrite Z.quot_div_nonneg by (unfold SAMPLERATE; lia).
  pose proof (Z.mul_div_le (60 * SAMPLERATE) bpm Hb).
  pose proof (Z.mul_succ_div_gt (60 * SAMPLERATE) bpm Hb).
  lia.
Qed.

Lemma len_beat_truncated_witness :
  ∃ n, Lem._len_beat 120 = Ok n
    ∧ n * 120 <= 60 * SAMPLERATE < (n + 1) * 120.
Proof. apply (len_beat_truncated 120). lia. Defined.

(** ** The steps of the callback *)


Lemma Ok_inj {A} (a b : A) : Ok a = Ok b → a = b.
Proof. congruence. Qed.

Lemma py_mod_pos (a b : Z) : 0 < b → py_mod a b = Ok (a `mod` b).
Proof. intros. unfold py_mod. by rewrite decide_False by lia. Qed.

Lemma np_zeros_nonneg (n : Z) :
  0 <= n → np_zeros n = Ok (replicate (Z.to_nat n) silence).
Proof. intros. unfold np_zeros. by rewrite decide_False by lia. Qed.

Lemma same_engine_refl (s : LoopStreamManager.t) : same_engine s s.
Proof. by repeat split. Qed.

Lemma same_engine_trans (s1 s2 s3 : LoopStreamManager.t) :
  same_engine s1 s2 → same_engine s2 s3 → same_engine s1 s3.
Proof.
  intros (?&?&?&?&?) (?&?&?&?&?). repeat split; congruence.
Qed.

Lemma is_in_first_half_of_beat_pos (current_frame len_beat : Z) :
  0 < len_beat →
  is_in_first_half_of_beat current_frame len_beat
  = Ok (bool_decide (current_frame `mod` len_beat <= len_beat `div` 2)).
Proof.
  intros H. unfold is_in_first_half_of_beat.
  rewrite half_beat_div, py_mod_pos by done. bind.
  by case_decide;
    [rewrite bool_decide_eq_true_2 | rewrite bool_decide_eq_false_2].
Qed.

Lemma on_beat_pos (current_frame len_beat frames : Z) :
  0 < len_beat →
  on_beat current_frame len_beat frames
  = Ok (bool_decide (len_beat <= current_frame `mod` len_beat + frames)).
Proof.
  intros H. unfold on_beat. rewrite py_mod_pos by done. bind.
  by case_decide; [rewrite bool_decide_eq_true_2 by lia
                  |rewrite bool_decide_eq_false_2 by lia].
Qed.

(** What [_stop_recording] does, by the half of the beat. *)
Lemma stop_recording_pos (self : LoopStreamManager.t) :
  0 < LoopStreamManager._len_beat self →
  let len_beat := LoopStreamManager._len_beat self in
  let now := LoopStreamManager._current_frame self in
  let stopped :=
    LoopStreamManager.set_recorded_track self
      (RecordedTrack.set_stop_rec_time
         (LoopStreamManager._recorded_track self) now) in
  LoopStreamManager._stop_recording self
  = Ok (if decide (now `mod` len_beat <= len_beat `div` 2) then
          LoopStreamManager._finish_recording
            (LoopStreamManager.set_recorded_track stopped
               (RecordedTrack.append
                  (LoopStreamManager._recorded_track stopped)
                  (replicate (Z.to_nat (len_beat - now `mod` len_beat))
                     silence)))
        else LoopStreamManager.set_stopping_recording stopped true).
Proof.
  intros H. cbv zeta. unfold LoopStreamManager._stop_recording.
  cbn [LoopStreamManager._current_frame LoopStreamManager._len_beat
       LoopStreamManager.set_recorded_track].
  rewrite is_in_first_half_of_beat_pos by done. bind.
  pose proof (Z.mod_pos_bound (LoopStreamManager._current_frame self)
                (LoopStreamManager._len_beat self) H).
  case_decide.
  - rewrite bool_decide_eq_true_2 by done.
    rewrite py_mod_pos by done. bind.
    by rewrite np_zeros_nonneg by lia.
  - by rewrite bool_decide_eq_false_2 by done.
Qed.

Lemma handle_event_pos (self : LoopStreamManager.t) :
  0 < LoopStreamManager._len_beat self →
  ∃ s1, LoopStreamManager.handle_event self = Ok s1 ∧ same_engine self s1.
Proof.
  intros H. unfold LoopStreamManager.handle_event.
  destruct (LoopStreamManager._event_queue self) as [|[] q]; cbn [Queue.pop].
  - eexists. split; [done|]. apply same_engine_refl.
  - eexists. split; [done|].
    unfold LoopStreamManager._initialize_recording.
    cbn. destruct (LoopStreamManager._stopping_recording self);
      by repeat split.
  - rewrite stop_recording_pos by done.
    eexists. split; [done|]. cbn. case_decide; by repeat split.
Qed.

Lemma record_indata_same (self : LoopStreamManager.t) (indata : list Frame) :
  same_engine self (LoopStreamManager.record_indata self indata).
Proof.
  unfold LoopStreamManager.record_indata.
  destruct (LoopStreamManager._recording self); by repeat split.
Qed.

Lemma finish_on_beat_pos (self : LoopStreamManager.t) (frames : Z) :
  0 < LoopStreamManager._len_beat self →
  let len_beat := LoopStreamManager._len_beat self in
  let data := RecordedTrack.data (LoopStreamManager._recorded_track self) in
  LoopStreamManager.finish_on_beat self frames
  = Ok (if LoopStreamManager._stopping_recording self
           && bool_decide
                (len_beat
                 <= LoopStreamManager._current_frame self `mod` len_beat
                    + frames)
        then
          LoopStreamManager._finish_recording
            (LoopStreamManager.set_recorded_track self
               (RecordedTrack.set_data
                  (LoopStreamManager._recorded_track self)
                  (py_slice data None
                     (Some (len data - len data `mod` len_beat)))))
        else self).
Proof.
  intros H. cbv zeta. unfold LoopStreamManager.finish_on_beat.
  destruct (LoopStreamManager._stopping_recording self); [|done].
  rewrite on_beat_pos by done. bind. cbn [andb].
  destruct (bool_decide _); [|done].
  by rewrite py_mod_pos by done.
Qed.

Lemma finish_on_beat_same (self s3 : LoopStreamManager.t) (frames : Z) :
  LoopStreamManager.finish_on_beat self frames = Ok s3 → same_engine self s3.
Proof.
  unfold LoopStreamManager.finish_on_beat.
  destruct (LoopStreamManager._stopping_recording self).
  - destruct (on_beat _ _ _) as [[]|]; bind; [| |done].
    + destruct (py_mod _ _); bind; [|done].
      intros [= <-]. by repeat split.
    + intros [= <-]. apply same_engine_refl.
  - intros [= <-]. apply same_engine_refl.
Qed.

Lemma handle_event_same (self s1 : LoopStreamManager.t) :
  LoopStreamManager.handle_event self = Ok s1 → same_engine self s1.
Proof.
  unfold LoopStreamManager.handle_event.
  destruct (LoopStreamManager._event_queue self) as [|[] q]; cbn [Queue.pop].
  - intros [= <-]. apply same_engine_refl.
  - intros [= <-]. unfold LoopStreamManager._initialize_recording.
    cbn. destruct (LoopStreamManager._stopping_recording self);
      by repeat split.
  - unfold LoopStreamManager._stop_recording.
    destruct (is_in_first_half_of_beat _ _) as [[]|]; bind; [| |done].
    + destruct (py_mod _ _); bind; [|done].
      destruct (np_zeros _); bind; [|done].
      intros [= <-]. by repeat split.
    + intros [= <-]. by repeat split.
Qed.

Lemma slice_and_mix_same (s s' : LoopStreamManager.t) (locked : bool)
  (indata : list Frame) (frames : Z) :
  LoopStreamManager._tracks s' = LoopStreamManager._tracks s →
  LoopStreamManager._tracks_copy s' = LoopStreamManager._tracks_copy s →
  LoopStreamManager._current_frame s' = LoopStreamManager._current_frame s →
  LoopStreamManager.slice_and_mix s' locked indata frames
  = LoopStreamManager.slice_and_mix s locked indata frames.
Proof.
  intros H1 H2 H3. unfold LoopStreamManager.slice_and_mix.
  by rewrite H1, H2, H3.
Qed.

(** The callback without underflow, step by step. *)
Lemma callback_steps (self : LoopStreamManager.t) (locked : bool)
  (indata outdata : list Frame) (frames : Z) (status : CallbackFlags) :
  output_underflow status = false →
  LoopStreamManager.callback self locked indata outdata frames status
  = (s1 ← LoopStreamManager.handle_event self;
     s3 ← LoopStreamManager.finish_on_beat
            (LoopStreamManager.record_indata s1 indata) frames;
     last_beat ← AudioCircularBuffer.write
                   (LoopStreamManager._last_beat self) indata;
     mixed ← LoopStreamManager.slice_and_mix self locked indata frames;
     out ← py_setslice outdata None None mixed;
     mret (LoopStreamManager.set_current_frame
             (LoopStreamManager.set_last_beat s3 last_beat)
             (LoopStreamManager._current_frame self + frames), out)).
Proof.
  intros Hu. unfold LoopStreamManager.callback. rewrite Hu.
  destruct (LoopStreamManager.handle_event self) as [s1|] eqn:H1; bind;
    [|done].
  destruct (LoopStreamManager.finish_on_beat _ _) as [s3|] eqn:H3; bind;
    [|done].
  pose proof (same_engine_trans _ _ _
                (same_engine_trans _ _ _ (handle_event_same _ _ H1)
                   (record_indata_same s1 indata))
                (finish_on_beat_same _ _ _ H3)) as (E1 & E2 & E3 & E4 & E5).
  rewrite E5.
  destruct (AudioCircularBuffer.write _ _) as [lb|]; bind; [|done].
  rewrite (slice_and_mix_same self) by done.
  destruct (LoopStreamManager.slice_and_mix _ _ _ _); bind; [|done].
  destruct (py_setslice _ _ _ _); bind; [|done].
  cbn. by rewrite E2.
Qed.

(** ** Mixing *)

Lemma len_add_frames (a b : list Frame) :
  len b = len a → len (add_frames a b) = len a.
Proof.
  intros H. unfold add_frames, len in *. rewrite length_zip_with. lia.
Qed.

Lemma np_mean_length (a m : list Frame) (rest : list (list Frame)) :
  np_mean (a :: rest) = Ok m → len m = len a.
Proof.
  unfold np_mean.
  destruct (forallb _ rest) eqn:Hall; [|done]. intros [= <-].
  unfold len at 1. rewrite length_fmap. fold (len (foldl add_frames a rest)).
  assert (∀ acc, len acc = len a → len (foldl add_frames acc rest) = len a)
    as Hfold; [|by apply Hfold].
  induction rest as [|r rest IH]; intros acc Hacc; [done|].
  cbn in Hall. apply andb_true_iff in Hall as [Hr Hall].
  apply bool_decide_eq_true in Hr. cbn [foldl].
  apply IH; [done|]. rewrite len_add_frames; congruence.
Qed.

Lemma slice_and_mix_length (self : LoopStreamManager.t) (locked : bool)
  (indata mixed : list Frame) (frames : Z) :
  LoopStreamManager.slice_and_mix self locked indata frames = Ok mixed →
  len mixed = len indata.
Proof.
  unfold LoopStreamManager.slice_and_mix.
  destruct (LoopStreamManager.slices _ _ _); bind; [|done].
  apply np_mean_length.
Qed.

(** With no track to play, the output is the input. *)
Lemma slice_and_mix_no_tracks (self : LoopStreamManager.t) (locked : bool)
  (indata : list Frame) (frames : Z) :
  LoopStreamManager._tracks self = [] →
  LoopStreamManager._tracks_copy self = [] →
  LoopStreamManager.slice_and_mix self locked indata frames = Ok indata.
Proof.
  intros H1 H2. unfold LoopStreamManager.slice_and_mix.
  rewrite H1, H2. destruct locked; cbn; f_equal;
    induction indata as [|[x y] l IH]; cbn; try done;
    unfold div_frame; cbn; rewrite !Z.quot_1_r; by f_equal.
Qed.

(** ** The callback returns *)

Lemma callback_returns (self : LoopStreamManager.t) (locked : bool)
  (indata outdata : list Frame) (frames : Z) (status : CallbackFlags) :
  sound self → fits self locked indata outdata frames →
  output_underflow status = false →
  ∃ s1 s3 last_beat mixed,
    LoopStreamManager.handle_event self = Ok s1
    ∧ LoopStreamManager.finish_on_beat
        (LoopStreamManager.record_indata s1 indata) frames = Ok s3
    ∧ AudioCircularBuffer.write (LoopStreamManager._last_beat self) indata
      = Ok last_beat
    ∧ LoopStreamManager.slice_and_mix self locked indata frames = Ok mixed
    ∧ LoopStreamManager.callback self locked indata outdata frames status
      = Ok (LoopStreamManager.set_current_frame
              (LoopStreamManager.set_last_beat s3 last_beat)
              (LoopStreamManager._current_frame self + frames), mixed).
Proof.
  intros (Hlb & Hwf & HC) (Hin & Hout & mixed & Hmix) Hu.
  destruct (handle_event_pos self Hlb) as (s1 & H1 & E1).
  pose proof (record_indata_same s1 indata) as E2.
  pose proof (same_engine_trans _ _ _ E1 E2) as E12.
  destruct (write_lookup (LoopStreamManager._last_beat self) indata)
    as (last_beat & Hw & _); [done | by rewrite HC |].
  eexists s1, _, last_beat, mixed.
  split; [done|]. split.
  { apply finish_on_beat_pos. destruct E12 as (-> & _). done. }
  split; [done|]. split; [done|].
  rewrite callback_steps by done. rewrite H1. bind.
  rewrite finish_on_beat_pos by (destruct E12 as (-> & _); done). bind.
  rewrite Hw. bind. rewrite Hmix. bind.
  rewrite py_setslice_all; [done|].
  rewrite (slice_and_mix_length _ _ _ _ _ Hmix). done.
Qed.

(** ** Stop in the first half of a beat *)

(** C4: a Stop command consumed in a cycle where
    [current_frame mod len_beat <= len_beat / 2] finishes the recording in
    that cycle: [stop_rec_time] is [current_frame],
    [len_beat - current_frame mod len_beat] frames of silence are appended,
    the track goes to the queue of recorded tracks and the machine is idle
    again. *)
Theorem stop_in_first_half_finishes_at_once (self : LoopStreamManager.t)
  (locked : bool)
  (indata outdata : list Frame) (frames : Z) (status : CallbackFlags)
  (q : list UserRecordingEvents) :
  sound self → fits self locked indata outdata frames →
  output_underflow status = false →
  LoopStreamManager._event_queue self = STOP :: q →
  let len_beat := LoopStreamManager._len_beat self in
  let now := LoopStreamManager._current_frame self in
  let rt := LoopStreamManager._recorded_track self in
  now `mod` len_beat <= len_beat `div` 2 →
  ∃ self' out,
    LoopStreamManager.callback self locked indata outdata frames status
    = Ok (self', out)
    ∧ LoopStreamManager._recorded_tracks_queue self'
      = LoopStreamManager._recorded_tracks_queue self
        ++ [ {| RecordedTrack.data :=
                  RecordedTrack.data rt
                  ++ replicate (Z.to_nat (len_beat - now `mod` len_beat))
                       silence;
                RecordedTrack.first_frame_time :=
                  RecordedTrack.first_frame_time rt;
                RecordedTrack.start_rec_time :=
                  RecordedTrack.start_rec_time rt;
                RecordedTrack.stop_rec_time := Some now |} ]
    ∧ LoopStreamManager._recording self' = false
    ∧ LoopStreamManager._stopping_recording self' = false
    ∧ LoopStreamManager._recorded_track self' = RecordedTrack.init
    ∧ LoopStreamManager._event_queue self' = q.
Proof.
  intros Hs Hfit Hu Hq len_beat now rt Hhalf.
  destruct (callback_returns self locked indata outdata frames status
              Hs Hfit Hu)
    as (s1 & s3 & last_beat & mixed & H1 & H3 & _ & _ & Hc).
  destruct Hs as (Hlb & _).
  unfold LoopStreamManager.handle_event in H1. rewrite Hq in H1.
  cbn [Queue.pop] in H1.
  rewrite stop_recording_pos in H1 by done.
  cbn [LoopStreamManager.set_event_queue LoopStreamManager._len_beat
       LoopStreamManager._current_frame] in H1.
  rewrite decide_True in H1 by done. injection H1 as <-.
  rewrite finish_on_beat_pos in H3 by done.
  cbn in H3. injection H3 as <-.
  eexists _, _. split; [exact Hc|]. cbn. done.
Qed.

(** The scenario of the spec: with [len_beat = 22050], a Stop at frame
    27050 stops at 27050 and appends 17050 frames of silence. *)
Lemma stop_in_first_half_finishes_at_once_witness :
  let self :=
    LoopStreamManager.mk 22050 27050 [STOP] true false [] []
      (AudioCircularBuffer.mk 22050 (replicate (Z.to_nat 22050) silence) 5000)
      {| RecordedTrack.data := replicate (Z.to_nat 5000) silence;
         RecordedTrack.first_frame_time := Some 22050;
         RecordedTrack.start_rec_time := Some 22050;
         RecordedTrack.stop_rec_time := None |} [] in
  ∃ self' out,
    LoopStreamManager.callback self false [silence] [silence] 1
      (mkFlags false false false false false)
    = Ok (self', out)
    ∧ LoopStreamManager._recorded_tracks_queue self'
      = [] ++ [ {| RecordedTrack.data :=
                     replicate (Z.to_nat 5000) silence
                     ++ replicate (Z.to_nat 17050) silence;
                   RecordedTrack.first_frame_time := Some 22050;
                   RecordedTrack.start_rec_time := Some 22050;
                   RecordedTrack.stop_rec_time := Some 27050 |} ]
    ∧ LoopStreamManager._recording self' = false
    ∧ LoopStreamManager._stopping_recording self' = false
    ∧ LoopStreamManager._recorded_track self' = RecordedTrack.init
    ∧ LoopStreamManager._event_queue self' = [].
Proof.
  intros self.
  apply (stop_in_first_half_finishes_at_once self false [silence] [silence]
           1 (mkFlags false false false false false) []).
  - split; [|split].
    + cbn. lia.
    + split; [vm_compute; reflexivity | cbn; lia].
    + reflexivity.
  - split; [|split].
    + vm_compute. discriminate.
    + reflexivity.
    + eexists. reflexivity.
  - reflexivity.
  - reflexivity.
  - vm_compute. discriminate.
Defined.

(** ** Start while the previous recording drains *)

(** C6, amended: a Start command consumed while the machine drains
    ([_stopping_recording] is set) discards the unfinished capture: the new
    capture is the pre-roll followed by the input of the cycle, no track is
    pushed in the cycle, and whatever had been captured before has no
    effect on the state after the cycle. *)
Theorem start_while_draining_discards (self : LoopStreamManager.t)
  (locked : bool) (indata outdata : list Frame) (frames : Z)
  (status : CallbackFlags) (q : list UserRecordingEvents) :
  sound self → fits self locked indata outdata frames →
  output_underflow status = false →
  LoopStreamManager._event_queue self = START :: q →
  LoopStreamManager._stopping_recording self = true →
  let now := LoopStreamManager._current_frame self in
  let last_beat := LoopStreamManager._last_beat self in
  ∃ self' out,
    LoopStreamManager.callback self locked indata outdata frames status
    = Ok (self', out)
    ∧ LoopStreamManager._recorded_track self'
      = {| RecordedTrack.data :=
             AudioCircularBuffer.start_to_index last_beat ++ indata;
           RecordedTrack.first_frame_time :=
             Some (now - AudioCircularBuffer.position last_beat);
           RecordedTrack.start_rec_time := Some now;
           RecordedTrack.stop_rec_time := None |}
    ∧ LoopStreamManager._recording self' = true
    ∧ LoopStreamManager._stopping_recording self' = false
    ∧ LoopStreamManager._recorded_tracks_queue self'
      = LoopStreamManager._recorded_tracks_queue self
    ∧ ∀ (captured : RecordedTrack.t) (recording : bool),
        LoopStreamManager.callback
          (LoopStreamManager.set_recording
             (LoopStreamManager.set_recorded_track self captured) recording)
          locked indata outdata frames status
        = Ok (self', out).
Proof.
  intros Hs Hfit Hu Hq Hd now last_beat.
  destruct (callback_returns self locked indata outdata frames status
              Hs Hfit Hu) as (s1 & s3 & lb & mixed & H1 & H3 & Hw & Hm & Hc).
  pose proof Hs as (Hlb & _).
  unfold LoopStreamManager.handle_event in H1. rewrite Hq in H1.
  cbn [Queue.pop] in H1. injection H1 as <-.
  rewrite finish_on_beat_pos in H3.
  2:{ unfold LoopStreamManager._initialize_recording. cbn. by rewrite Hd. }
  unfold LoopStreamManager._initialize_recording in H3.
  cbn in H3. rewrite Hd in H3. cbn in H3. injection H3 as <-.
  eexists _, _. split; [exact Hc|]. cbn.
  do 4 (split; [done|]).
  intros captured recording.
  rewrite callback_steps by done.
  unfold LoopStreamManager.handle_event. cbn. rewrite Hq. cbn [Queue.pop].
  bind. rewrite finish_on_beat_pos.
  2:{ unfold LoopStreamManager._initialize_recording. cbn. by rewrite Hd. }
  unfold LoopStreamManager._initialize_recording.
  cbn. rewrite Hd. cbn. rewrite Hw. bind.
  rewrite (slice_and_mix_same self) by done. rewrite Hm. bind.
  rewrite py_setslice_all; [done|].
  destruct Hfit as (_ & -> & _).
  by apply slice_and_mix_length in Hm.
Qed.

Lemma start_while_draining_discards_witness :
  let self :=
    LoopStreamManager.mk 8 6 [START] true true [] []
      (AudioCircularBuffer.mk 8
         [(1, 1); (2, 2); (3, 3); (4, 4); (5, 5); (6, 6); (0, 0); (0, 0)] 6)
      {| RecordedTrack.data :=
           [(9, 9); (1, 1); (2, 2); (3, 3); (4, 4); (5, 5); (6, 6)];
         RecordedTrack.first_frame_time := Some 0;
         RecordedTrack.start_rec_time := Some 0;
         RecordedTrack.stop_rec_time := Some 5 |} [] in
  ∃ self' out,
    LoopStreamManager.callback self false [(7, 7)] [silence] 1
      (mkFlags false false false false false)
    = Ok (self', out)
    ∧ LoopStreamManager._recorded_track self'
      = {| RecordedTrack.data :=
             [(1, 1); (2, 2); (3, 3); (4, 4); (5, 5); (6, 6); (7, 7)];
           RecordedTrack.first_frame_time := Some 0;
           RecordedTrack.start_rec_time := Some 6;
           RecordedTrack.stop_rec_time := None |}
    ∧ LoopStreamManager._recorded_tracks_queue self' = [].
Proof.
  intros self.
  destruct (start_while_draining_discards self false [(7, 7)] [silence] 1
              (mkFlags false false false false false) [])
    as (self' & out & Hc & Hrt & _ & _ & Hq & _).
  - split; [|split].
    + cbn. lia.
    + split; [reflexivity | cbn; lia].
    + reflexivity.
  - split; [|split].
    + vm_compute. discriminate.
    + reflexivity.
    + eexists. reflexivity.
  - reflexivity.
  - reflexivity.
  - reflexivity.
  - exists self', out. split; [exact Hc|]. split; [exact Hrt | exact Hq].
Defined.

(** C6, as the claim states it, fails when the Start arrives while the
    machine records and no Stop has come.  With beats of 4 frames: after
    Start, a cycle with the frame [(1, 1)], and a second Start, the capture
    is unfinished.  The cycle that consumes the second Start, with the
    frame [(2, 2)], keeps the frame captured under the first Start in
    front of the pre-roll [(1, 1)] and the input [(2, 2)]; the Stop that
    follows pushes a track that begins with that frame. *)
Lemma start_while_recording_keeps_the_capture :
  let flags := mkFlags false false false false false in
  let tick f := Engine.Tick (Engine.mkCycle [f] [silence] flags false) in
  let s0 := LoopStreamManager.fresh 4 [silence; silence; silence; silence] in
  ∃ self self' out final,
    Engine.run s0 [Engine.Push START; tick (1, 1); Engine.Push START]
    = Ok (self, [])
    ∧ LoopStreamManager._recording self = true
    ∧ LoopStreamManager._stopping_recording self = false
    ∧ LoopStreamManager._event_queue self = [START]
    ∧ LoopStreamManager.callback self false [(2, 2)] [silence] 1 flags
      = Ok (self', out)
    ∧ RecordedTrack.data (LoopStreamManager._recorded_track self')
      = [(1, 1); (1, 1); (2, 2)]
    ∧ AudioCircularBuffer.start_to_index (LoopStreamManager._last_beat self)
      ++ [(2, 2)]
      = [(1, 1); (2, 2)]
    ∧ Engine.run s0
        [Engine.Push START; tick (1, 1); Engine.Push START; tick (2, 2);
         Engine.Push STOP; tick (3, 3)]
      = Ok (final,
            [ {| RecordedTrack.data :=
                   [(1, 1); (1, 1); (2, 2); silence; silence];
                 RecordedTrack.first_frame_time := Some 0;
                 RecordedTrack.start_rec_time := Some 1;
                 RecordedTrack.stop_rec_time := Some 2 |} ]).
Proof.
  intros flags tick s0. eexists _, _, _, _.
  split; [vm_compute; reflexivity|].
  split; [reflexivity|]. split; [reflexivity|]. split; [reflexivity|].
  split; [vm_compute; reflexivity|].
  split; [reflexivity|]. split; [reflexivity|].
  vm_compute; reflexivity.
Qed.

(** ** The cursor of the pre-roll buffer and the beat grid *)

Lemma write_inv (b b' : AudioCircularBuffer.t) (chunk : list Frame) :
  AudioCircularBuffer.write b chunk = Ok b' →
  len chunk <= AudioCircularBuffer._length b.
Proof.
  unfold AudioCircularBuffer.write. case_decide; [done | lia].
Qed.

Lemma callback_inv (self self' : LoopStreamManager.t) (locked : bool)
  (indata outdata out : list Frame) (frames : Z) (status : CallbackFlags) :
  output_underflow status = false →
  LoopStreamManager.callback self locked indata outdata frames status
  = Ok (self', out) →
  ∃ s1 s3 last_beat,
    LoopStreamManager.handle_event self = Ok s1
    ∧ LoopStreamManager.finish_on_beat
        (LoopStreamManager.record_indata s1 indata) frames = Ok s3
    ∧ AudioCircularBuffer.write (LoopStreamManager._last_beat self) indata
      = Ok last_beat
    ∧ self' = LoopStreamManager.set_current_frame
                (LoopStreamManager.set_last_beat s3 last_beat)
                (LoopStreamManager._current_frame self + frames).
Proof.
  intros Hu. rewrite callback_steps by done.
  destruct (LoopStreamManager.handle_event self) as [s1|] eqn:H1; bind;
    [|done].
  destruct (LoopStreamManager.finish_on_beat _ _) as [s3|] eqn:H3; bind;
    [|done].
  destruct (AudioCircularBuffer.write _ _) as [lb|] eqn:Hw; bind; [|done].
  destruct (LoopStreamManager.slice_and_mix _ _ _ _); bind; [|done].
  destruct (py_setslice _ _ _ _); bind; [|done].
  intros [= <- <-]. by eexists _, _, _.
Qed.

Lemma callback_underflow_inv (self self' : LoopStreamManager.t)
  (locked : bool) (indata outdata out : list Frame) (frames : Z)
  (status : CallbackFlags) :
  output_underflow status = true →
  LoopStreamManager.callback self locked indata outdata frames status
  = Ok (self', out) →
  self' = self.
Proof.
  intros Hu. unfold LoopStreamManager.callback. rewrite Hu. by intros [= <- _].
Qed.

(** A write moves the cursor by the frames written, around the buffer. *)
Lemma write_sound (self : LoopStreamManager.t) (s3 : LoopStreamManager.t)
  (last_beat : AudioCircularBuffer.t) (indata : list Frame) :
  on_grid self → same_engine self s3 →
  AudioCircularBuffer.write (LoopStreamManager._last_beat self) indata
  = Ok last_beat →
  on_grid (LoopStreamManager.set_current_frame
             (LoopStreamManager.set_last_beat s3 last_beat)
             (LoopStreamManager._current_frame self + len indata)).
Proof.
  intros ((Hlb & Hwf & HC) & Hi) (E1 & _) Hw.
  pose proof (write_inv _ _ _ Hw) as Hle.
  destruct (write_lookup _ indata Hwf Hle) as (b' & Hb' & HC' & Hl' & Hi' & _).
  rewrite Hw in Hb'. injection Hb' as <-.
  rewrite HC in *.
  split; [split; [|split]|]; cbn.
  - lia.
  - split; [congruence|]. rewrite HC', Hi'. apply Z.mod_pos_bound. lia.
  - congruence.
  - rewrite E1, Hi', Hi. by rewrite Zplus_mod_idemp_l.
Qed.

Lemma step_on_grid (self self' : LoopStreamManager.t) (a : Engine.action)
  (em : list RecordedTrack.t) :
  on_grid self → Engine.step self a = Ok (self', em) → on_grid self'.
Proof.
  intros Hg. destruct a as [[]| | |c]; cbn [Engine.step]; bind.
  - by intros [= <- _].
  - by intros [= <- _].
  - unfold LoopStreamManager.stop_recording_pop.
    destruct (LoopStreamManager._recorded_tracks_queue self);
      cbn [Queue.pop]; bind; by intros [= <- _].
  - by intros [= <- _].
  - destruct (LoopStreamManager.callback _ _ _ _ _ _) as [[s out]|] eqn:Hc;
      bind; [|done].
    cbn. intros [= <- _].
    destruct (output_underflow (Engine.status c)) eqn:Hu.
    + by rewrite (callback_underflow_inv _ _ _ _ _ _ _ _ Hu Hc).
    + destruct (callback_inv _ _ _ _ _ _ _ _ Hu Hc)
        as (s1 & s3 & lb & H1 & H3 & Hw & ->).
      apply write_sound; [done | | done].
      eapply same_engine_trans; [by apply handle_event_same|].
      eapply same_engine_trans; [apply record_indata_same|].
      by eapply finish_on_beat_same.
Qed.

Lemma step_len_beat (self self' : LoopStreamManager.t) (a : Engine.action)
  (em : list RecordedTrack.t) :
  Engine.step self a = Ok (self', em) →
  LoopStreamManager._len_beat self' = LoopStreamManager._len_beat self.
Proof.
  destruct a as [[]| | |c]; cbn [Engine.step]; bind.
  - by intros [= <- _].
  - by intros [= <- _].
  - unfold LoopStreamManager.stop_recording_pop.
    destruct (LoopStreamManager._recorded_tracks_queue self);
      cbn [Queue.pop]; bind; by intros [= <- _].
  - by intros [= <- _].
  - destruct (LoopStreamManager.callback _ _ _ _ _ _) as [[s out]|] eqn:Hc;
      bind; [|done].
    intros [= <- _].
    destruct (output_underflow (Engine.status c)) eqn:Hu.
    + by rewrite (callback_underflow_inv _ _ _ _ _ _ _ _ Hu Hc).
    + destruct (callback_inv _ _ _ _ _ _ _ _ Hu Hc)
        as (s1 & s3 & lb & H1 & H3 & Hw & ->).
      cbn.
      eapply same_engine_trans; [by apply handle_event_same|].
      eapply same_engine_trans; [apply record_indata_same|].
      by eapply finish_on_beat_same.
Qed.

Lemma run_len_beat (acts : list Engine.action) :
  ∀ (self self' : LoopStreamManager.t) (em : list RecordedTrack.t),
    Engine.run self acts = Ok (self', em) →
    LoopStreamManager._len_beat self' = LoopStreamManager._len_beat self.
Proof.
  induction acts as [|a acts IH]; intros self self' em;
    cbn [Engine.run]; bind.
  - by intros [= <- _].
  - destruct (Engine.step self a) as [[s1 e1]|] eqn:Hs; bind; [|done].
    destruct (Engine.run s1 acts) as [[s2 e2]|] eqn:Hr; bind; [|done].
    intros [= <- _].
    rewrite (IH _ _ _ Hr). by eapply step_len_beat.
Qed.

Lemma run_on_grid (acts : list Engine.action) :
  ∀ (self self' : LoopStreamManager.t) (em : list RecordedTrack.t),
    on_grid self → Engine.run self acts = Ok (self', em) → on_grid self'.
Proof.
  induction acts as [|a acts IH]; intros self self' em Hg;
    cbn [Engine.run]; bind.
  - by intros [= <- _].
  - destruct (Engine.step self a) as [[s1 e1]|] eqn:Hs; bind; [|done].
    destruct (Engine.run s1 acts) as [[s2 e2]|] eqn:Hr; bind; [|done].
    intros [= <- _].
    eapply IH; [|done]. by eapply step_on_grid.
Qed.

Lemma fresh_on_grid (len_beat : Z) (mem : list Frame) :
  0 < len_beat → len mem = len_beat →
  on_grid (LoopStreamManager.fresh len_beat mem).
Proof.
  intros Hlb Hmem. split; [split; [|split]|]; cbn.
  - done.
  - split; cbn; [done | lia].
  - done.
  - by rewrite Z.mod_0_l by lia.
Qed.

Lemma grid_floor (now len_beat : Z) :
  0 < len_beat → (now - now `mod` len_beat) `mod` len_beat = 0.
Proof.
  intros H. rewrite Zminus_mod_idemp_r, Z.sub_diag.
  by apply Z.mod_0_l, Z.neq_sym, Z.lt_neq.
Qed.

(** C10: in every state the engine reaches, the cursor of the pre-roll
    buffer is [current_frame mod len_beat]; so the first frame of a
    recording, [current_frame - position()] at its Start command, is on a
    beat of the grid. *)
Theorem cursor_follows_the_beat (len_beat : Z) (mem : list Frame)
  (acts : list Engine.action) (s0 self : LoopStreamManager.t)
  (em : list RecordedTrack.t) :
  0 < len_beat → len mem = len_beat →
  LoopStreamManager.init len_beat mem = Ok s0 →
  Engine.run s0 acts = Ok (self, em) →
  let now := LoopStreamManager._current_frame self in
  let last_beat := LoopStreamManager._last_beat self in
  AudioCircularBuffer.position last_beat = now `mod` len_beat
  ∧ ∀ (c : Engine.Cycle) (q : list UserRecordingEvents)
      (self' : LoopStreamManager.t) (em' : list RecordedTrack.t),
      LoopStreamManager._event_queue self = START :: q →
      output_underflow (Engine.status c) = false →
      Engine.step self (Engine.Tick c) = Ok (self', em') →
      RecordedTrack.first_frame_time (LoopStreamManager._recorded_track self')
      = Some (now - AudioCircularBuffer.position last_beat)
      ∧ (now - AudioCircularBuffer.position last_beat) `mod` len_beat = 0.
Proof.
  intros Hlb Hmem Hinit Hrun now last_beat.
  unfold LoopStreamManager.init in Hinit.
  rewrite decide_False in Hinit by lia. injection Hinit as <-.
  pose proof (run_on_grid acts _ _ _ (fresh_on_grid _ _ Hlb Hmem) Hrun)
    as Hg.
  assert (LoopStreamManager._len_beat self = len_beat) as Hlen.
  { by rewrite (run_len_beat _ _ _ _ Hrun). }
  destruct Hg as (Hs & Hi). rewrite Hlen in Hi.
  split; [done|].
  intros c q self' em' Hq Hu Hstep.
  unfold AudioCircularBuffer.position. subst last_beat now. rewrite Hi.
  split; [|by apply grid_floor].
  cbn [Engine.step] in Hstep.
  destruct (LoopStreamManager.callback _ _ _ _ _ _) as [[s out]|] eqn:Hc;
    [|done].
  revert Hstep. bind. intros [= <- _].
  destruct (callback_inv _ _ _ _ _ _ _ _ Hu Hc)
    as (s1 & s3 & lb & H1 & H3 & Hw & ->).
  unfold LoopStreamManager.handle_event in H1. rewrite Hq in H1.
  cbn [Queue.pop] in H1. revert H1. bind. intros [= <-].
  destruct Hs as (Hpos & _).
  rewrite finish_on_beat_pos in H3.
  2:{ unfold LoopStreamManager._initialize_recording. cbn.
      by destruct (LoopStreamManager._stopping_recording self). }
  unfold LoopStreamManager._initialize_recording in H3. cbn in H3.
  destruct (LoopStreamManager._stopping_recording self) eqn:Hst.
  all: cbn in H3; rewrite ?Hst in H3; cbn in H3; apply Ok_inj in H3 as <-;
    cbn; unfold AudioCircularBuffer.position; by rewrite Hi.
Qed.

Lemma cursor_follows_the_beat_witness :
  let mem := [silence; silence; silence; silence] in
  let flags := mkFlags false false false false false in
  let acts :=
    [Engine.Tick
       (Engine.mkCycle [(1, 1); (2, 2); (3, 3)] [silence; silence; silence]
          flags false);
     Engine.Tick
       (Engine.mkCycle [(4, 4); (5, 5); (6, 6)] [silence; silence; silence]
          flags false)] in
  ∃ self em,
    Engine.run (LoopStreamManager.fresh 4 mem) acts = Ok (self, em)
    ∧ AudioCircularBuffer.position (LoopStreamManager._last_beat self) = 2
    ∧ LoopStreamManager._current_frame self = 6.
Proof.
  intros mem flags acts.
  destruct (Engine.run (LoopStreamManager.fresh 4 mem) acts)
    as [[self em]|e] eqn:Hrun; [|vm_compute in Hrun; discriminate].
  exists self, em. split; [reflexivity|].
  assert (LoopStreamManager._current_frame self = 6) as Hnow.
  { vm_compute in Hrun. apply Ok_inj in Hrun. by inversion Hrun. }
  split; [|exact Hnow].
  destruct (cursor_follows_the_beat 4 mem acts (LoopStreamManager.fresh 4 mem)
              self em) as [Hpos _].
  - lia.
  - reflexivity.
  - reflexivity.
  - exact Hrun.
  - rewrite Hpos, Hnow. reflexivity.
Defined.

(** ** Commands from the record button *)

Lemma clicks_push (q : list UserRecordingEvents) :
  ∀ p b : RecordButton.state,
    clicks p q = Some b →
    clicks p (q ++ [(RecordButton._clicked b).1])
    = Some (RecordButton._clicked b).2.
Proof.
  induction q as [|e q IH]; intros p b; cbn.
  - intros [= ->]. by rewrite decide_True.
  - case_decide; [|done]. apply IH.
Qed.

Lemma len_start_to_index (b : AudioCircularBuffer.t) :
  AudioCircularBuffer.wf b →
  len (AudioCircularBuffer.start_to_index b) = AudioCircularBuffer._index b.
Proof.
  intros [Hl Hi]. unfold AudioCircularBuffer.start_to_index.
  rewrite py_slice_to by lia. unfold len in *. rewrite length_take. lia.
Qed.

Lemma grid_below (first now len_beat : Z) :
  0 < len_beat → first `mod` len_beat = 0 → first <= now →
  first <= now - now `mod` len_beat.
Proof.
  intros Hlb Hf Hle.
  pose proof (Z.mod_pos_bound now len_beat Hlb).
  pose proof (Z.div_mod now len_beat ltac:(lia)).
  pose proof (Z.div_mod first len_beat ltac:(lia)).
  rewrite Hf in *.
  assert (first `div` len_beat <= now `div` len_beat) by nia.
  nia.
Qed.

Lemma grid_sub (a b len_beat : Z) :
  0 < len_beat → a `mod` len_beat = 0 → b `mod` len_beat = 0 →
  (a - b) `mod` len_beat = 0.
Proof.
  intros Hlb Ha Hb. rewrite Zminus_mod, Ha, Hb. cbn.
  by apply Z.mod_0_l, Z.neq_sym, Z.lt_neq.
Qed.

Lemma grid_whole (n len_beat : Z) :
  0 < len_beat → len_beat <= n → len_beat <= n - n `mod` len_beat.
Proof.
  intros Hlb Hn.
  pose proof (Z.mod_pos_bound n len_beat Hlb).
  pose proof (Z.div_mod n len_beat ltac:(lia)).
  assert (1 <= n `div` len_beat) by nia.
  nia.
Qed.

Lemma handle_event_disciplined (b : RecordButton.state)
  (self s1 : LoopStreamManager.t) :
  on_grid self →
  recorder (LoopStreamManager._current_frame self) self →
  clicks (phase self) (LoopStreamManager._event_queue self) = Some b →
  LoopStreamManager.handle_event self = Ok s1 →
  recorder (LoopStreamManager._current_frame self) s1
  ∧ clicks (phase s1) (LoopStreamManager._event_queue s1) = Some b
  ∧ ∃ em,
      LoopStreamManager._recorded_tracks_queue s1
      = LoopStreamManager._recorded_tracks_queue self ++ em
      ∧ Forall (finished (LoopStreamManager._len_beat self)) em.
Proof.
  intros ((Hlb & Hwf & HC) & Hi) (Hcap & Hidle & Hdr) Hq.
  unfold LoopStreamManager.handle_event.
  destruct (LoopStreamManager._event_queue self) as [|[] q] eqn:Hqueue;
    cbn [Queue.pop]; bind.
  - (* no command *)
    intros [= <-]. split; [done|]. split; [by rewrite Hqueue|].
    exists []. by rewrite app_nil_r.
  - (* START *)
    intros [= <-].
    assert (phase self = RecordButton.waiting) as Hph.
    { destruct (phase self); [done|]. cbn in Hq. by case_decide. }
    rewrite Hph in Hq. cbn in Hq. rewrite decide_True in Hq by done.
    assert (LoopStreamManager._stopping_recording self = false →
            LoopStreamManager._recorded_track self = RecordedTrack.init)
      as Hinit.
    { intros Hst. apply Hidle. unfold phase in Hph. rewrite Hst in Hph.
      by destruct (LoopStreamManager._recording self). }
    unfold LoopStreamManager._initialize_recording. cbn.
    destruct (LoopStreamManager._stopping_recording self) eqn:Hst; cbn;
      rewrite ?Hst; cbn; rewrite ?Hinit by done.
    all: split; [|split; [unfold phase; cbn; rewrite ?Hst; exact Hq
                         | exists []; cbn; by rewrite app_nil_r]].
    all: split; [|split; intros H; cbn in H; congruence].
    all: intros _; cbn; eexists _, _; split; [done|]; split; [done|].
    all: unfold AudioCircularBuffer.position; rewrite Hi.
    all: pose proof (Z.mod_pos_bound (LoopStreamManager._current_frame self)
                       _ Hlb).
    all: split; [by apply grid_floor|]; split; [lia|].
    all: rewrite len_start_to_index by done; rewrite Hi; lia.
  - (* STOP *)
    assert (phase self = RecordButton.recording) as Hph.
    { destruct (phase self); [|done]. cbn in Hq. by case_decide. }
    rewrite Hph in Hq. cbn in Hq. rewrite decide_True in Hq by done.
    unfold phase in Hph.
    destruct (LoopStreamManager._recording self) eqn:Hrec; [|done].
    destruct (LoopStreamManager._stopping_recording self) eqn:Hst; [done|].
    destruct (Hcap Hrec) as (first & start & Hf & Hs & Hfm & Hfle & Hlen).
    rewrite stop_recording_pos by done. intros [= <-].
    cbn [LoopStreamManager.set_event_queue LoopStreamManager._len_beat
         LoopStreamManager._current_frame].
    pose proof (Z.mod_pos_bound (LoopStreamManager._current_frame self)
                  _ Hlb) as Hmod.
    case_decide.
    + (* the first half of the beat: the track is finished *)
      split; [|split].
      * split; [|split]; cbn; done.
      * cbn. unfold phase. cbn. done.
      * eexists [_]. split; [cbn; reflexivity|].
        apply Forall_singleton. split.
        -- apply is_complete_true. cbn. rewrite Hf, Hs.
           split; [eauto|]. split; [eauto|]. split; [eauto|].
           intros Hnil. apply (f_equal length) in Hnil.
           rewrite length_app, length_replicate in Hnil. cbn in Hnil. lia.
        -- cbn. rewrite len_app, len_replicate, Hlen by lia.
           replace (LoopStreamManager._current_frame self - first
                    + (LoopStreamManager._len_beat self
                       - LoopStreamManager._current_frame self
                           `mod` LoopStreamManager._len_beat self))
             with ((LoopStreamManager._current_frame self
                    - LoopStreamManager._current_frame self
                        `mod` LoopStreamManager._len_beat self)
                   + 1 * LoopStreamManager._len_beat self - first) by lia.
           apply grid_sub; [done | | done].
           rewrite Z_mod_plus_full. by apply grid_floor.
    + (* the second half: the machine drains *)
      split; [|split].
      * split; [|split].
        -- intros _. cbn. rewrite Hf, Hs. by eexists _, _.
        -- intros H'. cbn in H'. congruence.
        -- intros _. cbn. eauto.
      * cbn. unfold phase. cbn. by rewrite Hrec.
      * exists []. cbn. by rewrite app_nil_r.
Qed.

Lemma record_finish_disciplined (self s3 : LoopStreamManager.t)
  (indata : list Frame) :
  0 < LoopStreamManager._len_beat self →
  recorder (LoopStreamManager._current_frame self) self →
  LoopStreamManager.finish_on_beat
    (LoopStreamManager.record_indata self indata) (len indata) = Ok s3 →
  recorder (LoopStreamManager._current_frame self + len indata) s3
  ∧ phase s3 = phase self
  ∧ LoopStreamManager._event_queue s3 = LoopStreamManager._event_queue self
  ∧ ∃ em,
      LoopStreamManager._recorded_tracks_queue s3
      = LoopStreamManager._recorded_tracks_queue self ++ em
      ∧ Forall (finished (LoopStreamManager._len_beat self)) em.
Proof.
  intros Hlb (Hcap & Hidle & Hdr).
  pose proof (len_nonneg indata) as Hn.
  pose proof (record_indata_same self indata) as (E1 & E2 & _).
  rewrite finish_on_beat_pos by (by rewrite E1).
  rewrite E1, E2. unfold LoopStreamManager.record_indata.
  destruct (LoopStreamManager._recording self) eqn:Hrec.
  - destruct (Hcap Hrec) as (first & start & Hf & Hs & Hfm & Hfle & Hlen).
    cbn [LoopStreamManager._stopping_recording
         LoopStreamManager.set_recorded_track
         LoopStreamManager._recorded_track].
    destruct (LoopStreamManager._stopping_recording self) eqn:Hst;
      cbn [andb]; [case_bool_decide as Hbeat|]; intros [= <-].
    + (* the beat falls into the cycle: the track is cut and finished *)
      split; [|split; [|split]].
      * split; [|split]; intros H'; cbn in H'; try congruence. by cbn.
      * unfold phase. cbn. by rewrite Hrec, Hst.
      * done.
      * destruct (Hdr Hst) as (stop & Hp).
        eexists [_]. split; [cbn; reflexivity|].
        apply Forall_singleton. unfold finished.
        rewrite is_complete_true. cbn. rewrite Hf, Hs, Hp.
        assert (len (RecordedTrack.data
                       (LoopStreamManager._recorded_track self) ++ indata)
                = LoopStreamManager._current_frame self + len indata - first)
          as Hn'.
        { rewrite len_app, Hlen. lia. }
        remember (len (RecordedTrack.data
                         (LoopStreamManager._recorded_track self) ++ indata))
          as n eqn:Hdef.
        assert (LoopStreamManager._len_beat self <= n) as Hwhole.
        { pose proof (grid_below _ _ _ Hlb Hfm Hfle). lia. }
        pose proof (grid_whole _ _ Hlb Hwhole) as Hcut.
        pose proof (Z.mod_pos_bound n _ Hlb) as Hmod.
        assert (len (py_slice
                       (RecordedTrack.data
                          (LoopStreamManager._recorded_track self) ++ indata)
                       None
                       (Some (n - n `mod` LoopStreamManager._len_beat self)))
                = n - n `mod` LoopStreamManager._len_beat self) as Hcutlen.
        { rewrite py_slice_to by lia.
          unfold len at 1. rewrite length_take. unfold len in Hdef. lia. }
        split.
        -- split; [eauto|]. split; [eauto|]. split; [eauto|].
           intros Hnil. rewrite Hnil in Hcutlen.
           unfold len in Hcutlen at 1. cbn in Hcutlen. lia.
        -- rewrite Hcutlen. by apply grid_floor.
    + (* the machine goes on draining *)
      split; [|split; [|split]].
      * split; [|split].
        -- intros _. cbn. exists first, start.
           rewrite Hf, Hs, len_app, Hlen. repeat split; try done; lia.
        -- intros H'. cbn in H'. congruence.
        -- intros _. cbn. by apply Hdr.
      * unfold phase. cbn. by rewrite Hrec, Hst.
      * done.
      * exists []. cbn. by rewrite app_nil_r.
    + (* the machine goes on recording *)
      split; [|split; [|split]].
      * split; [|split].
        -- intros _. cbn. exists first, start.
           rewrite Hf, Hs, len_app, Hlen. repeat split; try done; lia.
        -- intros H'. cbn in H'. congruence.
        -- intros H'. cbn in H'. congruence.
      * unfold phase. cbn. by rewrite Hrec, Hst.
      * done.
      * exists []. cbn. by rewrite app_nil_r.
  - destruct (Hidle Hrec) as (Hst & Hrt).
    rewrite Hst. cbn [andb]. intros [= <-].
    split; [|split; [|split]]; try done.
    + split; [|split]; try done. intros H'. congruence.
    + exists []. by rewrite app_nil_r.
Qed.

Lemma recorder_set_clock (now : Z) (s : LoopStreamManager.t)
  (last_beat : AudioCircularBuffer.t) (frame : Z) :
  recorder now s →
  recorder now
    (LoopStreamManager.set_current_frame
       (LoopStreamManager.set_last_beat s last_beat) frame).
Proof. by destruct s. Qed.

Lemma fresh_disciplined (len_beat : Z) (mem : list Frame) :
  0 < len_beat → len mem = len_beat →
  disciplined RecordButton.waiting (LoopStreamManager.fresh len_beat mem).
Proof.
  intros Hlb Hmem. split; [by apply fresh_on_grid|]. split; [|done].
  split; [|split]; intros H; cbn in H; try congruence. by cbn.
Qed.

Lemma step_disciplined (b : RecordButton.state)
  (self self' : LoopStreamManager.t) (a : Engine.action)
  (em : list RecordedTrack.t) :
  disciplined b self → Engine.clicked b [a] = true →
  Engine.step self a = Ok (self', em) →
  disciplined (after b a) self'
  ∧ Forall (finished (LoopStreamManager._len_beat self)) em.
Proof.
  intros (Hg & Hrec & Hq) Hclick.
  destruct a as [e| | |c]; cbn [Engine.step after].
  - (* a command is pushed *)
    cbn in Hclick. apply andb_true_iff in Hclick as [He _].
    apply bool_decide_eq_true in He.
    assert (Engine.step self (Engine.Push e)
            = Ok (LoopStreamManager.set_event_queue self
                    (LoopStreamManager._event_queue self ++ [e]), []))
      as Hstep by (by destruct e).
    cbn [Engine.step] in Hstep. rewrite Hstep. intros [= <- <-].
    split; [|done]. split; [done|]. split; [by destruct self|].
    rewrite He. by apply clicks_push.
  - (* a recorded track is taken *)
    unfold LoopStreamManager.stop_recording_pop.
    destruct (LoopStreamManager._recorded_tracks_queue self);
      cbn [Queue.pop]; bind; intros [= <- <-]; (split; [|done]);
      (split; [done|]); (split; [by destruct self | done]).
  - (* the tracks change *)
    bind. intros [= <- <-]. split; [|done].
    split; [done|]. split; [by destruct self | done].
  - (* a cycle *)
    destruct (LoopStreamManager.callback _ _ _ _ _ _) as [[s out]|] eqn:Hc;
      bind; [|done].
    intros [= <- <-].
    destruct (output_underflow (Engine.status c)) eqn:Hu.
    + rewrite (callback_underflow_inv _ _ _ _ _ _ _ _ Hu Hc).
      rewrite drop_all. done.
    + destruct (callback_inv _ _ _ _ _ _ _ _ Hu Hc)
        as (s1 & s3 & lb & H1 & H3 & Hw & ->).
      pose proof (handle_event_same _ _ H1) as E1.
      destruct (handle_event_disciplined b self s1 Hg Hrec Hq H1)
        as (Hrec1 & Hq1 & em1 & Hem1 & Hfin1).
      destruct E1 as (Elb & Ecf & _).
      rewrite <- Ecf in Hrec1.
      destruct (record_finish_disciplined s1 s3 (Engine.indata c))
        as (Hrec3 & Hph3 & Hq3 & em3 & Hem3 & Hfin3);
        [by rewrite Elb; destruct Hg as ((? & _) & _) | done | done |].
      rewrite Elb in Hfin3. rewrite Ecf in Hrec3.
      split.
      * split; [|split].
        -- apply write_sound; [done | | done].
           eapply same_engine_trans; [by apply handle_event_same|].
           eapply same_engine_trans; [apply record_indata_same|].
           by eapply finish_on_beat_same.
        -- by apply recorder_set_clock.
        -- cbn. unfold phase in *. cbn. rewrite Hq3.
           destruct s3; cbn in *. by rewrite Hph3.
      * cbn. rewrite Hem3, Hem1, <- app_assoc, drop_app_length.
        by apply Forall_app.
Qed.

Lemma run_disciplined (acts : list Engine.action) :
  ∀ (b : RecordButton.state) (self self' : LoopStreamManager.t)
    (em : list RecordedTrack.t),
    disciplined b self → Engine.clicked b acts = true →
    Engine.run self acts = Ok (self', em) →
    Forall (finished (LoopStreamManager._len_beat self)) em.
Proof.
  induction acts as [|a acts IH]; intros b self self' em Hd Hclick;
    cbn [Engine.run]; bind.
  - by intros [= _ <-].
  - destruct (Engine.step self a) as [[s1 e1]|] eqn:Hs; bind; [|done].
    destruct (Engine.run s1 acts) as [[s2 e2]|] eqn:Hr; bind; [|done].
    intros [= _ <-].
    assert (Engine.clicked b [a] = true
            ∧ Engine.clicked (after b a) acts = true) as [Ha Hrest].
    { destruct a; cbn in *; try done.
      apply andb_true_iff in Hclick as [-> ->]. done. }
    destruct (step_disciplined b self s1 a e1 Hd Ha Hs) as [Hd1 Hf1].
    apply Forall_app. split; [done|].
    rewrite <- (step_len_beat _ _ _ _ Hs). by eapply IH.
Qed.

Lemma post_production_returns (self : LoopStreamManager.t)
  (rt : RecordedTrack.t) :
  0 < LoopStreamManager._len_beat self →
  RecordedTrack.is_complete rt = true →
  ∃ r, LoopStreamManager.post_production self rt = Ok r.
Proof.
  intros Hlb Hc. unfold LoopStreamManager.post_production.
  rewrite Hc. cbn [negb].
  apply is_complete_true in Hc
    as ([first Hf] & [start Hs] & [stop Hp] & Hd).
  rewrite Hf, Hs, Hp. rewrite py_mod_pos by done. bind.
  rewrite half_beat_div by done. bind.
  destruct (decide (start - first < _)); rewrite py_mod_pos by done; bind;
    case_decide; by eexists.
Qed.

(** ** The tracks the machine finishes *)

(** C5, amended: when the commands are those of the record button (Start
    and Stop take turns, Start first), every recorded track pushed to the
    queue of recorded tracks, at once or after draining, is whole beats
    long. *)
Theorem finished_tracks_are_whole_beats (len_beat : Z) (mem : list Frame)
  (acts : list Engine.action) (s0 self : LoopStreamManager.t)
  (em : list RecordedTrack.t) :
  0 < len_beat → len mem = len_beat →
  LoopStreamManager.init len_beat mem = Ok s0 →
  Engine.clicked RecordButton.waiting acts = true →
  Engine.run s0 acts = Ok (self, em) →
  Forall (fun rt => len (RecordedTrack.data rt) `mod` len_beat = 0) em.
Proof.
  intros Hlb Hmem Hinit Hclick Hrun.
  unfold LoopStreamManager.init in Hinit.
  rewrite decide_False in Hinit by lia. apply Ok_inj in Hinit as <-.
  pose proof (run_disciplined acts _ _ _ _
                (fresh_disciplined _ _ Hlb Hmem) Hclick Hrun) as Hfin.
  eapply Forall_impl; [exact Hfin|]. by intros rt [_ Hrt].
Qed.

(** C8, amended: when the commands are those of the record button, every
    recorded track pushed to the queue of recorded tracks is complete, and
    [post_production] does not raise on it. *)
Theorem finished_tracks_are_complete (len_beat : Z) (mem : list Frame)
  (acts : list Engine.action) (s0 self : LoopStreamManager.t)
  (em : list RecordedTrack.t) :
  0 < len_beat → len mem = len_beat →
  LoopStreamManager.init len_beat mem = Ok s0 →
  Engine.clicked RecordButton.waiting acts = true →
  Engine.run s0 acts = Ok (self, em) →
  Forall (fun rt =>
            RecordedTrack.is_complete rt = true
            ∧ ∃ r, LoopStreamManager.post_production self rt = Ok r) em.
Proof.
  intros Hlb Hmem Hinit Hclick Hrun.
  unfold LoopStreamManager.init in Hinit.
  rewrite decide_False in Hinit by lia. apply Ok_inj in Hinit as <-.
  pose proof (run_disciplined acts _ _ _ _
                (fresh_disciplined _ _ Hlb Hmem) Hclick Hrun) as Hfin.
  pose proof (run_len_beat _ _ _ _ Hrun) as Hlen. cbn in Hlen.
  eapply Forall_impl; [exact Hfin|]. intros rt [Hrt _].
  split; [done|]. apply post_production_returns; [|done].
  by rewrite Hlen.
Qed.

(** C5, as the claim states it, fails when a Stop is consumed while the
    machine is idle: with beats of 4 frames, after one cycle of one frame,
    the Stop at frame 1 pushes a track of the 3 frames of silence that
    fill the beat. *)
Lemma stop_while_idle_pushes_a_part_of_a_beat :
  let flags := mkFlags false false false false false in
  let tick := Engine.Tick (Engine.mkCycle [(1, 1)] [silence] flags false) in
  ∃ self,
    LoopStreamManager.init 4 [silence; silence; silence; silence]
    = Ok (LoopStreamManager.fresh 4 [silence; silence; silence; silence])
    ∧ Engine.run
        (LoopStreamManager.fresh 4 [silence; silence; silence; silence])
        [tick; Engine.Push STOP; tick]
      = Ok (self,
            [ {| RecordedTrack.data := [silence; silence; silence];
                 RecordedTrack.first_frame_time := None;
                 RecordedTrack.start_rec_time := None;
                 RecordedTrack.stop_rec_time := Some 1 |} ])
    ∧ len [silence; silence; silence] `mod` 4 = 3.
Proof.
  intros flags tick. eexists.
  split; [reflexivity|]. split; [vm_compute; reflexivity | reflexivity].
Qed.

(** C8, as the claim states it, fails on the same command: a Stop consumed
    while the machine is idle pushes a track with no first frame and no
    start time, and [post_production] raises on it. *)
Lemma stop_while_idle_pushes_an_incomplete_track :
  let flags := mkFlags false false false false false in
  let tick := Engine.Tick (Engine.mkCycle [(1, 1)] [silence] flags false) in
  let rt :=
    {| RecordedTrack.data := [silence; silence; silence; silence];
       RecordedTrack.first_frame_time := None;
       RecordedTrack.start_rec_time := None;
       RecordedTrack.stop_rec_time := Some 0 |} in
  ∃ self,
    Engine.run
      (LoopStreamManager.fresh 4 [silence; silence; silence; silence])
      [Engine.Push STOP; tick]
    = Ok (self, [rt])
    ∧ RecordedTrack.is_complete rt = false
    ∧ LoopStreamManager.post_production self rt
      = Raise IncompleteRecordedTrackError.
Proof.
  intros flags tick rt. eexists.
  split; [vm_compute; reflexivity|]. split; reflexivity.
Qed.

Lemma finished_tracks_are_whole_beats_witness :
  let flags := mkFlags false false false false false in
  let tick f := Engine.Tick (Engine.mkCycle [f] [silence] flags false) in
  let acts :=
    [tick (1, 1); Engine.Push START; tick (2, 2); tick (3, 3);
     Engine.Push STOP; tick (4, 4); tick (5, 5)] in
  ∃ self em,
    Engine.run
      (LoopStreamManager.fresh 4 [silence; silence; silence; silence]) acts
    = Ok (self, em)
    ∧ RecordedTrack.data <$> em = [[(1, 1); (2, 2); (3, 3); (4, 4)]]
    ∧ Forall (fun rt => len (RecordedTrack.data rt) `mod` 4 = 0) em.
Proof.
  intros flags tick acts.
  destruct (Engine.run
              (LoopStreamManager.fresh 4 [silence; silence; silence; silence])
              acts) as [[self em]|e] eqn:Hrun;
    [|vm_compute in Hrun; discriminate].
  exists self, em. split; [reflexivity|]. split.
  - vm_compute in Hrun. apply Ok_inj in Hrun. by inversion Hrun.
  - apply (finished_tracks_are_whole_beats 4
             [silence; silence; silence; silence] acts
             (LoopStreamManager.fresh 4 [silence; silence; silence; silence])
             self em).
    + lia.
    + reflexivity.
    + reflexivity.
    + reflexivity.
    + exact Hrun.
Defined.

Lemma finished_tracks_are_complete_witness :
  let flags := mkFlags false false false false false in
  let tick f := Engine.Tick (Engine.mkCycle [f] [silence] flags false) in
  let acts :=
    [tick (1, 1); Engine.Push START; tick (2, 2); Engine.Push STOP;
     tick (3, 3)] in
  ∃ self em,
    Engine.run
      (LoopStreamManager.fresh 4 [silence; silence; silence; silence]) acts
    = Ok (self, em)
    ∧ length em = 1%nat
    ∧ Forall (fun rt =>
                RecordedTrack.is_complete rt = true
                ∧ ∃ r, LoopStreamManager.post_production self rt = Ok r) em.
Proof.
  intros flags tick acts.
  destruct (Engine.run
              (LoopStreamManager.fresh 4 [silence; silence; silence; silence])
              acts) as [[self em]|e] eqn:Hrun;
    [|vm_compute in Hrun; discriminate].
  exists self, em. split; [reflexivity|]. split.
  - vm_compute in Hrun. apply Ok_inj in Hrun. by inversion Hrun.
  - apply (finished_tracks_are_complete 4
             [silence; silence; silence; silence] acts
             (LoopStreamManager.fresh 4 [silence; silence; silence; silence])
             self em).
    + lia.
    + reflexivity.
    + reflexivity.
    + reflexivity.
    + exact Hrun.
Defined.

(** * More properties of the engine *)

(** ** What a cycle leaves alone *)

Lemma py_bound_range (n i : Z) : 0 <= n → 0 <= py_bound n i <= n.
Proof. intros. unfold py_bound. case_decide; lia. Qed.

Lemma py_setslice_len {A} (l l' src : list A) (a b : option Z) :
  py_setslice l a b src = Ok l' → len l' = len l.
Proof.
  unfold py_setslice.
  pose proof (len_nonneg l) as Hn.
  set (s := from_option (py_bound (len l)) 0 a).
  set (e := Z.max s (from_option (py_bound (len l)) (len l) b)).
  assert (0 <= s <= len l) as Hs.
  { unfold s. destruct a; cbn; [by apply py_bound_range | lia]. }
  assert (s <= e <= len l) as He.
  { unfold e. destruct b; cbn;
      [pose proof (py_bound_range (len l) z Hn) |]; lia. }
  assert (∀ mid : list A, len mid = e - s →
            len (take (Z.to_nat s) l ++ mid ++ drop (Z.to_nat e) l) = len l)
    as Hmid.
  { intros mid Hm. rewrite !len_app, Hm. unfold len in *.
    rewrite length_take, length_drop. lia. }
  case_decide as Hsrc.
  - intros [= <-]. by apply Hmid.
  - destruct src as [|x [|y src]]; [done | | done].
    intros [= <-]. apply Hmid. rewrite len_replicate; lia.
Qed.

(** X1: whenever the callback returns, the output block has the size it
    had: the callback fills the block of the stream, whatever the flags. *)
Theorem callback_keeps_the_block_size (self self' : LoopStreamManager.t)
  (locked : bool) (indata outdata out : list Frame) (frames : Z)
  (status : CallbackFlags) :
  LoopStreamManager.callback self locked indata outdata frames status
  = Ok (self', out) →
  len out = len outdata.
Proof.
  unfold LoopStreamManager.callback.
  destruct (output_underflow status).
  - bind. intros [= _ <-]. unfold len. by rewrite length_fmap.
  - destruct (LoopStreamManager.handle_event self); bind; [|done].
    destruct (LoopStreamManager.finish_on_beat _ _); bind; [|done].
    destruct (AudioCircularBuffer.write _ _); bind; [|done].
    destruct (LoopStreamManager.slice_and_mix _ _ _ _); bind; [|done].
    destruct (py_setslice _ _ _ _) eqn:Hset; bind; [|done].
    intros [= _ <-]. by eapply py_setslice_len.
Qed.

Lemma callback_keeps_the_block_size_witness :
  ∃ self' out,
    LoopStreamManager.callback
      (LoopStreamManager.fresh 4 [silence; silence; silence; silence]) false
      [(1, 1); (2, 2)] [(5, 5); (6, 6)] 2
      (mkFlags false false false false false)
    = Ok (self', out)
    ∧ len out = 2.
Proof.
  destruct (LoopStreamManager.callback
              (LoopStreamManager.fresh 4 [silence; silence; silence; silence])
              false [(1, 1); (2, 2)] [(5, 5); (6, 6)] 2
              (mkFlags false false false false false))
    as [[self' out]|e] eqn:Hc; [|vm_compute in Hc; discriminate].
  exists self', out. split; [reflexivity|].
  by rewrite (callback_keeps_the_block_size _ _ _ _ _ _ _ _ Hc).
Defined.

Lemma write_length (b b' : AudioCircularBuffer.t) (data : list Frame) :
  AudioCircularBuffer.write b data = Ok b' →
  AudioCircularBuffer._length b' = AudioCircularBuffer._length b.
Proof.
  unfold AudioCircularBuffer.write. case_decide; [done|].
  destruct (if decide _ then _ else _); bind; [|done].
  destruct (py_mod _ _); bind; [|done].
  by intros [= <-].
Qed.

(** X2: a cycle never changes the beat length or the lists of tracks, and
    keeps the pre-roll buffer one beat long; the frame counter advances by
    [frames], except on output underflow, where it stays. *)
Theorem callback_leaves_the_tracks (self self' : LoopStreamManager.t)
  (locked : bool) (indata outdata out : list Frame) (frames : Z)
  (status : CallbackFlags) :
  LoopStreamManager.callback self locked indata outdata frames status
  = Ok (self', out) →
  LoopStreamManager._len_beat self' = LoopStreamManager._len_beat self
  ∧ LoopStreamManager._tracks self' = LoopStreamManager._tracks self
  ∧ LoopStreamManager._tracks_copy self'
    = LoopStreamManager._tracks_copy self
  ∧ AudioCircularBuffer._length (LoopStreamManager._last_beat self')
    = AudioCircularBuffer._length (LoopStreamManager._last_beat self)
  ∧ LoopStreamManager._current_frame self'
    = LoopStreamManager._current_frame self
      + (if output_underflow status then 0 else frames).
Proof.
  intros Hc. destruct (output_underflow status) eqn:Hu.
  - rewrite (callback_underflow_inv _ _ _ _ _ _ _ _ Hu Hc).
    repeat split. lia.
  - destruct (callback_inv _ _ _ _ _ _ _ _ Hu Hc)
      as (s1 & s3 & lb & H1 & H3 & Hw & ->).
    pose proof (same_engine_trans _ _ _
                  (same_engine_trans _ _ _ (handle_event_same _ _ H1)
                     (record_indata_same s1 indata))
                  (finish_on_beat_same _ _ _ H3)) as (E1 & E2 & E3 & E4 & E5).
    cbn. repeat split; try done. by eapply write_length.
Qed.

Lemma callback_leaves_the_tracks_witness :
  let track := PlayingTrack.init [(1, 1); (2, 2); (3, 3)] 0 in
  let self :=
    LoopStreamManager.set_tracks
      (LoopStreamManager.fresh 4 [silence; silence; silence; silence])
      [track] [] in
  ∃ self' out,
    LoopStreamManager.callback self false [(4, 4); (6, 6)]
      [silence; silence] 2 (mkFlags false false false false false)
    = Ok (self', out)
    ∧ LoopStreamManager._tracks self' = [track]
    ∧ LoopStreamManager._current_frame self' = 2.
Proof.
  intros track self.
  destruct (LoopStreamManager.callback self false [(4, 4); (6, 6)]
              [silence; silence] 2 (mkFlags false false false false false))
    as [[self' out]|e] eqn:Hc; [|vm_compute in Hc; discriminate].
  exists self', out. split; [reflexivity|].
  destruct (callback_leaves_the_tracks _ _ _ _ _ _ _ _ Hc)
    as (_ & Ht & _ & _ & Hf).
  split; [exact Ht | exact Hf].
Defined.

(** ** The queues in a cycle *)

Lemma finish_on_beat_event_queue (self s3 : LoopStreamManager.t)
  (frames : Z) :
  LoopStreamManager.finish_on_beat self frames = Ok s3 →
  LoopStreamManager._event_queue s3 = LoopStreamManager._event_queue self.
Proof.
  unfold LoopStreamManager.finish_on_beat.
  destruct (LoopStreamManager._stopping_recording self).
  - destruct (on_beat _ _ _) as [[]|]; bind; [| |done].
    + destruct (py_mod _ _); bind; [|done]. by intros [= <-].
    + by intros [= <-].
  - by intros [= <-].
Qed.

Lemma handle_event_event_queue (self s1 : LoopStreamManager.t) :
  LoopStreamManager.handle_event self = Ok s1 →
  LoopStreamManager._event_queue s1
  = drop 1 (LoopStreamManager._event_queue self).
Proof.
  unfold LoopStreamManager.handle_event.
  destruct (LoopStreamManager._event_queue self) as [|[] q] eqn:Hq;
    cbn [Queue.pop]; bind.
  - intros [= <-]. by rewrite Hq.
  - intros [= <-]. unfold LoopStreamManager._initialize_recording. cbn.
    by destruct (LoopStreamManager._stopping_recording self).
  - unfold LoopStreamManager._stop_recording.
    destruct (is_in_first_half_of_beat _ _) as [[]|]; bind; [| |done].
    + destruct (py_mod _ _); bind; [|done].
      destruct (np_zeros _); bind; [|done].
      by intros [= <-].
    + by intros [= <-].
Qed.

(** X3: a cycle without output underflow takes the first command of the
    queue, if there is one, and leaves the others in their order; a cycle
    with output underflow takes none. *)
Theorem callback_takes_one_command (self self' : LoopStreamManager.t)
  (locked : bool) (indata outdata out : list Frame) (frames : Z)
  (status : CallbackFlags) :
  LoopStreamManager.callback self locked indata outdata frames status
  = Ok (self', out) →
  LoopStreamManager._event_queue self'
  = if output_underflow status then LoopStreamManager._event_queue self
    else drop 1 (LoopStreamManager._event_queue self).
Proof.
  intros Hc. destruct (output_underflow status) eqn:Hu.
  - by rewrite (callback_underflow_inv _ _ _ _ _ _ _ _ Hu Hc).
  - destruct (callback_inv _ _ _ _ _ _ _ _ Hu Hc)
      as (s1 & s3 & lb & H1 & H3 & Hw & ->).
    cbn. rewrite (finish_on_beat_event_queue _ _ _ H3).
    rewrite <- (handle_event_event_queue _ _ H1).
    unfold LoopStreamManager.record_indata.
    by destruct (LoopStreamManager._recording s1).
Qed.

Lemma callback_takes_one_command_witness :
  let self :=
    LoopStreamManager.set_event_queue
      (LoopStreamManager.fresh 4 [silence; silence; silence; silence])
      [START; STOP; START] in
  ∃ self' out,
    LoopStreamManager.callback self false [(4, 4)] [silence] 1
      (mkFlags false false false false false)
    = Ok (self', out)
    ∧ LoopStreamManager._event_queue self' = [STOP; START].
Proof.
  intros self.
  destruct (LoopStreamManager.callback self false [(4, 4)] [silence] 1
              (mkFlags false false false false false))
    as [[self' out]|e] eqn:Hc; [|vm_compute in Hc; discriminate].
  exists self', out. split; [reflexivity|].
  exact (callback_takes_one_command _ _ _ _ _ _ _ _ Hc).
Defined.

Lemma finish_on_beat_pushes (self s3 : LoopStreamManager.t) (frames : Z) :
  LoopStreamManager.finish_on_beat self frames = Ok s3 →
  ∃ em,
    LoopStreamManager._recorded_tracks_queue s3
    = LoopStreamManager._recorded_tracks_queue self ++ em
    ∧ (length em <= 1)%nat
    ∧ (LoopStreamManager._stopping_recording self = false → em = []).
Proof.
  unfold LoopStreamManager.finish_on_beat.
  destruct (LoopStreamManager._stopping_recording self).
  - destruct (on_beat _ _ _) as [[]|]; bind; [| |done].
    + destruct (py_mod _ _); bind; [|done]. intros [= <-].
      eexists [_]. cbn. split; [done|]. split; [lia | done].
    + intros [= <-]. exists []. rewrite app_nil_r. cbn. split; [done|].
      split; [lia | done].
  - intros [= <-]. exists []. rewrite app_nil_r. cbn. split; [done|].
    split; [lia | done].
Qed.

Lemma handle_event_pushes (self s1 : LoopStreamManager.t) :
  LoopStreamManager.handle_event self = Ok s1 →
  ∃ em,
    LoopStreamManager._recorded_tracks_queue s1
    = LoopStreamManager._recorded_tracks_queue self ++ em
    ∧ (length em <= 1)%nat
    ∧ (em ≠ [] → LoopStreamManager._stopping_recording s1 = false).
Proof.
  unfold LoopStreamManager.handle_event.
  destruct (LoopStreamManager._event_queue self) as [|[] q] eqn:Hq;
    cbn [Queue.pop]; bind.
  - intros [= <-]. exists []. rewrite app_nil_r. cbn.
    split; [done|]. split; [lia | done].
  - intros [= <-]. exists []. unfold LoopStreamManager._initialize_recording.
    cbn. destruct (LoopStreamManager._stopping_recording self); cbn;
      rewrite app_nil_r; (split; [done|]); (split; [lia | done]).
  - unfold LoopStreamManager._stop_recording.
    destruct (is_in_first_half_of_beat _ _) as [[]|]; bind; [| |done].
    + destruct (py_mod _ _); bind; [|done].
      destruct (np_zeros _); bind; [|done].
      intros [= <-]. eexists [_]. cbn. split; [done|]. split; [lia | done].
    + intros [= <-]. exists []. cbn. rewrite app_nil_r.
      split; [done|]. split; [lia | done].
Qed.

(** X4: a cycle pushes at most one recorded track, at the end of the queue
    of recorded tracks, and takes none from it. *)
Theorem callback_pushes_at_most_one_track (self self' : LoopStreamManager.t)
  (locked : bool) (indata outdata out : list Frame) (frames : Z)
  (status : CallbackFlags) :
  LoopStreamManager.callback self locked indata outdata frames status
  = Ok (self', out) →
  ∃ em,
    LoopStreamManager._recorded_tracks_queue self'
    = LoopStreamManager._recorded_tracks_queue self ++ em
    ∧ (length em <= 1)%nat.
Proof.
  intros Hc. destruct (output_underflow status) eqn:Hu.
  - rewrite (callback_underflow_inv _ _ _ _ _ _ _ _ Hu Hc).
    exists []. rewrite app_nil_r. cbn. split; [done | lia].
  - destruct (callback_inv _ _ _ _ _ _ _ _ Hu Hc)
      as (s1 & s3 & lb & H1 & H3 & Hw & ->).
    destruct (handle_event_pushes _ _ H1) as (em1 & Hq1 & Hl1 & Hst1).
    destruct (finish_on_beat_pushes _ _ _ H3) as (em3 & Hq3 & Hl3 & Hst3).
    assert (LoopStreamManager._recorded_tracks_queue
              (LoopStreamManager.record_indata s1 indata)
            = LoopStreamManager._recorded_tracks_queue s1
            ∧ LoopStreamManager._stopping_recording
                (LoopStreamManager.record_indata s1 indata)
              = LoopStreamManager._stopping_recording s1) as [Eq Es].
    { unfold LoopStreamManager.record_indata.
      by destruct (LoopStreamManager._recording s1). }
    rewrite Eq, Hq1 in Hq3. rewrite Es in Hst3.
    exists (em1 ++ em3). cbn. rewrite Hq3, app_assoc. split; [done|].
    destruct em1 as [|rt em1].
    + done.
    + rewrite Hst3 by (by apply Hst1). rewrite app_nil_r. done.
Qed.

Lemma callback_pushes_at_most_one_track_witness :
  let self :=
    LoopStreamManager.set_event_queue
      (LoopStreamManager.fresh 4 [silence; silence; silence; silence])
      [STOP] in
  ∃ self' out em,
    LoopStreamManager.callback self false [(4, 4)] [silence] 1
      (mkFlags false false false false false)
    = Ok (self', out)
    ∧ LoopStreamManager._recorded_tracks_queue self' = [] ++ em
    ∧ (length em <= 1)%nat.
Proof.
  intros self.
  destruct (LoopStreamManager.callback self false [(4, 4)] [silence] 1
              (mkFlags false false false false false))
    as [[self' out]|e] eqn:Hc; [|vm_compute in Hc; discriminate].
  destruct (callback_pushes_at_most_one_track _ _ _ _ _ _ _ _ Hc)
    as (em & Hq & Hl).
  exists self', out, em. split; [reflexivity|]. split; [exact Hq | exact Hl].
Defined.

(** ** What a cycle plays *)

(** X5: with no track to play, in either list, a cycle without output
    underflow plays its input back. *)
Theorem callback_without_tracks_plays_the_input
  (self : LoopStreamManager.t) (locked : bool)
  (indata outdata : list Frame) (frames : Z) (status : CallbackFlags) :
  sound self →
  len indata <= LoopStreamManager._len_beat self →
  len outdata = len indata →
  LoopStreamManager._tracks self = [] →
  LoopStreamManager._tracks_copy self = [] →
  output_underflow status = false →
  ∃ self',
    LoopStreamManager.callback self locked indata outdata frames status
    = Ok (self', indata).
Proof.
  intros Hs Hin Hout Ht Htc Hu.
  pose proof (slice_and_mix_no_tracks self locked indata frames Ht Htc)
    as Hmix.
  destruct (callback_returns self locked indata outdata frames status)
    as (s1 & s3 & lb & mixed & _ & _ & _ & Hm & Hc); [done | | done |].
  { split; [done|]. split; [done|]. by eexists. }
  rewrite Hmix in Hm. apply Ok_inj in Hm as <-. by eexists.
Qed.

Lemma callback_without_tracks_plays_the_input_witness :
  ∃ self',
    LoopStreamManager.callback
      (LoopStreamManager.fresh 4 [silence; silence; silence; silence]) true
      [(4, 4); (5, 5)] [silence; silence] 2
      (mkFlags false false false false false)
    = Ok (self', [(4, 4); (5, 5)]).
Proof.
  apply (callback_without_tracks_plays_the_input
           (LoopStreamManager.fresh 4 [silence; silence; silence; silence])
           true [(4, 4); (5, 5)] [silence; silence] 2
           (mkFlags false false false false false)).
  - split; [cbn; lia|]. split; [|reflexivity].
    split; [reflexivity | cbn; lia].
  - vm_compute. discriminate.
  - reflexivity.
  - reflexivity.
  - reflexivity.
  - reflexivity.
Defined.

(** X6: a block longer than one beat is refused: the cycle, without output
    underflow, raises the [NotImplementedError] of the pre-roll buffer. *)
Theorem callback_refuses_long_blocks (self : LoopStreamManager.t)
  (locked : bool) (indata outdata : list Frame) (frames : Z)
  (status : CallbackFlags) :
  sound self →
  LoopStreamManager._len_beat self < len indata →
  output_underflow status = false →
  LoopStreamManager.callback self locked indata outdata frames status
  = Raise NotImplementedError.
Proof.
  intros (Hlb & Hwf & HC) Hlong Hu.
  rewrite callback_steps by done.
  destruct (handle_event_pos self Hlb) as (s1 & -> & E1). bind.
  rewrite finish_on_beat_pos.
  2:{ destruct (record_indata_same s1 indata) as (-> & _).
      by destruct E1 as (-> & _). }
  bind. unfold AudioCircularBuffer.write.
  by rewrite decide_True by lia.
Qed.

Lemma callback_refuses_long_blocks_witness :
  LoopStreamManager.callback
    (LoopStreamManager.fresh 2 [silence; silence]) false
    [(1, 1); (2, 2); (3, 3)] [silence; silence; silence] 3
    (mkFlags false false false false false)
  = Raise NotImplementedError.
Proof.
  apply (callback_refuses_long_blocks
           (LoopStreamManager.fresh 2 [silence; silence]) false
           [(1, 1); (2, 2); (3, 3)] [silence; silence; silence] 3
           (mkFlags false false false false false)).
  - split; [cbn; lia|]. split; [|reflexivity].
    split; [reflexivity | cbn; lia].
  - vm_compute. reflexivity.
  - reflexivity.
Defined.

(** ** The frame counter *)

(** X7: the frame counter counts the frames processed: after a run, it has
    advanced by the blocks of the cycles without output underflow, and by
    nothing else. *)
Theorem current_frame_counts_the_frames (acts : list Engine.action) :
  ∀ (self self' : LoopStreamManager.t) (em : list RecordedTrack.t),
    Engine.run self acts = Ok (self', em) →
    LoopStreamManager._current_frame self'
    = LoopStreamManager._current_frame self + processed acts.
Proof.
  induction acts as [|a acts IH]; intros self self' em;
    cbn [Engine.run processed]; bind.
  - intros [= <- _]. lia.
  - destruct (Engine.step self a) as [[s1 e1]|] eqn:Hs; bind; [|done].
    destruct (Engine.run s1 acts) as [[s2 e2]|] eqn:Hr; bind; [|done].
    intros [= <- _]. rewrite (IH _ _ _ Hr).
    destruct a as [[]| | |c]; cbn [Engine.step] in Hs; revert Hs; bind.
    + by intros [= <- _].
    + by intros [= <- _].
    + unfold LoopStreamManager.stop_recording_pop.
      destruct (LoopStreamManager._recorded_tracks_queue self);
        cbn [Queue.pop]; bind; by intros [= <- _].
    + by intros [= <- _].
    + destruct (LoopStreamManager.callback _ _ _ _ _ _) as [[s out]|] eqn:Hc;
        bind; [|done].
      intros [= <- _].
      destruct (output_underflow (Engine.status c)) eqn:Hu.
      * rewrite (callback_underflow_inv _ _ _ _ _ _ _ _ Hu Hc). lia.
      * destruct (callback_inv _ _ _ _ _ _ _ _ Hu Hc)
          as (s1' & s3 & lb & H1 & H3 & Hw & ->).
        cbn. lia.
Qed.

Lemma current_frame_counts_the_frames_witness :
  let flags := mkFlags false false false false false in
  let under := mkFlags false false true false false in
  let acts :=
    [Engine.Tick (Engine.mkCycle [(1, 1); (2, 2)] [silence; silence]
                    flags false);
     Engine.Push START;
     Engine.Tick (Engine.mkCycle [(3, 3); (4, 4)] [silence; silence]
                    under false);
     Engine.Tick (Engine.mkCycle [(5, 5)] [silence] flags false)] in
  ∃ self em,
    Engine.run
      (LoopStreamManager.fresh 4 [silence; silence; silence; silence]) acts
    = Ok (self, em)
    ∧ LoopStreamManager._current_frame self = 3.
Proof.
  intros flags under acts.
  destruct (Engine.run
              (LoopStreamManager.fresh 4 [silence; silence; silence; silence])
              acts) as [[self em]|e] eqn:Hrun;
    [|vm_compute in Hrun; discriminate].
  exists self, em. split; [reflexivity|].
  rewrite (current_frame_counts_the_frames acts _ _ _ Hrun). reflexivity.
Defined.

(** * More properties of the utilities *)

(** ** The queue *)

Lemma pushes_app {A} (xs : list A) :
  ∀ q : Queue.t A, foldl Queue.push q xs = q ++ xs.
Proof.
  induction xs as [|x xs IH]; intros q; cbn.
  - by rewrite app_nil_r.
  - rewrite IH. unfold Queue.push. by rewrite <- app_assoc.
Qed.

Lemma pops_all {A} (l : list A) : pops (length l) l = Some (l, []).
Proof. induction l as [|x l IH]; cbn; [done | by rewrite IH]. Qed.

Lemma pops_too_many {A} (l : list A) : pops (S (length l)) l = None.
Proof.
  induction l as [|x l IH]; [done|].
  change (pops (S (length (x :: l))) (x :: l))
    with (match pops (S (length l)) l with
          | None => None
          | Some (xs, q'') => Some (x :: xs, q'')
          end).
  by rewrite IH.
Qed.

(** X8: the queue is first in, first out: after items are pushed to a
    queue, as many pops as it holds return what it held, oldest first, and
    then the pushed items in the order of the pushes, and leave it
    empty. *)
Theorem queue_is_first_in_first_out {A} (q : Queue.t A) (xs : list A) :
  pops (length q + length xs) (foldl Queue.push q xs) = Some (q ++ xs, [])
  ∧ Queue.empty (foldl Queue.push q xs) = bool_decide (q ++ xs = [])
  ∧ pops (S (length q + length xs)) (foldl Queue.push q xs) = None.
Proof.
  rewrite pushes_app, <- length_app. split; [apply pops_all|]. split.
  - by destruct (q ++ xs).
  - apply pops_too_many.
Qed.

(** ** The circular buffer, once more *)

(** X9: on a buffer that owns its frames, [write] fails in one way only:
    with [NotImplementedError], when the data is longer than the buffer;
    when it returns, the buffer owns as many frames as before, and its
    cursor is inside them. *)
Theorem write_fails_on_long_data_only (b : AudioCircularBuffer.t)
  (data : list Frame) :
  AudioCircularBuffer.wf b →
  match AudioCircularBuffer.write b data with
  | Ok b' =>
      len data <= AudioCircularBuffer._length b
      ∧ AudioCircularBuffer.wf b'
      ∧ AudioCircularBuffer._length b' = AudioCircularBuffer._length b
  | Raise e =>
      e = NotImplementedError ∧ AudioCircularBuffer._length b < len data
  end.
Proof.
  intros Hwf.
  destruct (decide (len data <= AudioCircularBuffer._length b)) as [Hle|Hgt].
  - destruct (write_lookup b data Hwf Hle)
      as (b' & -> & HC & Hl & Hi & _).
    split; [done|]. split; [|done].
    split; [congruence|]. rewrite HC, Hi. apply Z.mod_pos_bound.
    destruct Hwf. lia.
  - unfold AudioCircularBuffer.write. rewrite decide_True by lia.
    split; [done | lia].
Qed.

Lemma write_fails_on_long_data_only_witness :
  AudioCircularBuffer.write
    (AudioCircularBuffer.init 2 [silence; silence])
    [(1, 1); (2, 2); (3, 3)]
  = Raise NotImplementedError.
Proof.
  pose proof (write_fails_on_long_data_only
                (AudioCircularBuffer.init 2 [silence; silence])
                [(1, 1); (2, 2); (3, 3)]) as H.
  destruct (AudioCircularBuffer.write _ _) as [b'|e].
  - destruct H as (Hle & _); [split; [reflexivity | cbn; lia]|].
    vm_compute in Hle. by destruct Hle.
  - destruct H as (-> & _); [split; [reflexivity | cbn; lia]|].
    reflexivity.
Defined.

(** X10: [write] stores the frames of the data one after the other from
    the cursor, going on at the start of the buffer when it reaches the
    end; it moves the cursor behind the last frame stored, and leaves the
    other places of the buffer as they were. *)
Theorem write_stores_around_the_buffer (b : AudioCircularBuffer.t)
  (data : list Frame) :
  AudioCircularBuffer.wf b →
  len data <= AudioCircularBuffer._length b →
  let size := AudioCircularBuffer._length b in
  let cursor := AudioCircularBuffer._index b in
  ∃ b',
    AudioCircularBuffer.write b data = Ok b'
    ∧ AudioCircularBuffer._index b' = (cursor + len data) `mod` size
    ∧ (∀ t : nat,
         Z.of_nat t < len data →
         AudioCircularBuffer._data b'
           !! Z.to_nat ((cursor + Z.of_nat t) `mod` size)
         = data !! t)
    ∧ (∀ p : nat,
         Z.of_nat p < size →
         len data <= (Z.of_nat p - cursor) `mod` size →
         AudioCircularBuffer._data b' !! p
         = AudioCircularBuffer._data b !! p).
Proof.
  intros Hwf Hle size cursor.
  destruct (write_lookup b data Hwf Hle) as (b' & Hb' & _ & _ & Hi & Hd).
  fold size cursor in Hi, Hd. pose proof Hwf as [_ Hc]. fold size cursor in Hc.
  exists b'. split; [done|]. split; [done|]. split.
  - intros t Ht.
    pose proof (Z.mod_pos_bound (cursor + Z.of_nat t) size ltac:(lia)) as Hm.
    rewrite Hd by lia. cbv zeta. rewrite Z2Nat.id by lia.
    rewrite Zminus_mod_idemp_l.
    replace (cursor + Z.of_nat t - cursor) with (Z.of_nat t) by lia.
    rewrite Z.mod_small by lia. rewrite decide_True by lia.
    by rewrite Nat2Z.id.
  - intros p Hp Hout. rewrite Hd by done. cbv zeta.
    by rewrite decide_False by lia.
Qed.

Lemma write_stores_around_the_buffer_witness :
  ∃ b',
    AudioCircularBuffer.write
      (AudioCircularBuffer.mk 4 [(1, 1); (2, 2); (3, 3); (4, 4)] 3)
      [(7, 7); (8, 8)]
    = Ok b'
    ∧ AudioCircularBuffer._index b' = 1
    ∧ AudioCircularBuffer._data b' !! 3%nat = Some (7, 7)
    ∧ AudioCircularBuffer._data b' !! 0%nat = Some (8, 8)
    ∧ AudioCircularBuffer._data b' !! 1%nat = Some (2, 2).
Proof.
  destruct (write_stores_around_the_buffer
              (AudioCircularBuffer.mk 4 [(1, 1); (2, 2); (3, 3); (4, 4)] 3)
              [(7, 7); (8, 8)])
    as (b' & Hb' & Hi & Hin & Hout).
  - split; [reflexivity | cbn; lia].
  - vm_compute. discriminate.
  - exists b'. split; [exact Hb'|]. split; [exact Hi|]. split; [|split].
    + apply (Hin 0%nat). reflexivity.
    + apply (Hin 1%nat). reflexivity.
    + refine (eq_trans (Hout 1%nat _ _) _).
      * reflexivity.
      * vm_compute. discriminate.
      * reflexivity.
Defined.

(** X11: [start_to_index] never returns uninitialised memory: whatever has
    been written to a new buffer of capacity [C], in calls of at most [C]
    frames, it returns the last [n mod C] frames written, where [n] is the
    number of frames written, in the order they were written. *)
Theorem start_to_index_is_what_was_written (C : Z) (mem : list Frame)
  (chunks : list (list Frame)) :
  0 < C → len mem = C →
  Forall (fun c => len c <= C) chunks →
  let written := concat chunks in
  ∃ b,
    AudioCircularBuffer.write_all (AudioCircularBuffer.init C mem) chunks
    = Ok b
    ∧ AudioCircularBuffer.position b = len written `mod` C
    ∧ AudioCircularBuffer.start_to_index b
      = drop (Z.to_nat (len written - len written `mod` C)) written.
Proof.
  intros HC Hmem Hall written.
  destruct (holds_write_all chunks (AudioCircularBuffer.init C mem) []
              (holds_init C mem HC Hmem) Hall) as (b & Hb & HCb & Hh).
  cbn in HCb, Hh. fold written in Hh.
  destruct Hh as ([Hlen Hidx] & Hi & Hw). rewrite HCb in *.
  exists b. split; [done|]. split; [done|].
  pose proof (Z.mod_pos_bound (len written) C HC) as Hk.
  pose proof (Z.div_mod (len written) C ltac:(lia)) as Hdm.
  pose proof (len_nonneg written) as Hn.
  assert (0 <= len written `div` C) as Hq by (apply Z.div_pos; lia).
  unfold AudioCircularBuffer.start_to_index. rewrite Hi.
  rewrite py_slice_to by lia.
  apply list_eq. intros p. rewrite lookup_drop.
  destruct (decide (p < Z.to_nat (len written `mod` C))%nat) as [Hp|Hp].
  - rewrite lookup_take_lt by done.
    specialize (Hw (Z.to_nat (len written - len written `mod` C) + p)%nat).
    replace (Z.of_nat (Z.to_nat (len written - len written `mod` C) + p))
      with (Z.of_nat p + len written `div` C * C) in Hw by lia.
    rewrite Z_mod_plus_full, Z.mod_small, Nat2Z.id in Hw by lia.
    apply Hw. lia.
  - rewrite lookup_take_ge by lia. symmetry.
    apply lookup_ge_None. unfold len in *. lia.
Qed.

Lemma start_to_index_is_what_was_written_witness :
  ∃ b,
    AudioCircularBuffer.write_all
      (AudioCircularBuffer.init 4 [(9, 9); (9, 9); (9, 9); (9, 9)])
      [[(1, 1); (2, 2)]; [(3, 3)]]
    = Ok b
    ∧ AudioCircularBuffer.position b = 3
    ∧ AudioCircularBuffer.start_to_index b = [(1, 1); (2, 2); (3, 3)].
Proof.
  apply (start_to_index_is_what_was_written 4
           [(9, 9); (9, 9); (9, 9); (9, 9)] [[(1, 1); (2, 2)]; [(3, 3)]]).
  - lia.
  - reflexivity.
  - repeat constructor; vm_compute; discriminate.
Defined.

(** ** Beats *)

(** X12: [on_beat] tells whether a beat of the grid falls behind
    [current_frame] and not behind [current_frame + frames]: whether some
    multiple of [len_beat] lies in that window. *)
Theorem on_beat_finds_the_beat (current_frame len_beat frames : Z) :
  0 < len_beat →
  ∃ beat,
    on_beat current_frame len_beat frames = Ok beat
    ∧ (beat = true ↔
       ∃ k, current_frame < k * len_beat <= current_frame + frames).
Proof.
  intros Hlb. rewrite on_beat_pos by done. eexists. split; [done|].
  rewrite bool_decide_eq_true.
  pose proof (Z.mod_pos_bound current_frame len_beat Hlb) as Hm.
  pose proof (Z.div_mod current_frame len_beat ltac:(lia)) as Hdm.
  split.
  - intros Hle. exists (current_frame `div` len_beat + 1). nia.
  - intros (k & Hlo & Hhi).
    assert (current_frame `div` len_beat + 1 <= k) by nia.
    nia.
Qed.

Lemma on_beat_finds_the_beat_witness :
  ∃ beat,
    on_beat 27050 22050 100 = Ok beat
    ∧ (beat = true ↔ ∃ k, 27050 < k * 22050 <= 27050 + 100).
Proof. apply (on_beat_finds_the_beat 27050 22050 100). lia. Defined.


(** * More properties of the tracks *)

(** ** The loop of a playing track *)

(** X13: a playing track loops: a slice does not change when [from_frame]
    moves by whole lengths of the track, forwards or backwards (on an
    empty track both calls raise [ZeroDivisionError]). *)
Theorem slice_is_periodic (self : PlayingTrack.t) (from_frame frames k : Z) :
  PlayingTrack.slice self (from_frame + k * PlayingTrack._length self) frames
  = PlayingTrack.slice self from_frame frames.
Proof.
  unfold PlayingTrack.slice, py_mod.
  case_decide as H0; [done|].
  replace (from_frame + k * PlayingTrack._length self
           - PlayingTrack._playing_from_frame self)
    with (from_frame - PlayingTrack._playing_from_frame self
          + k * PlayingTrack._length self) by lia.
  replace (from_frame - PlayingTrack._playing_from_frame self
           + k * PlayingTrack._length self + frames)
    with (from_frame - PlayingTrack._playing_from_frame self + frames
          + k * PlayingTrack._length self) by lia.
  by rewrite !Z_mod_plus_full.
Qed.

(** X14: a slice shorter than the track is the track played in a loop from
    [playing_from_frame]: its frame [i] is the frame of the track at place
    [(from_frame - playing_from_frame + i) mod length]. *)
Theorem slice_plays_the_loop (data : list Frame)
  (playing_from_frame from_frame frames : Z) :
  0 <= frames < len data →
  ∃ s,
    PlayingTrack.slice (PlayingTrack.init data playing_from_frame)
      from_frame frames = Ok s
    ∧ len s = frames
    ∧ ∀ i : nat,
        Z.of_nat i < frames →
        s !! i
        = data !! Z.to_nat ((from_frame - playing_from_frame + Z.of_nat i)
                              `mod` len data).
Proof.
  intros Hn. unfold PlayingTrack.slice, PlayingTrack.init, py_mod. cbn.
  rewrite !decide_False by lia. cbn.
  assert (0 < len data) as HL by lia.
  pose proof (Z.mod_pos_bound (from_frame - playing_from_frame) (len data) HL)
    as Hs.
  assert (∀ i : Z,
            (from_frame - playing_from_frame + i) `mod` len data
            = ((from_frame - playing_from_frame) `mod` len data + i)
                `mod` len data) as Hshift.
  { intros i. by rewrite Zplus_mod_idemp_l. }
  rewrite (Hshift frames).
  setoid_rewrite Hshift.
  set (start := (from_frame - playing_from_frame) `mod` len data) in *.
  destruct (decide (start + frames < len data)) as [Hfit|Hwrap].
  - rewrite (Z.mod_small (start + frames)) by lia.
    rewrite decide_False by lia. cbn. eexists. split; [reflexivity|].
    rewrite py_slice_range by lia. split.
    { unfold len in *. rewrite length_take, length_drop. lia. }
    intros i Hi. rewrite Z.mod_small by lia.
    rewrite lookup_take_lt by lia. rewrite lookup_drop. f_equal. lia.
  - replace (start + frames) with (start + frames - len data + 1 * len data)
      by lia.
    rewrite Z_mod_plus_full, Z.mod_small by lia.
    rewrite decide_True by lia. cbn. eexists. split; [reflexivity|].
    rewrite py_slice_from, py_slice_to by lia. split.
    { rewrite len_app. unfold len in *. rewrite length_take, length_drop.
      lia. }
    intros i Hi.
    destruct (decide (start + Z.of_nat i < len data)) as [Hlo|Hhi].
    + rewrite Z.mod_small by lia.
      rewrite lookup_app_l by (rewrite length_drop; unfold len in *; lia).
      rewrite lookup_drop. f_equal. lia.
    + replace (start + Z.of_nat i)
        with (start + Z.of_nat i - len data + 1 * len data) by lia.
      rewrite Z_mod_plus_full, Z.mod_small by lia.
      rewrite lookup_app_r by (rewrite length_drop; unfold len in *; lia).
      rewrite length_drop. rewrite lookup_take_lt by (unfold len in *; lia).
      f_equal. unfold len in *. lia.
Qed.

Lemma slice_plays_the_loop_witness :
  ∃ s,
    PlayingTrack.slice
      (PlayingTrack.init [(1, 1); (2, 2); (3, 3)] 10) 15 2 = Ok s
    ∧ len s = 2
    ∧ s !! 0%nat = Some (3, 3)
    ∧ s !! 1%nat = Some (1, 1).
Proof.
  destruct (slice_plays_the_loop [(1, 1); (2, 2); (3, 3)] 10 15 2)
    as (s & Hs & Hl & Hi).
  - vm_compute. split; [discriminate | reflexivity].
  - exists s. split; [exact Hs|]. split; [exact Hl|]. split.
    + apply (Hi 0%nat). reflexivity.
    + apply (Hi 1%nat). reflexivity.
Defined.

(** * More properties of the quantization *)

(** X15: with a beat length above zero, [post_production] raises in one
    case only: [IncompleteRecordedTrackError], exactly when the recorded
    track is not complete. *)
Theorem post_production_raises_on_incomplete_only
  (self : LoopStreamManager.t) (rt : RecordedTrack.t) :
  0 < LoopStreamManager._len_beat self →
  match LoopStreamManager.post_production self rt with
  | Ok _ => RecordedTrack.is_complete rt = true
  | Raise e =>
      e = IncompleteRecordedTrackError
      ∧ RecordedTrack.is_complete rt = false
  end.
Proof.
  intros Hlb. destruct (RecordedTrack.is_complete rt) eqn:Hc.
  - by destruct (post_production_returns self rt Hlb Hc) as (r & ->).
  - unfold LoopStreamManager.post_production. by rewrite Hc.
Qed.

Lemma post_production_raises_on_incomplete_only_witness :
  LoopStreamManager.post_production
    (LoopStreamManager.fresh 2 [silence; silence])
    {| RecordedTrack.data := [(1, 1); (2, 2)];
       RecordedTrack.first_frame_time := Some 0;
       RecordedTrack.start_rec_time := Some 1;
       RecordedTrack.stop_rec_time := None |}
  = Raise IncompleteRecordedTrackError.
Proof.
  pose proof (post_production_raises_on_incomplete_only
                (LoopStreamManager.fresh 2 [silence; silence])
                {| RecordedTrack.data := [(1, 1); (2, 2)];
                   RecordedTrack.first_frame_time := Some 0;
                   RecordedTrack.start_rec_time := Some 1;
                   RecordedTrack.stop_rec_time := None |}) as H.
  destruct (LoopStreamManager.post_production _ _) as [r|e].
  - assert (0 < 2) as H2 by lia. specialize (H H2). discriminate H.
  - destruct H as [-> _]; [cbn; lia | reflexivity].
Defined.

Lemma py_slice_in {A} (l : list A) (a b : Z) :
  0 <= a <= len l → 0 <= b <= len l →
  py_slice l (Some a) (Some b)
  = take (Z.to_nat (b - a)) (drop (Z.to_nat a) l).
Proof.
  intros Ha Hb. unfold py_slice. cbn [from_option].
  by rewrite !py_bound_in by lia.
Qed.

(** X16: from a complete capture that is whole beats long,
    [post_production] makes nothing, or a track that is whole beats long,
    not empty and not longer than the capture, whose data is a run of
    frames of the capture that begins on a beat of it, and which plays
    from a frame that is whole beats behind the first frame of the
    capture. *)
Theorem post_production_keeps_whole_beats (self : LoopStreamManager.t)
  (rt : RecordedTrack.t) (first start stop : Z) :
  0 < LoopStreamManager._len_beat self →
  RecordedTrack.first_frame_time rt = Some first →
  RecordedTrack.start_rec_time rt = Some start →
  RecordedTrack.stop_rec_time rt = Some stop →
  RecordedTrack.data rt ≠ [] →
  len (RecordedTrack.data rt) `mod` LoopStreamManager._len_beat self = 0 →
  let len_beat := LoopStreamManager._len_beat self in
  ∃ r,
    LoopStreamManager.post_production self rt = Ok r
    ∧ ∀ t, r = Some t →
        PlayingTrack._length t = len (PlayingTrack.data t)
        ∧ 0 < PlayingTrack._length t <= len (RecordedTrack.data rt)
        ∧ PlayingTrack._length t `mod` len_beat = 0
        ∧ (PlayingTrack._playing_from_frame t - first) `mod` len_beat = 0
        ∧ ∃ skip,
            0 <= skip ∧ skip `mod` len_beat = 0
            ∧ PlayingTrack.data t
              = take (Z.to_nat (PlayingTrack._length t))
                  (drop (Z.to_nat skip) (RecordedTrack.data rt)).
Proof.
  intros Hlb Hf Hs Hp Hd Hwhole len_beat.
  unfold LoopStreamManager.post_production.
  assert (RecordedTrack.is_complete rt = true) as ->.
  { apply is_complete_true. rewrite Hf, Hs, Hp. eauto. }
  cbn [negb]. rewrite Hf, Hs, Hp. rewrite py_mod_pos by done. bind.
  rewrite half_beat_div by done. bind. fold len_beat.
  set (data := RecordedTrack.data rt) in *.
  change (len data `mod` len_beat = 0) in Hwhole.
  assert (len_beat <= len data) as Hlong.
  { pose proof (Z.div_mod (len data) len_beat ltac:(lia)) as Hdm.
    rewrite Hwhole in Hdm.
    assert (0 < len data).
    { unfold len. destruct data; [done | cbn; lia]. }
    assert (1 <= len data `div` len_beat) by nia. nia. }
  assert (∀ a b first',
            (a = 0 ∨ a = len_beat) → (b = len data - len_beat ∨ b = len data) →
            (first' - first) `mod` len_beat = 0 → a = first' - first →
            ∃ r,
              (if decide (len (py_slice data (Some a) (Some b)) ≠ 0)
               then Ok (Some (PlayingTrack.init
                                (py_slice data (Some a) (Some b)) first'))
               else Ok None) = Ok r
              ∧ ∀ t, r = Some t →
                  PlayingTrack._length t = len (PlayingTrack.data t)
                  ∧ 0 < PlayingTrack._length t <= len data
                  ∧ PlayingTrack._length t `mod` len_beat = 0
                  ∧ (PlayingTrack._playing_from_frame t - first)
                      `mod` len_beat = 0
                  ∧ ∃ skip,
                      0 <= skip ∧ skip `mod` len_beat = 0
                      ∧ PlayingTrack.data t
                        = take (Z.to_nat (PlayingTrack._length t))
                            (drop (Z.to_nat skip) data)) as Hcut.
  { intros a b first' Ha Hb Hfirst Hskip.
    rewrite py_slice_in by lia.
    assert (len (take (Z.to_nat (b - a)) (drop (Z.to_nat a) data))
            = Z.max 0 (b - a)) as Hlen.
    { unfold len in *. rewrite length_take, length_drop. lia. }
    case_decide as Hne; eexists; (split; [reflexivity|]); [|done].
    intros t [= <-]. unfold PlayingTrack.init. cbn.
    rewrite Hlen in *. split; [done|]. split; [lia|]. split.
    - rewrite Z.max_r by lia.
      assert (a `mod` len_beat = 0) as Ham.
      { destruct Ha as [-> | ->]; [by apply Z.mod_0_l; lia|].
        by apply Z_mod_same_full. }
      assert (b `mod` len_beat = 0) as Hbm.
      { destruct Hb as [-> | ->]; [|done].
        apply grid_sub; [done | done | by apply Z_mod_same_full]. }
      by apply grid_sub.
    - split; [done|]. exists a. split; [lia|]. split.
      + destruct Ha as [-> | ->]; [by apply Z.mod_0_l; lia|].
        by apply Z_mod_same_full.
      + by rewrite Z.max_r by lia. }
  destruct (decide (start - first < len_beat `div` 2)) as [H1|H1];
    rewrite py_mod_pos by done; bind.
  - apply Hcut.
    + by left.
    + case_decide; [by left | by right].
    + rewrite Z.sub_diag. by apply Z.mod_0_l; lia.
    + lia.
  - apply Hcut.
    + by right.
    + case_decide; [by left | by right].
    + replace (first + len_beat - first) with len_beat by lia.
      by apply Z_mod_same_full.
    + lia.
Qed.

Lemma post_production_keeps_whole_beats_witness :
  ∃ t,
    LoopStreamManager.post_production
      (LoopStreamManager.fresh 2 [silence; silence])
      {| RecordedTrack.data :=
           [(1, 1); (2, 2); (3, 3); (4, 4); (5, 5); (6, 6)];
         RecordedTrack.first_frame_time := Some 4;
         RecordedTrack.start_rec_time := Some 5;
         RecordedTrack.stop_rec_time := Some 8 |}
    = Ok (Some t)
    ∧ PlayingTrack._length t `mod` 2 = 0
    ∧ 0 < PlayingTrack._length t <= 6.
Proof.
  destruct (post_production_keeps_whole_beats
              (LoopStreamManager.fresh 2 [silence; silence])
              {| RecordedTrack.data :=
                   [(1, 1); (2, 2); (3, 3); (4, 4); (5, 5); (6, 6)];
                 RecordedTrack.first_frame_time := Some 4;
                 RecordedTrack.start_rec_time := Some 5;
                 RecordedTrack.stop_rec_time := Some 8 |} 4 5 8)
    as (r & Hr & Ht).
  - cbn. lia.
  - reflexivity.
  - reflexivity.
  - reflexivity.
  - discriminate.
  - reflexivity.
  - destruct r as [t|]; [|vm_compute in Hr; discriminate].
    exists t. split; [exact Hr|].
    destruct (Ht t eq_refl) as (_ & Hl & Hm & _).
    split; [exact Hm | exact Hl].
Defined.

(** * From the commands to the loop *)

Lemma beat_floor_mod (len_beat x : Z) :
  0 < len_beat → beat_floor len_beat x `mod` len_beat = 0.
Proof. apply grid_floor. Qed.

Lemma beat_floor_same (len_beat x n : Z) :
  0 < len_beat → 0 <= n → x `mod` len_beat + n < len_beat →
  beat_floor len_beat (x + n) = beat_floor len_beat x.
Proof.
  intros Hlb Hn Hlt. unfold beat_floor.
  pose proof (Z.mod_pos_bound x len_beat Hlb).
  rewrite <- (Zplus_mod_idemp_l x n), (Z.mod_small (_ + n)) by lia. lia.
Qed.

Lemma beat_floor_next (len_beat x n : Z) :
  0 < len_beat → n <= len_beat → len_beat <= x `mod` len_beat + n →
  beat_floor len_beat (x + n) = beat_floor len_beat x + len_beat.
Proof.
  intros Hlb Hn Hge. unfold beat_floor.
  pose proof (Z.mod_pos_bound x len_beat Hlb).
  rewrite <- (Zplus_mod_idemp_l x n).
  replace (x `mod` len_beat + n)
    with (x `mod` len_beat + n - len_beat + 1 * len_beat) by lia.
  rewrite Z_mod_plus_full, Z.mod_small by lia. lia.
Qed.

Lemma beat_floor_sub (len_beat x first : Z) :
  0 < len_beat → first `mod` len_beat = 0 →
  (x - first) - (x - first) `mod` len_beat = beat_floor len_beat x - first.
Proof.
  intros Hlb Hf. unfold beat_floor.
  rewrite Zminus_mod, Hf, Z.sub_0_r, Z.mod_mod by lia. lia.
Qed.

Lemma beat_floor_mono (len_beat x y : Z) :
  0 < len_beat → x <= y → beat_floor len_beat x <= beat_floor len_beat y.
Proof.
  intros Hlb Hxy. unfold beat_floor.
  pose proof (Z.mod_pos_bound x len_beat Hlb).
  pose proof (Z.mod_pos_bound y len_beat Hlb).
  pose proof (Z.div_mod x len_beat ltac:(lia)).
  pose proof (Z.div_mod y len_beat ltac:(lia)).
  assert (x `div` len_beat <= y `div` len_beat)
    by (apply Z.div_le_mono; lia).
  nia.
Qed.

Lemma pushed_nothing {A} (q em : list A) : q = q ++ em → em = [].
Proof.
  intros H. apply (f_equal length) in H. rewrite length_app in H.
  destruct em; [done | cbn in H; lia].
Qed.

Lemma pushed_one {A} (q em : list A) (x : A) : q ++ [x] = q ++ em → em = [x].
Proof. intros H. by apply app_inv_head in H. Qed.

Lemma handle_event_timed (b : RecordButton.state)
  (self s1 : LoopStreamManager.t) :
  on_grid self →
  recorder (LoopStreamManager._current_frame self) self →
  clicks (phase self) (LoopStreamManager._event_queue self) = Some b →
  timed (LoopStreamManager._current_frame self) self →
  LoopStreamManager.handle_event self = Ok s1 →
  timed (LoopStreamManager._current_frame self) s1
  ∧ ∀ em,
      LoopStreamManager._recorded_tracks_queue s1
      = LoopStreamManager._recorded_tracks_queue self ++ em →
      Forall (raw (LoopStreamManager._len_beat self)) em.
Proof.
  intros ((Hlb & Hwf & HC) & Hi) (Hcap & Hidle & Hdr) Hq Ht.
  unfold LoopStreamManager.handle_event.
  destruct (LoopStreamManager._event_queue self) as [|[] q] eqn:Hqueue;
    cbn [Queue.pop]; bind.
  - intros [= <-]. split; [done|].
    intros em Hem. by rewrite (pushed_nothing _ _ Hem).
  - (* START *)
    intros [= <-]. unfold LoopStreamManager._initialize_recording. cbn.
    destruct (LoopStreamManager._stopping_recording self) eqn:Hst; cbn;
      rewrite ?Hst; cbn.
    all: split; [|intros em Hem; by rewrite (pushed_nothing _ _ Hem)].
    all: intros _; cbn; exists (LoopStreamManager._current_frame self).
    all: unfold AudioCircularBuffer.position, beat_floor; rewrite Hi.
    all: split; [done|]; split; [done|]; split; [lia|].
    all: intros H'; cbn in H'; congruence.
  - (* STOP *)
    assert (phase self = RecordButton.recording) as Hph.
    { destruct (phase self); [|done]. cbn in Hq. by case_decide. }
    unfold phase in Hph.
    destruct (LoopStreamManager._recording self) eqn:Hrec; [|done].
    destruct (LoopStreamManager._stopping_recording self) eqn:Hst; [done|].
    destruct (Hcap Hrec) as (first & start' & Hf & Hs & Hfm & Hfle & Hlen).
    destruct (Ht Hrec) as (start & Hf' & Hs' & Hle & _).
    rewrite Hf in Hf'. apply (inj Some) in Hf'.
    rewrite stop_recording_pos by done. intros [= <-].
    cbn [LoopStreamManager.set_event_queue LoopStreamManager._len_beat
         LoopStreamManager._current_frame].
    pose proof (Z.mod_pos_bound (LoopStreamManager._current_frame self)
                  _ Hlb) as Hmod.
    case_decide.
    + split; [intros H'; cbn in H'; congruence|].
      intros em Hem. cbn in Hem. rewrite (pushed_one _ _ _ Hem).
      apply Forall_singleton.
      exists start, (LoopStreamManager._current_frame self). cbn.
      rewrite Hs', Hf, Hf'. split; [done|]. split; [done|].
      split; [done|]. split; [done|].
      rewrite len_app, len_replicate, Hlen, Hf' by lia.
      unfold beat_floor. lia.
    + split.
      * intros _. cbn. exists start. rewrite Hf, Hf', Hs'.
        split; [done|]. split; [done|]. split; [done|].
        intros _. by exists (LoopStreamManager._current_frame self).
      * intros em Hem. cbn in Hem. by rewrite (pushed_nothing _ _ Hem).
Qed.

Lemma record_finish_timed (self s3 : LoopStreamManager.t)
  (indata : list Frame) :
  0 < LoopStreamManager._len_beat self →
  len indata <= LoopStreamManager._len_beat self →
  recorder (LoopStreamManager._current_frame self) self →
  timed (LoopStreamManager._current_frame self) self →
  LoopStreamManager.finish_on_beat
    (LoopStreamManager.record_indata self indata) (len indata) = Ok s3 →
  timed (LoopStreamManager._current_frame self + len indata) s3
  ∧ ∀ em,
      LoopStreamManager._recorded_tracks_queue s3
      = LoopStreamManager._recorded_tracks_queue self ++ em →
      Forall (raw (LoopStreamManager._len_beat self)) em.
Proof.
  intros Hlb Hshort (Hcap & Hidle & Hdr) Ht.
  pose proof (len_nonneg indata) as Hn.
  pose proof (record_indata_same self indata) as (E1 & E2 & _).
  rewrite finish_on_beat_pos by (by rewrite E1).
  rewrite E1, E2. unfold LoopStreamManager.record_indata.
  pose proof (Z.mod_pos_bound (LoopStreamManager._current_frame self)
                _ Hlb) as Hmod.
  destruct (LoopStreamManager._recording self) eqn:Hrec.
  - destruct (Hcap Hrec) as (first & start' & Hf & Hs & Hfm & Hfle & Hlen).
    destruct (Ht Hrec) as (start & Hf' & Hs' & Hle & Hstop).
    rewrite Hf in Hf'. apply (inj Some) in Hf'.
    cbn [LoopStreamManager._stopping_recording
         LoopStreamManager.set_recorded_track
         LoopStreamManager._recorded_track].
    destruct (LoopStreamManager._stopping_recording self) eqn:Hst;
      cbn [andb]; [case_bool_decide as Hbeat|]; intros [= <-].
    + (* the beat falls into the cycle *)
      destruct (Hstop eq_refl) as (stop & Hp & Hss & Hsame).
      split; [intros H'; cbn in H'; congruence|].
      intros em Hem. cbn in Hem. rewrite (pushed_one _ _ _ Hem).
      apply Forall_singleton. exists start, stop. cbn.
      rewrite Hs', Hp, Hf, Hf'. split; [done|]. split; [done|].
      split; [done|]. split; [done|].
      assert (len (RecordedTrack.data
                     (LoopStreamManager._recorded_track self) ++ indata)
              = LoopStreamManager._current_frame self + len indata - first)
        as Hn'.
      { rewrite len_app, Hlen. lia. }
      remember (len (RecordedTrack.data
                       (LoopStreamManager._recorded_track self) ++ indata))
        as n eqn:Hdef.
      assert (n - n `mod` LoopStreamManager._len_beat self
              = beat_floor (LoopStreamManager._len_beat self)
                  (LoopStreamManager._current_frame self)
                + LoopStreamManager._len_beat self - first) as Hcut.
      { rewrite Hn', beat_floor_sub by done.
        rewrite beat_floor_next by (done || lia). lia. }
      assert (first <= beat_floor (LoopStreamManager._len_beat self)
                         (LoopStreamManager._current_frame self)).
      { by apply grid_below. }
      pose proof (Z.mod_pos_bound n _ Hlb).
      rewrite py_slice_to by lia.
      unfold len at 1. rewrite length_take.
      rewrite Hsame, <- Hf'. unfold len in Hdef. lia.
    + (* the machine goes on draining *)
      split; [|intros em Hem; cbn in Hem;
               by rewrite (pushed_nothing _ _ Hem)].
      intros _. cbn. exists start. rewrite Hf, Hf', Hs'.
      split; [done|]. split; [done|]. split; [lia|].
      intros _. destruct (Hstop eq_refl) as (stop & Hp & Hss & Hsame).
      exists stop. split; [done|]. split; [done|].
      rewrite beat_floor_same by lia. done.
    + (* the machine goes on recording *)
      split; [|intros em Hem; cbn in Hem;
               by rewrite (pushed_nothing _ _ Hem)].
      intros _. cbn. exists start. rewrite Hf, Hf', Hs'.
      split; [done|]. split; [done|]. split; [lia|].
      intros H'. cbn in H'. congruence.
  - destruct (Hidle Hrec) as (Hst & Hrt).
    rewrite Hst. cbn [andb]. intros [= <-].
    split; [intros H'; congruence|].
    intros em Hem. by rewrite (pushed_nothing _ _ Hem).
Qed.

Lemma timed_set_clock (now : Z) (s : LoopStreamManager.t)
  (last_beat : AudioCircularBuffer.t) (frame : Z) :
  timed now s →
  timed now
    (LoopStreamManager.set_current_frame
       (LoopStreamManager.set_last_beat s last_beat) frame).
Proof. by destruct s. Qed.

Lemma step_timed (b : RecordButton.state)
  (self self' : LoopStreamManager.t) (a : Engine.action)
  (em : list RecordedTrack.t) :
  disciplined b self →
  timed (LoopStreamManager._current_frame self) self →
  Engine.step self a = Ok (self', em) →
  timed (LoopStreamManager._current_frame self') self'
  ∧ Forall (raw (LoopStreamManager._len_beat self)) em.
Proof.
  intros (Hg & Hrec & Hq) Ht.
  destruct a as [e| | |c]; cbn [Engine.step].
  - assert (Engine.step self (Engine.Push e)
            = Ok (LoopStreamManager.set_event_queue self
                    (LoopStreamManager._event_queue self ++ [e]), []))
      as Hstep by (by destruct e).
    cbn [Engine.step] in Hstep. rewrite Hstep. intros [= <- <-].
    split; [by destruct self | done].
  - unfold LoopStreamManager.stop_recording_pop.
    destruct (LoopStreamManager._recorded_tracks_queue self);
      cbn [Queue.pop]; bind; intros [= <- <-];
      (split; [by destruct self | done]).
  - bind. intros [= <- <-]. split; [by destruct self | done].
  - destruct (LoopStreamManager.callback _ _ _ _ _ _) as [[s out]|] eqn:Hc;
      bind; [|done].
    intros [= <- <-].
    destruct (output_underflow (Engine.status c)) eqn:Hu.
    + rewrite (callback_underflow_inv _ _ _ _ _ _ _ _ Hu Hc).
      rewrite drop_all. done.
    + destruct (callback_inv _ _ _ _ _ _ _ _ Hu Hc)
        as (s1 & s3 & lb & H1 & H3 & Hw & ->).
      pose proof (handle_event_same _ _ H1) as (Elb & Ecf & _).
      destruct (handle_event_disciplined b self s1 Hg Hrec Hq H1)
        as (Hrec1 & Hq1 & em1 & Hem1 & _).
      destruct (handle_event_timed b self s1 Hg Hrec Hq Ht H1)
        as (Ht1 & Hraw1).
      pose proof Hg as ((Hlb & Hwf & HC) & _).
      pose proof (write_inv _ _ _ Hw) as Hshort. rewrite HC in Hshort.
      rewrite <- Ecf in Hrec1, Ht1. rewrite <- Elb in Hshort, Hlb.
      destruct (record_finish_disciplined s1 s3 (Engine.indata c)
                  Hlb Hrec1 H3) as (_ & _ & _ & em3 & Hem3 & _).
      destruct (record_finish_timed s1 s3 (Engine.indata c)
                  Hlb Hshort Hrec1 Ht1 H3) as (Ht3 & Hraw3).
      rewrite Elb in Hraw3. rewrite Ecf in Ht3.
      split.
      * cbn. by apply timed_set_clock.
      * cbn. rewrite Hem3, Hem1, <- app_assoc, drop_app_length.
        apply Forall_app. split; [by apply Hraw1 | by apply Hraw3].
Qed.

Lemma run_timed (acts : list Engine.action) :
  ∀ (b : RecordButton.state) (self self' : LoopStreamManager.t)
    (em : list RecordedTrack.t),
    disciplined b self →
    timed (LoopStreamManager._current_frame self) self →
    Engine.clicked b acts = true →
    Engine.run self acts = Ok (self', em) →
    Forall (raw (LoopStreamManager._len_beat self)) em.
Proof.
  induction acts as [|a acts IH]; intros b self self' em Hd Ht Hclick;
    cbn [Engine.run]; bind.
  - by intros [= _ <-].
  - destruct (Engine.step self a) as [[s1 e1]|] eqn:Hs; bind; [|done].
    destruct (Engine.run s1 acts) as [[s2 e2]|] eqn:Hr; bind; [|done].
    intros [= _ <-].
    assert (Engine.clicked b [a] = true
            ∧ Engine.clicked (after b a) acts = true) as [Ha Hrest].
    { destruct a; cbn in *; try done.
      apply andb_true_iff in Hclick as [-> ->]. done. }
    destruct (step_disciplined b self s1 a e1 Hd Ha Hs) as [Hd1 _].
    destruct (step_timed b self s1 a e1 Hd Ht Hs) as [Ht1 Hraw1].
    apply Forall_app. split; [done|].
    rewrite <- (step_len_beat _ _ _ _ Hs). by eapply IH.
Qed.

Lemma fresh_timed (len_beat : Z) (mem : list Frame) :
  timed 0 (LoopStreamManager.fresh len_beat mem).
Proof. intros H. cbn in H. congruence. Qed.

(** What [post_production] makes of a recorded track that begins on the
    beat before its Start and ends on the beat after its Stop. *)
Lemma post_production_raw (self : LoopStreamManager.t)
  (rt : RecordedTrack.t) (start stop : Z) :
  0 < LoopStreamManager._len_beat self →
  let len_beat := LoopStreamManager._len_beat self in
  RecordedTrack.start_rec_time rt = Some start →
  RecordedTrack.stop_rec_time rt = Some stop →
  start <= stop →
  RecordedTrack.first_frame_time rt = Some (beat_floor len_beat start) →
  len (RecordedTrack.data rt)
  = beat_floor len_beat stop + len_beat - beat_floor len_beat start →
  LoopStreamManager.post_production self rt
  = Ok (if decide (beat_round len_beat start < beat_round len_beat stop)
        then
          Some {| PlayingTrack.data :=
                    take (Z.to_nat (beat_round len_beat stop
                                    - beat_round len_beat start))
                      (drop (Z.to_nat (beat_round len_beat start
                                       - beat_floor len_beat start))
                         (RecordedTrack.data rt));
                  PlayingTrack._playing_from_frame :=
                    beat_round len_beat start;
                  PlayingTrack._length :=
                    beat_round len_beat stop - beat_round len_beat start |}
        else None).
Proof.
  intros Hlb len_beat Hs Hp Hle Hf Hlen.
  pose proof (beat_floor_mono len_beat start stop Hlb Hle) as Hmono.
  pose proof (Z.mod_pos_bound start len_beat Hlb) as Hms.
  pose proof (Z.mod_pos_bound stop len_beat Hlb) as Hmp.
  assert (RecordedTrack.data rt ≠ []) as Hd.
  { intros Hnil. rewrite Hnil in Hlen. unfold len in Hlen. cbn in Hlen. lia. }
  unfold LoopStreamManager.post_production.
  assert (RecordedTrack.is_complete rt = true) as ->.
  { apply is_complete_true. rewrite Hf, Hs, Hp. eauto. }
  cbn [negb]. rewrite Hf, Hs, Hp. rewrite py_mod_pos by done. bind.
  rewrite half_beat_div by done. bind. fold len_beat.
  set (data := RecordedTrack.data rt) in *.
  set (F := beat_floor len_beat start) in *.
  assert (start - F = start `mod` len_beat) as -> by (unfold F, beat_floor; lia).
  assert (F `mod` len_beat = 0) as HF by (by apply beat_floor_mod).
  assert (∀ first', (first' - F) `mod` len_beat = 0 →
            (stop - first') `mod` len_beat = stop `mod` len_beat) as Hoff.
  { intros first' Hm.
    replace (stop - first') with (stop - ((first' - F) + F)) by lia.
    rewrite Zminus_mod, Zplus_mod, Hm, HF. cbn.
    rewrite Z.mod_0_l, Z.sub_0_r, Z.mod_mod by lia. done. }
  assert (∀ a b first',
            0 <= a <= len data → 0 <= b <= len data →
            (if decide (len (py_slice data (Some a) (Some b)) ≠ 0)
             then Ok (Some (PlayingTrack.init
                              (py_slice data (Some a) (Some b)) first'))
             else Ok None)
            = Ok (if decide (a < b)
                  then Some {| PlayingTrack.data :=
                                 take (Z.to_nat (b - a))
                                   (drop (Z.to_nat a) data);
                               PlayingTrack._playing_from_frame := first';
                               PlayingTrack._length := b - a |}
                  else None)) as Hcut.
  { intros a b first' Ha Hb. rewrite py_slice_in by done.
    assert (len (take (Z.to_nat (b - a)) (drop (Z.to_nat a) data))
            = Z.max 0 (b - a)) as Hl.
    { unfold len in *. rewrite length_take, length_drop. lia. }
    unfold PlayingTrack.init. rewrite Hl.
    destruct (decide (a < b)).
    - rewrite decide_True by lia. by rewrite Z.max_r by lia.
    - by rewrite decide_False by lia. }
  unfold beat_round. fold F.
  destruct (decide (start `mod` len_beat < len_beat `div` 2)) as [H1|H1].
  - rewrite py_mod_pos by done. bind.
    rewrite Hoff by (rewrite Z.sub_diag; by apply Z.mod_0_l; lia).
    destruct (decide (stop `mod` len_beat < len_beat `div` 2)) as [H2|H2].
    + rewrite Hcut by lia.
      replace (len data - len_beat - 0) with (beat_floor len_beat stop - F)
        by lia.
      replace (F - F) with 0 by lia.
      destruct (decide (0 < len data - len_beat));
        [rewrite decide_True by lia | rewrite decide_False by lia]; done.
    + rewrite Hcut by lia.
      replace (len data - 0) with (beat_floor len_beat stop + len_beat - F)
        by lia.
      replace (F - F) with 0 by lia.
      destruct (decide (0 < len data));
        [rewrite decide_True by lia | rewrite decide_False by lia]; done.
  - rewrite py_mod_pos by done. bind.
    rewrite Hoff.
    2:{ replace (F + len_beat - F) with len_beat by lia.
        by apply Z_mod_same_full. }
    destruct (decide (stop `mod` len_beat < len_beat `div` 2)) as [H2|H2].
    + rewrite Hcut by lia.
      replace (len data - len_beat - len_beat)
        with (beat_floor len_beat stop - (F + len_beat)) by lia.
      replace (F + len_beat - F) with len_beat by lia.
      destruct (decide (len_beat < len data - len_beat));
        [rewrite decide_True by lia | rewrite decide_False by lia]; done.
    + rewrite Hcut by lia.
      replace (len data - len_beat)
        with (beat_floor len_beat stop + len_beat - (F + len_beat)) by lia.
      replace (F + len_beat - F) with len_beat by lia.
      destruct (decide (len_beat < len data));
        [rewrite decide_True by lia | rewrite decide_False by lia]; done.
Qed.

(** X17: when the commands are those of the record button, every recorded
    track pushed to the queue of recorded tracks has the times of its Start
    and Stop commands, begins on the beat at or before the Start and ends
    on the beat after the Stop: it is as long as from the one beat to the
    other. *)
Theorem recorded_tracks_span_the_beats (len_beat : Z) (mem : list Frame)
  (acts : list Engine.action) (s0 self : LoopStreamManager.t)
  (em : list RecordedTrack.t) :
  0 < len_beat → len mem = len_beat →
  LoopStreamManager.init len_beat mem = Ok s0 →
  Engine.clicked RecordButton.waiting acts = true →
  Engine.run s0 acts = Ok (self, em) →
  Forall (fun rt =>
            ∃ start stop,
              RecordedTrack.start_rec_time rt = Some start
              ∧ RecordedTrack.stop_rec_time rt = Some stop
              ∧ start <= stop
              ∧ RecordedTrack.first_frame_time rt
                = Some (start - start `mod` len_beat)
              ∧ len (RecordedTrack.data rt)
                = (stop - stop `mod` len_beat) + len_beat
                  - (start - start `mod` len_beat)) em.
Proof.
  intros Hlb Hmem Hinit Hclick Hrun.
  unfold LoopStreamManager.init in Hinit.
  rewrite decide_False in Hinit by lia. apply Ok_inj in Hinit as <-.
  exact (run_timed acts _ _ _ _ (fresh_disciplined _ _ Hlb Hmem)
           (fresh_timed _ _) Hclick Hrun).
Qed.

Lemma recorded_tracks_span_the_beats_witness :
  let flags := mkFlags false false false false false in
  let tick f := Engine.Tick (Engine.mkCycle [f] [silence] flags false) in
  let acts :=
    [tick (1, 1); Engine.Push START; tick (2, 2); tick (3, 3);
     Engine.Push STOP; tick (4, 4); tick (5, 5)] in
  ∃ self rt,
    Engine.run
      (LoopStreamManager.fresh 4 [silence; silence; silence; silence]) acts
    = Ok (self, [rt])
    ∧ ∃ start stop,
        RecordedTrack.start_rec_time rt = Some start
        ∧ RecordedTrack.stop_rec_time rt = Some stop
        ∧ start <= stop
        ∧ RecordedTrack.first_frame_time rt = Some (start - start `mod` 4)
        ∧ len (RecordedTrack.data rt)
          = (stop - stop `mod` 4) + 4 - (start - start `mod` 4).
Proof.
  intros flags tick acts.
  destruct (Engine.run
              (LoopStreamManager.fresh 4 [silence; silence; silence; silence])
              acts) as [[self em]|e] eqn:Hrun;
    [|vm_compute in Hrun; discriminate].
  pose proof (recorded_tracks_span_the_beats 4
                [silence; silence; silence; silence] acts
                (LoopStreamManager.fresh 4
                   [silence; silence; silence; silence])
                self em ltac:(lia) eq_refl eq_refl eq_refl Hrun) as Hall.
  destruct em as [|rt [|rt' em]];
    [vm_compute in Hrun; discriminate | | vm_compute in Hrun; discriminate].
  exists self, rt. split; [reflexivity|].
  exact (Forall_inv Hall).
Defined.

(** X18: when the commands are those of the record button, the loop that
    [post_production] makes of a recorded track runs from the beat nearest
    to the Start command to the beat nearest to the Stop command (a command
    less than half a beat, rounded down, behind a beat goes to that beat,
    any other to the next beat): it is that long, it plays from the first
    of the two beats, and there is no loop when the two beats are one. *)
Theorem recordings_snap_to_the_beats (len_beat : Z) (mem : list Frame)
  (acts : list Engine.action) (s0 self : LoopStreamManager.t)
  (em : list RecordedTrack.t) :
  0 < len_beat → len mem = len_beat →
  LoopStreamManager.init len_beat mem = Ok s0 →
  Engine.clicked RecordButton.waiting acts = true →
  Engine.run s0 acts = Ok (self, em) →
  Forall (fun rt =>
            ∃ start stop,
              RecordedTrack.start_rec_time rt = Some start
              ∧ RecordedTrack.stop_rec_time rt = Some stop
              ∧ start <= stop
              ∧ LoopStreamManager.post_production self rt
                = Ok (if decide (beat_round len_beat start
                                 < beat_round len_beat stop)
                      then
                        Some {| PlayingTrack.data :=
                                  take (Z.to_nat (beat_round len_beat stop
                                                  - beat_round len_beat start))
                                    (drop (Z.to_nat
                                             (beat_round len_beat start
                                              - beat_floor len_beat start))
                                       (RecordedTrack.data rt));
                                PlayingTrack._playing_from_frame :=
                                  beat_round len_beat start;
                                PlayingTrack._length :=
                                  beat_round len_beat stop
                                  - beat_round len_beat start |}
                      else None)) em.
Proof.
  intros Hlb Hmem Hinit Hclick Hrun.
  unfold LoopStreamManager.init in Hinit.
  rewrite decide_False in Hinit by lia. apply Ok_inj in Hinit as <-.
  pose proof (run_timed acts _ _ _ _ (fresh_disciplined _ _ Hlb Hmem)
                (fresh_timed _ _) Hclick Hrun) as Hraw.
  pose proof (run_len_beat _ _ _ _ Hrun) as Hlen. cbn in Hlen, Hraw.
  eapply Forall_impl; [exact Hraw|].
  intros rt (start & stop & Hs & Hp & Hle & Hf & Hn).
  exists start, stop. split; [done|]. split; [done|]. split; [done|].
  rewrite <- Hlen in *. by apply post_production_raw.
Qed.

Lemma recordings_snap_to_the_beats_witness :
  let flags := mkFlags false false false false false in
  let tick f := Engine.Tick (Engine.mkCycle [f] [silence] flags false) in
  let acts :=
    [tick (1, 1); Engine.Push START; tick (2, 2); tick (3, 3);
     Engine.Push STOP; tick (4, 4); tick (5, 5)] in
  ∃ self rt,
    Engine.run
      (LoopStreamManager.fresh 4 [silence; silence; silence; silence]) acts
    = Ok (self, [rt])
    ∧ RecordedTrack.start_rec_time rt = Some 1
    ∧ RecordedTrack.stop_rec_time rt = Some 3
    ∧ LoopStreamManager.post_production self rt
      = Ok (Some {| PlayingTrack.data := [(1, 1); (2, 2); (3, 3); (4, 4)];
                    PlayingTrack._playing_from_frame := 0;
                    PlayingTrack._length := 4 |}).
Proof.
  intros flags tick acts.
  destruct (Engine.run
              (LoopStreamManager.fresh 4 [silence; silence; silence; silence])
              acts) as [[self em]|e] eqn:Hrun;
    [|vm_compute in Hrun; discriminate].
  pose proof (recordings_snap_to_the_beats 4
                [silence; silence; silence; silence] acts
                (LoopStreamManager.fresh 4
                   [silence; silence; silence; silence])
                self em ltac:(lia) eq_refl eq_refl eq_refl Hrun) as Hall.
  destruct em as [|rt [|rt' em]];
    [vm_compute in Hrun; discriminate | | vm_compute in Hrun; discriminate].
  exists self, rt. split; [reflexivity|].
  destruct (Forall_inv Hall) as (start & stop & Hs & Hp & _ & Hpp).
  vm_compute in Hrun. apply Ok_inj in Hrun.
  assert (RecordedTrack.start_rec_time rt = Some 1) as Hs1
    by (by inversion Hrun).
  assert (RecordedTrack.stop_rec_time rt = Some 3) as Hp3
    by (by inversion Hrun).
  assert (RecordedTrack.data rt = [(1, 1); (2, 2); (3, 3); (4, 4)]) as Hd
    by (by inversion Hrun).
  rewrite Hs1 in Hs. apply (inj Some) in Hs as <-.
  rewrite Hp3 in Hp. apply (inj Some) in Hp as <-.
  split; [exact Hs1|]. split; [exact Hp3|].
  rewrite Hpp, Hd. reflexivity.
Defined.


(** * The class [Lem] *)

(** ** The metronome *)

Lemma len_beat_of_bpm (bpm : Z) :
  0 < bpm → Lem._len_beat bpm = Ok ((60 * SAMPLERATE) `div` bpm).
Proof.
  intros Hbpm. unfold Lem._len_beat, py_int_truediv.
  rewrite decide_False by lia.
  by rewrite Z.quot_div_nonneg by (unfold SAMPLERATE; lia).
Qed.

Lemma init_returns (bpm : Z) (mem sample : list Frame) :
  0 < bpm →
  let len_beat := (60 * SAMPLERATE) `div` bpm in
  let metronome :=
    PlayingTrack.init
      (take (Z.to_nat len_beat)
         (sample ++ replicate (Z.to_nat (len_beat - len sample)) silence))
      0 in
  PlayingTrack._length metronome = len_beat
  ∧ LemState.init bpm mem sample SAMPLERATE
    = LemState.Done
        (LemState.mk len_beat
           (LoopStreamManager.set_tracks
              (LoopStreamManager.fresh len_beat mem) [metronome] [])
           [metronome] true false).
Proof.
  intros Hbpm len_beat metronome.
  assert (0 <= len_beat) as Hlb.
  { apply Z.div_pos; [unfold SAMPLERATE|]; lia. }
  assert (PlayingTrack._length metronome = len_beat) as Hm.
  { unfold metronome, PlayingTrack.init. cbn. unfold len.
    rewrite length_take, length_app, length_replicate. unfold len. lia. }
  split; [exact Hm|].
  unfold LemState.init. rewrite len_beat_of_bpm by done.
  cbn [LemState.lift LemState.and_then].
  unfold LoopStreamManager.init. rewrite decide_False by lia.
  cbn [LemState.lift LemState.and_then mret result_ret].
  unfold LemState.initialize_metronome. cbn [LemState._len_beat].
  rewrite decide_False by (intros ?; done). fold len_beat.
  destruct (decide (len sample <= len_beat)) as [Hshort|Hlong].
  - rewrite np_zeros_nonneg by lia.
    cbn [LemState.lift LemState.and_then].
    assert (sample ++ replicate (Z.to_nat (len_beat - len sample)) silence
            = take (Z.to_nat len_beat)
                (sample
                 ++ replicate (Z.to_nat (len_beat - len sample)) silence))
      as ->; [|done].
    symmetry. apply take_ge. rewrite length_app, length_replicate.
    unfold len in *. lia.
  - cbn [LemState.lift LemState.and_then].
    assert (py_slice sample None (Some len_beat)
            = take (Z.to_nat len_beat)
                (sample
                 ++ replicate (Z.to_nat (len_beat - len sample)) silence))
      as ->; [|done].
    rewrite py_slice_to by lia.
    replace (Z.to_nat (len_beat - len sample)) with 0%nat by lia.
    cbn. by rewrite app_nil_r.
Qed.

(** X19: [Lem.__init__], for a positive [bpm], fails with
    [InvalidSamplerateError] when the file of the metronome has another
    sample rate than [SAMPLERATE]; else it makes one track, the metronome,
    exactly one beat long: the sample cut at one beat, or filled with
    silence up to one beat; the stream manager gets the list with that
    track, and its copy of the list is still empty. *)
Theorem init_makes_a_metronome_of_one_beat (bpm samplerate : Z)
  (mem sample : list Frame) :
  0 < bpm →
  let len_beat := (60 * SAMPLERATE) `div` bpm in
  let metronome :=
    PlayingTrack.init
      (take (Z.to_nat len_beat)
         (sample ++ replicate (Z.to_nat (len_beat - len sample)) silence))
      0 in
  (samplerate ≠ SAMPLERATE →
   LemState.init bpm mem sample samplerate
   = LemState.Failed LemState.InvalidSamplerateError)
  ∧ (samplerate = SAMPLERATE →
     ∃ self,
       LemState.init bpm mem sample samplerate = LemState.Done self
       ∧ LemState._len_beat self = len_beat
       ∧ LemState._tracks self = [metronome]
       ∧ PlayingTrack._length metronome = len_beat
       ∧ LemState._stream_manager self
         = LoopStreamManager.set_tracks
             (LoopStreamManager.fresh len_beat mem) [metronome] []).
Proof.
  intros Hbpm len_beat metronome. split.
  - intros Hrate. unfold LemState.init. rewrite len_beat_of_bpm by done.
    cbn [LemState.lift LemState.and_then].
    unfold LoopStreamManager.init.
    rewrite decide_False
      by (pose proof (Z.div_pos (60 * SAMPLERATE) bpm); unfold SAMPLERATE in *;
          lia).
    cbn [LemState.lift LemState.and_then mret result_ret].
    unfold LemState.initialize_metronome. by rewrite decide_True.
  - intros ->. destruct (init_returns bpm mem sample Hbpm) as [Hm Hinit].
    eexists. split; [exact Hinit|]. cbn.
    split; [done|]. split; [done|]. split; [exact Hm | done].
Qed.

Lemma init_makes_a_metronome_of_one_beat_witness :
  ∃ self,
    LemState.init 1323000 [silence; silence] [(5, 5); (6, 6); (7, 7)] 44100
    = LemState.Done self
    ∧ LemState._len_beat self = 2
    ∧ LemState._tracks self = [PlayingTrack.init [(5, 5); (6, 6)] 0].
Proof.
  destruct (init_makes_a_metronome_of_one_beat 1323000 44100
              [silence; silence] [(5, 5); (6, 6); (7, 7)])
    as [_ Hok]; [lia|].
  destruct (Hok eq_refl) as (self & Hinit & Hlen & Htracks & _).
  exists self. split; [exact Hinit|]. split; [exact Hlen | exact Htracks].
Defined.


(** ** The list of tracks and the stream manager *)

Lemma callback_same_tracks (self self' : LoopStreamManager.t)
  (locked : bool) (indata outdata out : list Frame) (frames : Z)
  (status : CallbackFlags) :
  LoopStreamManager.callback self locked indata outdata frames status
  = Ok (self', out) →
  LoopStreamManager._tracks self' = LoopStreamManager._tracks self
  ∧ LoopStreamManager._tracks_copy self'
    = LoopStreamManager._tracks_copy self.
Proof.
  intros Hc. destruct (output_underflow status) eqn:Hu.
  - by rewrite (callback_underflow_inv _ _ _ _ _ _ _ _ Hu Hc).
  - destruct (callback_inv _ _ _ _ _ _ _ _ Hu Hc)
      as (s1 & s3 & lb & H1 & H3 & Hw & ->).
    pose proof (same_engine_trans _ _ _
                  (same_engine_trans _ _ _ (handle_event_same _ _ H1)
                     (record_indata_same s1 indata))
                  (finish_on_beat_same _ _ _ H3)) as (_ & _ & E3 & E4 & _).
    by cbn.
Qed.

Lemma edit_in_sync (self : LemState.t) (tracks : list PlayingTrack.t) :
  in_sync self →
  in_sync (LemState._update_tracks (LemState.change_tracks self tracks)).
Proof.
  intros (Hs & Ht & Hc). unfold in_sync, LemState._update_tracks,
    LemState.change_tracks, LoopStreamManager.update_tracks. cbn.
  by rewrite Hs.
Qed.

Lemma step_in_sync (self self' : LemState.t) (a : LemState.action) :
  in_sync self → LemState.step self a = LemState.Done self' → in_sync self'.
Proof.
  intros Hi. destruct a as [| | |idx|c]; cbn [LemState.step].
  - intros [= <-]. by destruct self.
  - intros [= <-]. by destruct self.
  - unfold LemState.stop_recording_finish,
      LoopStreamManager.stop_recording_pop.
    destruct (LoopStreamManager._recorded_tracks_queue
                (LemState._stream_manager self)) as [|rt q];
      cbn [Queue.pop]; [by intros [= <-]|].
    destruct (LoopStreamManager.post_production _ rt) as [[t|]|];
      cbn [LemState.lift LemState.and_then fst]; [| |done].
    + intros [= <-]. apply edit_in_sync.
      destruct Hi as (? & ? & ?). by destruct self.
    + intros [= <-]. destruct Hi as (? & ? & ?). by destruct self.
  - unfold LemState.delete_track.
    destruct (py_pop _ _) as [[x tracks]|]; [|done].
    intros [= <-]. by apply edit_in_sync.
  - unfold LemState.tick.
    destruct (LoopStreamManager.callback _ _ _ _ _ _) as [[m out]|] eqn:Hc;
      cbn [LemState.lift LemState.and_then fst]; [|done].
    intros [= <-].
    destruct (callback_same_tracks _ _ _ _ _ _ _ _ Hc) as (Et & Ec).
    destruct Hi as (Hs & Ht & Hcopy). unfold in_sync. cbn.
    by rewrite Et, Ec.
Qed.

Lemma run_in_sync (acts : list LemState.action) :
  ∀ self self' : LemState.t,
    in_sync self → LemState.run self acts = LemState.Done self' →
    in_sync self'.
Proof.
  induction acts as [|a acts IH]; intros self self' Hi; cbn [LemState.run].
  - by intros [= <-].
  - destruct (LemState.step self a) as [s1|] eqn:Hs;
      cbn [LemState.and_then]; [|done].
    apply IH. by eapply step_in_sync.
Qed.

Lemma init_in_sync (bpm samplerate : Z) (mem sample : list Frame)
  (self : LemState.t) :
  LemState.init bpm mem sample samplerate = LemState.Done self →
  in_sync self.
Proof.
  unfold LemState.init.
  destruct (Lem._len_beat bpm) as [len_beat|];
    cbn [LemState.lift LemState.and_then]; [|done].
  destruct (LoopStreamManager.init len_beat mem) as [m|] eqn:Hm;
    cbn [LemState.lift LemState.and_then]; [|done].
  unfold LoopStreamManager.init in Hm. case_decide; [done|].
  apply Ok_inj in Hm as <-.
  unfold LemState.initialize_metronome. case_decide; [done|].
  destruct (if decide _ then _ else _) as [s|];
    cbn [LemState.and_then]; [|done].
  by intros [= <-].
Qed.

(** X20: the stream manager always plays the list of the [Lem] object:
    after [Lem.__init__] and whatever follows (recordings, deletions,
    cycles), its [_tracks] holds the tracks of the object, and the copy it
    plays while the lock is held is either still empty or holds those
    same tracks: never an earlier state of the list. *)
Theorem manager_plays_the_list_of_lem (bpm samplerate : Z)
  (mem sample : list Frame) (acts : list LemState.action)
  (s0 self : LemState.t) :
  LemState.init bpm mem sample samplerate = LemState.Done s0 →
  LemState.run s0 acts = LemState.Done self →
  LoopStreamManager._tracks (LemState._stream_manager self)
  = LemState._tracks self
  ∧ (LoopStreamManager._tracks_copy (LemState._stream_manager self) = []
     ∨ LoopStreamManager._tracks_copy (LemState._stream_manager self)
       = LemState._tracks self).
Proof.
  intros Hinit Hrun.
  destruct (run_in_sync acts s0 self (init_in_sync _ _ _ _ _ Hinit) Hrun)
    as (_ & Ht & Hc).
  split; [done|]. rewrite Hc.
  destruct (LemState.shares_tracks_copy self); [by right | by left].
Qed.

Lemma manager_plays_the_list_of_lem_witness :
  let track := PlayingTrack.init [(5, 5); (6, 6)] 0 in
  let acts :=
    [LemState.StartRecording;
     LemState.Tick
       (Engine.mkCycle [(1, 1)] [silence]
          (mkFlags false false false false false) false)] in
  ∃ s0 self,
    LemState.init 1323000 [silence; silence] [(5, 5); (6, 6); (7, 7)] 44100
    = LemState.Done s0
    ∧ LemState.run s0 acts = LemState.Done self
    ∧ LemState._tracks self = [track]
    ∧ LoopStreamManager._tracks (LemState._stream_manager self) = [track].
Proof.
  intros track acts.
  destruct (LemState.init 1323000 [silence; silence]
              [(5, 5); (6, 6); (7, 7)] 44100) as [s0|e] eqn:Hinit;
    [|vm_compute in Hinit; discriminate].
  destruct (LemState.run s0 acts) as [self|e] eqn:Hrun.
  2:{ vm_compute in Hinit. injection Hinit as <-.
      vm_compute in Hrun. discriminate. }
  exists s0, self. split; [reflexivity|]. split; [exact Hrun|].
  destruct (manager_plays_the_list_of_lem _ _ _ _ _ _ _ Hinit Hrun)
    as (Ht & _).
  assert (LemState._tracks self = [track]) as Htr.
  { vm_compute in Hinit. injection Hinit as <-.
    vm_compute in Hrun. by injection Hrun as <-. }
  split; [exact Htr|]. by rewrite Ht.
Defined.


(** ** Deleting a track *)

(** X21: [delete_track(idx)], for [idx >= 0], removes the track behind the
    metronome with that number and keeps the others in their order, the
    metronome first; the stream manager gets the new list; with no such
    track, it raises the [IndexError] of [list.pop]. *)
Theorem delete_track_removes_the_track (self : LemState.t) (idx : Z) :
  0 <= idx →
  let tracks := LemState._tracks self in
  (len tracks <= idx + 1 →
   LemState.delete_track self idx = LemState.Failed LemState.IndexError)
  ∧ (idx + 1 < len tracks →
     ∃ self',
       LemState.delete_track self idx = LemState.Done self'
       ∧ LemState._tracks self'
         = take (Z.to_nat (idx + 1)) tracks
           ++ drop (Z.to_nat (idx + 2)) tracks
       ∧ LemState._tracks self' !! 0%nat = tracks !! 0%nat
       ∧ LoopStreamManager._tracks (LemState._stream_manager self')
         = LemState._tracks self').
Proof.
  intros Hidx tracks. unfold LemState.delete_track, py_pop. fold tracks.
  rewrite (decide_False (P := idx + 1 < 0)) by lia. split.
  - intros Hout. by rewrite decide_False by lia.
  - intros Hin. rewrite decide_True by lia.
    destruct (tracks !! Z.to_nat (idx + 1)) as [x|] eqn:Hx.
    2:{ apply lookup_ge_None in Hx. unfold len in *. lia. }
    eexists. split; [reflexivity|]. cbn.
    assert (delete (Z.to_nat (idx + 1)) tracks
            = take (Z.to_nat (idx + 1)) tracks
              ++ drop (Z.to_nat (idx + 2)) tracks) as ->.
    { rewrite delete_take_drop. do 2 f_equal. lia. }
    split; [done|]. split; [|done].
    rewrite lookup_app_l by (rewrite length_take; unfold len in *; lia).
    apply lookup_take_lt. lia.
Qed.

Lemma delete_track_removes_the_track_witness :
  let a := PlayingTrack.init [(1, 1)] 0 in
  let b := PlayingTrack.init [(2, 2)] 0 in
  let c := PlayingTrack.init [(3, 3)] 0 in
  let self :=
    LemState.mk 1
      (LoopStreamManager.set_tracks (LoopStreamManager.fresh 1 [silence])
         [a; b; c] [a; b; c])
      [a; b; c] true true in
  ∃ self',
    LemState.delete_track self 0 = LemState.Done self'
    ∧ LemState._tracks self' = [a; c]
    ∧ LoopStreamManager._tracks (LemState._stream_manager self') = [a; c].
Proof.
  intros a b c self.
  destruct (delete_track_removes_the_track self 0) as [_ Hin]; [lia|].
  destruct Hin as (self' & Hd & Ht & _ & Hm); [vm_compute; reflexivity|].
  exists self'. split; [exact Hd|]. split; [exact Ht|].
  rewrite Hm. exact Ht.
Defined.


(** ** What the looper plays *)

Lemma post_production_length (self : LoopStreamManager.t)
  (rt : RecordedTrack.t) :
  0 < LoopStreamManager._len_beat self →
  finished (LoopStreamManager._len_beat self) rt →
  ∃ r,
    LoopStreamManager.post_production self rt = Ok r
    ∧ ∀ t, r = Some t → whole_beats (LoopStreamManager._len_beat self) t.
Proof.
  intros Hlb [Hc Hwhole]. pose proof Hc as Hc'.
  apply is_complete_true in Hc'
    as ([first Hf] & [start Hs] & [stop Hp] & Hd).
  unfold LoopStreamManager.post_production. rewrite Hc. cbn [negb].
  rewrite Hf, Hs, Hp. rewrite py_mod_pos by done. bind.
  rewrite half_beat_div by done. bind.
  set (len_beat := LoopStreamManager._len_beat self) in *.
  set (data := RecordedTrack.data rt) in *.
  assert (len_beat <= len data) as Hlong.
  { pose proof (Z.div_mod (len data) len_beat ltac:(lia)) as Hdm.
    rewrite Hwhole in Hdm.
    assert (0 < len data).
    { unfold len. destruct data; [done | cbn; lia]. }
    assert (1 <= len data `div` len_beat) by nia. nia. }
  assert (∀ a b first',
            (a = 0 ∨ a = len_beat) →
            (b = len data - len_beat ∨ b = len data) →
            ∃ r,
              (if decide (len (py_slice data (Some a) (Some b)) ≠ 0)
               then Ok (Some (PlayingTrack.init
                                (py_slice data (Some a) (Some b)) first'))
               else Ok None) = Ok r
              ∧ ∀ t, r = Some t → whole_beats len_beat t) as Hcut.
  { intros a b first' Ha Hb. rewrite py_slice_in by lia.
    assert (len (take (Z.to_nat (b - a)) (drop (Z.to_nat a) data))
            = Z.max 0 (b - a)) as Hlen.
    { unfold len in *. rewrite length_take, length_drop. lia. }
    case_decide as Hne; eexists; (split; [reflexivity|]); [|done].
    intros t [= <-]. unfold whole_beats, PlayingTrack.init. cbn.
    rewrite Hlen in *. split; [done|]. split; [lia|].
    rewrite Z.max_r by lia. apply grid_sub; [done | |].
    - destruct Hb as [-> | ->]; [|done].
      apply grid_sub; [done | done | by apply Z_mod_same_full].
    - destruct Ha as [-> | ->]; [by apply Z.mod_0_l; lia|].
      by apply Z_mod_same_full. }
  destruct (decide (start - first < len_beat `div` 2));
    rewrite py_mod_pos by done; bind; apply Hcut;
    try (by left); try (by right); case_decide; (by left) || (by right).
Qed.

Lemma callback_queue_grows (self self' : LoopStreamManager.t)
  (locked : bool) (indata outdata out : list Frame) (frames : Z)
  (status : CallbackFlags) :
  LoopStreamManager.callback self locked indata outdata frames status
  = Ok (self', out) →
  ∃ em,
    LoopStreamManager._recorded_tracks_queue self'
    = LoopStreamManager._recorded_tracks_queue self ++ em.
Proof.
  intros Hc. destruct (output_underflow status) eqn:Hu.
  - rewrite (callback_underflow_inv _ _ _ _ _ _ _ _ Hu Hc).
    exists []. by rewrite app_nil_r.
  - destruct (callback_inv _ _ _ _ _ _ _ _ Hu Hc)
      as (s1 & s3 & lb & H1 & H3 & Hw & ->).
    destruct (handle_event_pushes _ _ H1) as (em1 & Hq1 & _).
    destruct (finish_on_beat_pushes _ _ _ H3) as (em3 & Hq3 & _).
    exists (em1 ++ em3). cbn. rewrite Hq3, app_assoc. f_equal.
    rewrite <- Hq1. unfold LoopStreamManager.record_indata.
    by destruct (LoopStreamManager._recording s1).
Qed.

Lemma set_tracks_disciplined (b : RecordButton.state)
  (m : LoopStreamManager.t) (tracks tracks_copy : list PlayingTrack.t) :
  disciplined b m →
  disciplined b (LoopStreamManager.set_tracks m tracks tracks_copy).
Proof. by destruct m. Qed.

Lemma edit_looping (b : RecordButton.state) (self : LemState.t)
  (tracks : list PlayingTrack.t) :
  looping b self →
  Forall (whole_beats (LemState._len_beat self)) tracks →
  looping b (LemState._update_tracks (LemState.change_tracks self tracks)).
Proof.
  intros (Hi & Hd & Hlb & Hq & Ht) Hnew.
  split; [by apply edit_in_sync|]. split; [|done].
  unfold LemState._update_tracks, LemState.change_tracks,
    LoopStreamManager.update_tracks. cbn.
  by do 2 apply set_tracks_disciplined.
Qed.

Lemma step_looping (b : RecordButton.state) (self self' : LemState.t)
  (a : LemState.action) :
  looping b self → LemState.clicked b [a] = true →
  LemState.step self a = LemState.Done self' →
  looping (after_lem b a) self'.
Proof.
  intros Hl Hclick. pose proof Hl as (Hi & Hd & Hlb & Hq & Ht).
  destruct a as [| | |idx|c]; cbn [LemState.step after_lem].
  - (* start_recording *)
    intros [= <-]. cbn in Hclick.
    apply andb_true_iff in Hclick as [He _].
    apply bool_decide_eq_true in He.
    destruct (step_disciplined b (LemState._stream_manager self)
                (LoopStreamManager.start_recording
                   (LemState._stream_manager self))
                (Engine.Push START) []) as [Hd' _];
      [done | cbn; by rewrite He, bool_decide_eq_true_2 | done |].
    split; [destruct Hi as (? & ? & ?); by destruct self|].
    split; [exact Hd'|]. done.
  - (* stop_recording, up to the wait *)
    intros [= <-]. cbn in Hclick.
    apply andb_true_iff in Hclick as [He _].
    apply bool_decide_eq_true in He.
    destruct (step_disciplined b (LemState._stream_manager self)
                (LoopStreamManager.stop_recording_push
                   (LemState._stream_manager self))
                (Engine.Push STOP) []) as [Hd' _];
      [done | cbn; by rewrite He, bool_decide_eq_true_2 | done |].
    split; [destruct Hi as (? & ? & ?); by destruct self|].
    split; [exact Hd'|]. done.
  - (* stop_recording, after the wait *)
    unfold LemState.stop_recording_finish,
      LoopStreamManager.stop_recording_pop.
    destruct (LoopStreamManager._recorded_tracks_queue
                (LemState._stream_manager self)) as [|rt q] eqn:Hqueue;
      cbn [Queue.pop]; [by intros [= <-]|].
    apply Forall_cons in Hq as [Hrt Hq].
    assert (0 < LoopStreamManager._len_beat (LemState._stream_manager self))
      as Hpos by (by destruct Hd as (((? & _) & _) & _)).
    rewrite <- Hlb in Hrt.
    destruct (post_production_length _ rt Hpos Hrt) as (r & -> & Hr).
    rewrite Hlb in Hr.
    set (m' := LoopStreamManager.set_recorded_tracks_queue
                 (LemState._stream_manager self) q).
    assert (looping b (LemState.set_stream_manager self m')) as Hl'.
    { split; [destruct Hi as (? & ? & ?); by destruct self|].
      split; [by destruct (LemState._stream_manager self)|]. done. }
    destruct r as [t|]; cbn [LemState.lift LemState.and_then fst];
      intros [= <-]; [|done].
    apply edit_looping; [done|]. cbn.
    apply Forall_app. split; [done|]. apply Forall_singleton. by apply Hr.
  - (* delete_track *)
    unfold LemState.delete_track, py_pop.
    destruct (decide (0 <= _ < _)); [|done].
    destruct (LemState._tracks self !! _) as [x|]; [|done].
    intros [= <-]. apply edit_looping; [done|].
    by apply Forall_delete.
  - (* a cycle *)
    unfold LemState.tick.
    destruct (LoopStreamManager.callback _ _ _ _ _ _) as [[m out]|] eqn:Hc;
      cbn [LemState.lift LemState.and_then fst]; [|done].
    intros [= <-].
    destruct (step_disciplined b (LemState._stream_manager self) m
                (Engine.Tick c)
                (drop (length (LoopStreamManager._recorded_tracks_queue
                                 (LemState._stream_manager self)))
                   (LoopStreamManager._recorded_tracks_queue m)))
      as [Hd' Hem]; [done | done | by cbn [Engine.step]; rewrite Hc |].
    destruct (callback_queue_grows _ _ _ _ _ _ _ _ Hc) as (em & Hgrow).
    rewrite Hgrow, drop_app_length in Hem.
    destruct (callback_same_tracks _ _ _ _ _ _ _ _ Hc) as (Et & Ec).
    assert (LoopStreamManager._len_beat m
            = LoopStreamManager._len_beat (LemState._stream_manager self))
      as Elb.
    { eapply (step_len_beat _ _ (Engine.Tick c)).
      cbn [Engine.step]. by rewrite Hc. }
    split.
    { destruct Hi as (Hs & Ht' & Hcopy). unfold in_sync. cbn.
      by rewrite Et, Ec. }
    split; [exact Hd'|]. cbn. split; [congruence|]. split; [|done].
    rewrite Hgrow. apply Forall_app. split; [done|]. by rewrite <- Hlb.
Qed.

Lemma run_looping (acts : list LemState.action) :
  ∀ (b : RecordButton.state) (self self' : LemState.t),
    looping b self → LemState.clicked b acts = true →
    LemState.run self acts = LemState.Done self' →
    ∃ b', looping b' self'.
Proof.
  induction acts as [|a acts IH]; intros b self self' Hl Hclick;
    cbn [LemState.run].
  - intros [= <-]. by exists b.
  - destruct (LemState.step self a) as [s1|] eqn:Hs;
      cbn [LemState.and_then]; [|done].
    assert (LemState.clicked b [a] = true
            ∧ LemState.clicked (after_lem b a) acts = true) as [Ha Hrest].
    { destruct a; cbn in *; try done;
        apply andb_true_iff in Hclick as [-> ->]; done. }
    apply (IH (after_lem b a)); [|done]. by eapply step_looping.
Qed.


Lemma init_looping (bpm : Z) (mem sample : list Frame) (self : LemState.t) :
  0 < bpm <= 60 * SAMPLERATE →
  len mem = (60 * SAMPLERATE) `div` bpm →
  LemState.init bpm mem sample SAMPLERATE = LemState.Done self →
  looping RecordButton.waiting self
  ∧ LemState._len_beat self = (60 * SAMPLERATE) `div` bpm.
Proof.
  intros Hbpm Hmem.
  destruct (init_returns bpm mem sample) as [Hm ->]; [lia|].
  intros [= <-]. split; [|done].
  assert (0 < (60 * SAMPLERATE) `div` bpm) as Hlb.
  { apply Z.div_str_pos. lia. }
  split; [done|]. split.
  { apply set_tracks_disciplined. by apply fresh_disciplined. }
  split; [done|]. split; [by apply Forall_nil|].
  apply Forall_singleton. cbn [LemState._len_beat].
  split; [done|]. rewrite Hm. split; [done|]. by apply Z_mod_same_full.
Qed.

Lemma looper_is_looping (bpm : Z) (mem sample : list Frame)
  (acts : list LemState.action) (s0 self : LemState.t) :
  0 < bpm <= 60 * SAMPLERATE →
  len mem = (60 * SAMPLERATE) `div` bpm →
  LemState.init bpm mem sample SAMPLERATE = LemState.Done s0 →
  LemState.clicked RecordButton.waiting acts = true →
  LemState.run s0 acts = LemState.Done self →
  ∃ b, looping b self.
Proof.
  intros Hbpm Hmem Hinit Hclick Hrun.
  destruct (init_looping _ _ _ _ Hbpm Hmem Hinit) as [Hl _].
  by eapply run_looping.
Qed.

Lemma slices_whole_beats (len_beat from_frame frames : Z)
  (tracks : list PlayingTrack.t) :
  0 <= frames < len_beat →
  Forall (whole_beats len_beat) tracks →
  ∃ ss,
    LoopStreamManager.slices tracks from_frame frames = Ok ss
    ∧ Forall (λ s, len s = frames) ss.
Proof.
  intros Hf. induction 1 as [|t tracks (Hlen & Hpos & Hmod) _ (ss & IH & Hss)];
    cbn [LoopStreamManager.slices].
  { by exists []. }
  assert (len_beat <= PlayingTrack._length t) as Hlong.
  { pose proof (Z.div_mod (PlayingTrack._length t) len_beat ltac:(lia)) as Hdm.
    rewrite Hmod in Hdm.
    assert (1 <= PlayingTrack._length t `div` len_beat) by nia. nia. }
  destruct (slice_length (PlayingTrack.data t)
              (PlayingTrack._playing_from_frame t) from_frame frames)
    as (s & Hs & Hl); [lia|].
  replace (PlayingTrack.init (PlayingTrack.data t)
             (PlayingTrack._playing_from_frame t)) with t in Hs
    by (destruct t; unfold PlayingTrack.init; cbn in *; congruence).
  rewrite Hs, IH. bind. exists (s :: ss). split; [done|].
  by apply Forall_cons.
Qed.

Lemma np_mean_same_length (a : list Frame) (rest : list (list Frame)) :
  Forall (λ s, len s = len a) rest → ∃ m, np_mean (a :: rest) = Ok m.
Proof.
  intros Hall. unfold np_mean.
  assert (forallb (λ r, bool_decide (len r = len a)) rest = true) as ->.
  { induction Hall as [|r rest Hr _ IH]; [done|]. cbn [forallb].
    by rewrite IH, bool_decide_eq_true_2. }
  by eexists.
Qed.

Lemma looping_tick (b : RecordButton.state) (self : LemState.t)
  (c : Engine.Cycle) :
  looping b self →
  len (Engine.indata c) < LemState._len_beat self →
  len (Engine.outdata c) = len (Engine.indata c) →
  ∃ self', LemState.tick self c = LemState.Done self'.
Proof.
  intros (Hi & Hd & Hlb & Hq & Ht) Hshort Hout.
  set (m := LemState._stream_manager self) in *.
  assert (∃ mixed,
            LoopStreamManager.slice_and_mix m (Engine.locked c)
              (Engine.indata c) (len (Engine.indata c)) = Ok mixed) as Hmix.
  { unfold LoopStreamManager.slice_and_mix.
    destruct (slices_whole_beats (LemState._len_beat self)
                (LoopStreamManager._current_frame m)
                (len (Engine.indata c))
                (if negb (Engine.locked c)
                 then LoopStreamManager._tracks m
                 else LoopStreamManager._tracks_copy m))
      as (ss & -> & Hss).
    { pose proof (len_nonneg (Engine.indata c)). lia. }
    { destruct Hi as (_ & Et & Ec). subst m. rewrite Et, Ec.
      destruct (negb _), (LemState.shares_tracks_copy self);
        done || by apply Forall_nil. }
    bind. by apply np_mean_same_length. }
  unfold LemState.tick. fold m.
  destruct (output_underflow (Engine.status c)) eqn:Hu.
  - unfold LoopStreamManager.callback. rewrite Hu.
    cbn [LemState.lift LemState.and_then]. by eexists.
  - destruct (callback_returns m (Engine.locked c) (Engine.indata c)
                (Engine.outdata c) (len (Engine.indata c))
                (Engine.status c))
      as (s1 & s3 & lb & mixed & _ & _ & _ & _ & ->);
      [by destruct Hd as ((? & _) & _) | | done |].
    { split; [lia|]. split; done. }
    cbn [LemState.lift LemState.and_then]. by eexists.
Qed.


Lemma looping_stop_recording (b : RecordButton.state) (self : LemState.t)
  (r : LemState.outcome (LemState.t * bool)) :
  looping b self →
  LemState.stop_recording_finish self = Some r →
  ∃ self' added,
    r = LemState.Done (self', added)
    ∧ (if added
       then ∃ t, whole_beats (LemState._len_beat self) t
                 ∧ LemState._tracks self' = LemState._tracks self ++ [t]
       else LemState._tracks self' = LemState._tracks self).
Proof.
  intros (Hi & Hd & Hlb & Hq & Ht).
  unfold LemState.stop_recording_finish,
    LoopStreamManager.stop_recording_pop.
  destruct (LoopStreamManager._recorded_tracks_queue
              (LemState._stream_manager self)) as [|rt q];
    cbn [Queue.pop]; [done|].
  apply Forall_cons in Hq as [Hrt Hq].
  assert (0 < LoopStreamManager._len_beat (LemState._stream_manager self))
    as Hpos by (by destruct Hd as (((? & _) & _) & _)).
  rewrite <- Hlb in Hrt.
  destruct (post_production_length _ rt Hpos Hrt) as (res & -> & Hr).
  rewrite Hlb in Hr.
  destruct res as [t|]; cbn [LemState.lift LemState.and_then];
    intros [= <-]; eexists _, _; (split; [reflexivity|]); [|done].
  exists t. split; [by apply Hr | done].
Qed.

Lemma step_lem_len_beat (self self' : LemState.t) (a : LemState.action) :
  LemState.step self a = LemState.Done self' →
  LemState._len_beat self' = LemState._len_beat self.
Proof.
  destruct a as [| | |idx|c]; cbn [LemState.step].
  - by intros [= <-].
  - by intros [= <-].
  - unfold LemState.stop_recording_finish.
    destruct (LoopStreamManager.stop_recording_pop _) as [[m [[t|]|]]|];
      cbn [LemState.lift LemState.and_then fst]; [| |done|];
      by intros [= <-].
  - unfold LemState.delete_track.
    destruct (py_pop _ _) as [[x tracks]|]; [|done]. by intros [= <-].
  - unfold LemState.tick.
    destruct (LoopStreamManager.callback _ _ _ _ _ _) as [[m out]|];
      cbn [LemState.lift LemState.and_then fst]; [|done].
    by intros [= <-].
Qed.

Lemma run_lem_len_beat (acts : list LemState.action) :
  ∀ self self' : LemState.t,
    LemState.run self acts = LemState.Done self' →
    LemState._len_beat self' = LemState._len_beat self.
Proof.
  induction acts as [|a acts IH]; intros self self'; cbn [LemState.run].
  - by intros [= <-].
  - destruct (LemState.step self a) as [s1|] eqn:Hs;
      cbn [LemState.and_then]; [|done].
    intros Hrun. rewrite (IH _ _ Hrun). by eapply step_lem_len_beat.
Qed.

(** X22: in a looper made by [Lem.__init__] (a tempo of at most
    [60 * SAMPLERATE] beats a minute) and driven by the record button,
    every track the stream manager plays, in its list and in the copy it
    plays while the lock is held, is not empty, knows its length, and is a
    whole number of beats long: so all the loops stay on the beat. *)
Theorem looper_plays_whole_beats (bpm : Z) (mem sample : list Frame)
  (acts : list LemState.action) (s0 self : LemState.t) :
  0 < bpm <= 60 * SAMPLERATE →
  len mem = (60 * SAMPLERATE) `div` bpm →
  LemState.init bpm mem sample SAMPLERATE = LemState.Done s0 →
  LemState.clicked RecordButton.waiting acts = true →
  LemState.run s0 acts = LemState.Done self →
  ∀ t,
    t ∈ LoopStreamManager._tracks (LemState._stream_manager self)
    ∨ t ∈ LoopStreamManager._tracks_copy (LemState._stream_manager self) →
    PlayingTrack._length t = len (PlayingTrack.data t)
    ∧ 0 < PlayingTrack._length t
    ∧ PlayingTrack._length t `mod` ((60 * SAMPLERATE) `div` bpm) = 0.
Proof.
  intros Hbpm Hmem Hinit Hclick Hrun t Hin.
  destruct (init_looping _ _ _ _ Hbpm Hmem Hinit) as [Hl0 Hlb0].
  destruct (run_looping acts _ s0 self Hl0 Hclick Hrun)
    as (b & (_ & Et & Ec) & Hd & Hlb & _ & Ht).
  rewrite <- Hlb0, <- (run_lem_len_beat acts s0 self Hrun).
  rewrite Forall_forall in Ht. apply Ht.
  rewrite Et, Ec in Hin. destruct Hin as [Hin|Hin]; [done|].
  destruct (LemState.shares_tracks_copy self); [done|].
  by apply elem_of_nil in Hin.
Qed.


Lemma looper_plays_whole_beats_witness :
  let c :=
    Engine.mkCycle [(1, 1)] [silence]
      (mkFlags false false false false false) false in
  let acts :=
    [LemState.StartRecording; LemState.Tick c; LemState.Tick c;
     LemState.StopRecording; LemState.Tick c; LemState.Tick c;
     LemState.Finish] in
  ∃ s0 self,
    LemState.init 1323000 [silence; silence] [(5, 5); (6, 6); (7, 7)] 44100
    = LemState.Done s0
    ∧ LemState.run s0 acts = LemState.Done self
    ∧ length (LoopStreamManager._tracks (LemState._stream_manager self))
      = 2%nat
    ∧ ∀ t,
        t ∈ LoopStreamManager._tracks (LemState._stream_manager self) →
        0 < PlayingTrack._length t ∧ PlayingTrack._length t `mod` 2 = 0.
Proof.
  intros c acts.
  destruct (LemState.init 1323000 [silence; silence]
              [(5, 5); (6, 6); (7, 7)] 44100) as [s0|e] eqn:Hinit;
    [|vm_compute in Hinit; discriminate].
  destruct (LemState.run s0 acts) as [self|e] eqn:Hrun.
  2:{ vm_compute in Hinit. injection Hinit as <-.
      vm_compute in Hrun. discriminate. }
  exists s0, self. split; [reflexivity|]. split; [exact Hrun|]. split.
  { vm_compute in Hinit. injection Hinit as <-.
    vm_compute in Hrun. by injection Hrun as <-. }
  intros t Hin.
  destruct (looper_plays_whole_beats 1323000 [silence; silence]
              [(5, 5); (6, 6); (7, 7)] acts s0 self) with (t := t)
    as (_ & Hpos & Hmod);
    [unfold SAMPLERATE; lia | reflexivity | exact Hinit | reflexivity
    | exact Hrun | by left |].
  split; [exact Hpos | exact Hmod].
Defined.

(** X23: in such a looper the callback of the stream does not fail: for
    a block shorter than a beat, with an output block as long as the input
    block, [callback] returns, whatever was recorded or deleted before and
    whether or not the lock of the tracks is held. *)
Theorem looper_callback_does_not_fail (bpm : Z) (mem sample : list Frame)
  (acts : list LemState.action) (s0 self : LemState.t) (c : Engine.Cycle) :
  0 < bpm <= 60 * SAMPLERATE →
  len mem = (60 * SAMPLERATE) `div` bpm →
  LemState.init bpm mem sample SAMPLERATE = LemState.Done s0 →
  LemState.clicked RecordButton.waiting acts = true →
  LemState.run s0 acts = LemState.Done self →
  len (Engine.indata c) < (60 * SAMPLERATE) `div` bpm →
  len (Engine.outdata c) = len (Engine.indata c) →
  ∃ manager out,
    LoopStreamManager.callback (LemState._stream_manager self)
      (Engine.locked c) (Engine.indata c) (Engine.outdata c)
      (len (Engine.indata c)) (Engine.status c)
    = Ok (manager, out).
Proof.
  intros Hbpm Hmem Hinit Hclick Hrun Hshort Hout.
  destruct (init_looping _ _ _ _ Hbpm Hmem Hinit) as [Hl0 Hlb0].
  destruct (run_looping acts _ s0 self Hl0 Hclick Hrun) as (b & Hl).
  rewrite <- Hlb0, <- (run_lem_len_beat acts s0 self Hrun) in Hshort.
  destruct (looping_tick b self c Hl Hshort Hout) as (self' & Ht).
  unfold LemState.tick in Ht.
  destruct (LoopStreamManager.callback _ _ _ _ _ _) as [[m out]|];
    [by exists m, out | done].
Qed.

Lemma looper_callback_does_not_fail_witness :
  let c :=
    Engine.mkCycle [(1, 1)] [silence]
      (mkFlags false false false false false) false in
  let acts :=
    [LemState.StartRecording; LemState.Tick c; LemState.Tick c;
     LemState.StopRecording; LemState.Tick c; LemState.Tick c;
     LemState.Finish] in
  ∃ s0 self manager out,
    LemState.init 1323000 [silence; silence] [(5, 5); (6, 6); (7, 7)] 44100
    = LemState.Done s0
    ∧ LemState.run s0 acts = LemState.Done self
    ∧ LoopStreamManager.callback (LemState._stream_manager self) true
        [(9, 9)] [silence] 1 (mkFlags false false false false false)
      = Ok (manager, out).
Proof.
  intros c acts.
  destruct (LemState.init 1323000 [silence; silence]
              [(5, 5); (6, 6); (7, 7)] 44100) as [s0|e] eqn:Hinit;
    [|vm_compute in Hinit; discriminate].
  destruct (LemState.run s0 acts) as [self|e] eqn:Hrun.
  2:{ vm_compute in Hinit. injection Hinit as <-.
      vm_compute in Hrun. discriminate. }
  destruct (looper_callback_does_not_fail 1323000 [silence; silence]
              [(5, 5); (6, 6); (7, 7)] acts s0 self
              (Engine.mkCycle [(9, 9)] [silence]
                 (mkFlags false false false false false) true))
    as (manager & out & Hc);
    [unfold SAMPLERATE; lia | reflexivity | exact Hinit | reflexivity
    | exact Hrun | vm_compute; reflexivity | reflexivity |].
  exists s0, self, manager, out.
  split; [reflexivity|]. split; [exact Hrun | exact Hc].
Defined.

(** X24: in such a looper [stop_recording] does not fail once a recorded
    track has come: [post_production] raises nothing, and the method either
    answers [True] and appends one track, not empty and whole beats long,
    to the tracks, or answers [False] and leaves the tracks as they are. *)
Theorem looper_stop_recording_does_not_fail (bpm : Z)
  (mem sample : list Frame) (acts : list LemState.action)
  (s0 self : LemState.t) (r : LemState.outcome (LemState.t * bool)) :
  0 < bpm <= 60 * SAMPLERATE →
  len mem = (60 * SAMPLERATE) `div` bpm →
  LemState.init bpm mem sample SAMPLERATE = LemState.Done s0 →
  LemState.clicked RecordButton.waiting acts = true →
  LemState.run s0 acts = LemState.Done self →
  LemState.stop_recording_finish self = Some r →
  ∃ self' added,
    r = LemState.Done (self', added)
    ∧ (if added
       then ∃ t,
              LemState._tracks self' = LemState._tracks self ++ [t]
              ∧ 0 < len (PlayingTrack.data t)
              ∧ len (PlayingTrack.data t) `mod` ((60 * SAMPLERATE) `div` bpm)
                = 0
       else LemState._tracks self' = LemState._tracks self).
Proof.
  intros Hbpm Hmem Hinit Hclick Hrun Hstop.
  destruct (init_looping _ _ _ _ Hbpm Hmem Hinit) as [Hl0 Hlb0].
  destruct (run_looping acts _ s0 self Hl0 Hclick Hrun) as (b & Hl).
  destruct (looping_stop_recording b self r Hl Hstop)
    as (self' & added & -> & Hres).
  exists self', added. split; [done|].
  destruct added; [|done].
  destruct Hres as (t & (Hlen & Hpos & Hmod) & Ht).
  exists t. split; [done|].
  rewrite <- Hlen, <- Hlb0, <- (run_lem_len_beat acts s0 self Hrun). done.
Qed.

Lemma looper_stop_recording_does_not_fail_witness :
  let c :=
    Engine.mkCycle [(1, 1)] [silence]
      (mkFlags false false false false false) false in
  let acts :=
    [LemState.StartRecording; LemState.Tick c; LemState.Tick c;
     LemState.StopRecording; LemState.Tick c; LemState.Tick c] in
  ∃ s0 self self',
    LemState.init 1323000 [silence; silence] [(5, 5); (6, 6); (7, 7)] 44100
    = LemState.Done s0
    ∧ LemState.run s0 acts = LemState.Done self
    ∧ LemState.stop_recording_finish self
      = Some (LemState.Done (self', true))
    ∧ length (LemState._tracks self') = 2%nat.
Proof.
  intros c acts.
  destruct (LemState.init 1323000 [silence; silence]
              [(5, 5); (6, 6); (7, 7)] 44100) as [s0|e] eqn:Hinit;
    [|vm_compute in Hinit; discriminate].
  destruct (LemState.run s0 acts) as [self|e] eqn:Hrun.
  2:{ vm_compute in Hinit. injection Hinit as <-.
      vm_compute in Hrun. discriminate. }
  assert (∃ x, LemState.stop_recording_finish self
               = Some (LemState.Done (x, true))
               ∧ length (LemState._tracks self) = 1%nat)
    as (x & Hstop & Hone).
  { vm_compute in Hinit. injection Hinit as <-.
    vm_compute in Hrun. injection Hrun as <-.
    eexists. split; [vm_compute; reflexivity | reflexivity]. }
  destruct (looper_stop_recording_does_not_fail 1323000 [silence; silence]
              [(5, 5); (6, 6); (7, 7)] acts s0 self _
              ltac:(unfold SAMPLERATE; lia) eq_refl Hinit eq_refl Hrun Hstop)
    as (self' & added & Hr & Hres).
  injection Hr as <- <-. destruct Hres as (t & Ht & _).
  exists s0, self, x. split; [reflexivity|]. split; [exact Hrun|].
  split; [exact Hstop|]. rewrite Ht, length_app, Hone. reflexivity.
Defined.
